(** * go-csv-to-json: a shallow embedding of [main.go] and its properties

    The program reads a delimited text file with [encoding/csv], turns every
    data row into a [map[string]string] keyed by the header row
    ([processLine]), hands the maps over an unbuffered channel to a second
    goroutine ([writeJSONFile]) that serialises each of them with
    [encoding/json] and appends it to a JSON array in the output file.

    Go strings are byte sequences: they are modelled by [string] (a list of
    8-bit [ascii]).  Go maps are modelled by stdpp's [gmap string string]. *)

From Stdlib Require Import Ascii ZArith Lia.
From stdpp Require Import base option list gmap strings sorting.

Local Open Scope Z_scope.
Local Open Scope stdpp_scope.

(** ** Bytes and strings *)

Module Byte.
Definition LF : ascii := "010"%char.
Definition CR : ascii := "013"%char.
Definition DQUOTE : ascii := "034"%char.
Definition BACKSLASH : ascii := "092"%char.
Definition SLASH : ascii := "/"%char.
Definition DOT : ascii := "."%char.
Definition SPACE : ascii := " "%char.
Definition TAB : ascii := "009"%char.

Definition eqb (a b : ascii) : bool := bool_decide (a = b).
Definition code (a : ascii) : N := N_of_ascii a.
End Byte.

Module Str.
  (** [strings.Join] *)
Fixpoint join (sep : string) (l : list string) : string :=
    match l with
    | [] => ""
    | [x] => x
    | x :: l' => x +:+ sep +:+ join sep l'
    end.

  (** The concatenation of the strings of a list. *)
Fixpoint cat (l : list string) : string :=
    match l with
    | [] => ""
    | x :: l' => x +:+ cat l'
    end.

  (** Source-text helper: the same string with every apostrophe replaced by
      a double quote, so that expected JSON texts stay readable. *)
Fixpoint dq (s : string) : string :=
    match s with
    | "" => ""
    | String c s' =>
        String (if Byte.eqb c "'"%char then Byte.DQUOTE else c) (dq s')
    end.

  (** [strings.HasSuffix] and [strings.TrimSuffix] *)
Definition hasSuffix (s suffix : string) : bool :=
    String.prefix (String.rev suffix) (String.rev s).

Fixpoint take (n : nat) (s : string) : string :=
    match n, s with
    | S n', String c s' => String c (take n' s')
    | _, _ => ""
    end.

Definition trimSuffix (s suffix : string) : string :=
    if hasSuffix s suffix
    then take (String.length s - String.length suffix) s
    else s.

Definition repeat (s : string) (n : nat) : string := cat (replicate n s).
End Str.

(** ** [encoding/csv]: the reader, with the configuration the program uses

    [csv.NewReader] leaves [FieldsPerRecord] at 0, [LazyQuotes] and
    [TrimLeadingSpace] off and [Comment] unset; the program only ever changes
    [Comma].  The reader's buffered source is modelled by the list of the
    lines that successive [readLine] calls return. *)

Module csv.

Inductive ParseError := ErrBareQuote | ErrQuote | ErrFieldCount.

  (** What one call of [Read] returns: [(record, nil)], [(nil, io.EOF)] or
      [(record, &ParseError{...})]. *)
Inductive ReadResult :=
  | Record (record : list string)
  | EOF
  | Failed (record : list string) (err : ParseError).

Record Reader := mkReader {
    Comma : ascii;
    FieldsPerRecord : Z;
    pending : list string   (* the lines of the source not yet read *)
  }.

  (** The source cut after every line feed (what [bufio.ReadSlice] yields);
      a last line without line feed is kept, an empty rest is not a line. *)
Fixpoint cutLines (cur : string) (s : string) : list string :=
    match s with
    | "" => match cur with "" => [] | _ => [String.rev cur] end
    | String c s' =>
        if Byte.eqb c Byte.LF
        then String.rev (String c cur) :: cutLines "" s'
        else cutLines (String c cur) s'
    end.

  (** [readLine]'s clean-up of a line: a trailing carriage return before
      the end of the file is dropped, and a final CR LF becomes LF. *)
Fixpoint normLine (l : string) : string :=
    match l with
    | "" => ""
    | String c l' =>
        match l' with
        | "" => if Byte.eqb c Byte.CR then "" else String c ""
        | String c2 "" =>
            if Byte.eqb c Byte.CR && Byte.eqb c2 Byte.LF
            then String Byte.LF ""
            else String c (normLine l')
        | _ => String c (normLine l')
        end
    end.

Definition NewReader (src : string) : Reader :=
    {| Comma := ","%char; FieldsPerRecord := 0; pending := cutLines "" src |}.

  (** [lengthNL] *)
Definition lengthNL (b : string) : nat :=
    if Str.hasSuffix b (String Byte.LF "") then 1%nat else 0%nat.

  (** Where [parseField] stands in the current line. *)
Inductive Mode :=
  | FieldStart            (* at the head of the [parseField] loop *)
  | Bare                  (* inside a non-quoted field *)
  | Quoted                (* inside a quoted field *)
  | QuoteSeen.            (* just after a quote met inside a quoted field *)

Inductive LineResult :=
  | Done (record : list string)
  | Bad (record : list string) (err : ParseError)
  | More (field : string) (record : list string).  (* the quoted field goes on *)

  (** The [parseField] loop on the bytes of one line.  [field] holds the
      bytes of the current field in reverse, [fields] the finished fields in
      reverse. *)
Fixpoint scan (comma : ascii) (m : Mode) (field : string)
      (fields : list string) (line : string) : LineResult :=
    let finish := rev (String.rev field :: fields) in
    match line with
    | "" =>
        match m with
        | FieldStart | Bare | QuoteSeen => Done finish
        | Quoted => More field fields
        end
    | String c rest =>
        match m with
        | FieldStart =>
            if Byte.eqb c Byte.DQUOTE then scan comma Quoted field fields rest
            else if Byte.eqb c comma
            then scan comma FieldStart "" (String.rev field :: fields) rest
            else if Byte.eqb c Byte.LF && bool_decide (rest = "")
            then Done finish
            else scan comma Bare (String c field) fields rest
        | Bare =>
            if Byte.eqb c comma
            then scan comma FieldStart "" (String.rev field :: fields) rest
            else if Byte.eqb c Byte.DQUOTE then Bad (rev fields) ErrBareQuote
            else if Byte.eqb c Byte.LF && bool_decide (rest = "")
            then Done finish
            else scan comma Bare (String c field) fields rest
        | Quoted =>
            if Byte.eqb c Byte.DQUOTE then scan comma QuoteSeen field fields rest
            else scan comma Quoted (String c field) fields rest
        | QuoteSeen =>
            if Byte.eqb c Byte.DQUOTE
            then scan comma Quoted (String c field) fields rest
            else if Byte.eqb c comma
            then scan comma FieldStart "" (String.rev field :: fields) rest
            else if Byte.eqb c Byte.LF && bool_decide (rest = "")
            then Done finish
            else Bad (rev fields) ErrQuote
        end
    end.

  (** A quoted field that runs over the end of a line continues on the next
      lines; the end of the source inside it is [ErrQuote]. *)
Fixpoint continueQuoted (comma : ascii) (field : string)
      (fields : list string) (lines : list string)
      : ReadResult * list string :=
    match lines with
    | [] => (Failed (rev fields) ErrQuote, [])
    | l :: lines' =>
        match scan comma Quoted field fields (normLine l) with
        | Done r => (Record r, lines')
        | Bad r e => (Failed r e, lines')
        | More f fs => continueQuoted comma f fs lines'
        end
    end.

  (** [readRecord] up to the field-count check: empty lines are skipped,
      the end of the source is [io.EOF]. *)
Fixpoint parseRecord (comma : ascii) (lines : list string)
      : ReadResult * list string :=
    match lines with
    | [] => (EOF, [])
    | l :: lines' =>
        let line := normLine l in
        if bool_decide (String.length line = lengthNL line)
        then parseRecord comma lines'
        else
          match scan comma FieldStart "" [] line with
          | Done r => (Record r, lines')
          | Bad r e => (Failed r e, lines')
          | More f fs => continueQuoted comma f fs lines'
          end
    end.

Definition recordOf (r : ReadResult) : list string :=
    match r with Record d | Failed d _ => d | EOF => [] end.

  (** [Read]: a record is parsed, then checked against [FieldsPerRecord];
      with [FieldsPerRecord = 0] the first record read fixes it. *)
Definition Read (r : Reader) : ReadResult * Reader :=
    let '(res, lines') := parseRecord (Comma r) (pending r) in
    match res with
    | EOF => (EOF, mkReader (Comma r) (FieldsPerRecord r) lines')
    | _ =>
        let dst := recordOf res in
        if bool_decide (0 < FieldsPerRecord r) then
          let res' :=
            match res with
            | Record d =>
                if bool_decide (Z.of_nat (length d) ≠ FieldsPerRecord r)
                then Failed d ErrFieldCount else Record d
            | _ => res
            end in
          (res', mkReader (Comma r) (FieldsPerRecord r) lines')
        else if bool_decide (FieldsPerRecord r = 0) then
          (res, mkReader (Comma r) (Z.of_nat (length dst)) lines')
        else (res, mkReader (Comma r) (FieldsPerRecord r) lines')
    end.

  (** [ReadAll]: the records up to [io.EOF], or the first error. *)
Fixpoint readAllFrom (fuel : nat) (r : Reader)
      : option (list (list string) + ParseError) :=
    match fuel with
    | O => None
    | S fuel' =>
        match Read r with
        | (EOF, _) => Some (inl [])
        | (Failed _ e, _) => Some (inr e)
        | (Record d, r') =>
            match readAllFrom fuel' r' with
            | Some (inl ds) => Some (inl (d :: ds))
            | other => other
            end
        end
    end.

Definition ReadAll (r : Reader) : option (list (list string) + ParseError) :=
    readAllFrom (S (length (pending r))) r.

  (** The same reader with [FieldsPerRecord] negative: no check on the
      number of fields is made. *)
Definition unchecked (r : Reader) : Reader :=
    mkReader (Comma r) (-1) (pending r).

End csv.

(** ** [encoding/json]: [Marshal] and [MarshalIndent] on a [map[string]string] *)

Module json.

Definition hexDigit (n : N) : ascii :=
    match String.get (N.to_nat n) "0123456789abcdef" with
    | Some c => c
    | None => "0"%char
    end.

  (** [htmlSafeSet]: the ASCII bytes written as they are. *)
Definition htmlSafe (b : ascii) : bool :=
    let c := Byte.code b in
    (32 <=? c)%N && (c <? 128)%N &&
    negb (Byte.eqb b Byte.DQUOTE) && negb (Byte.eqb b Byte.BACKSLASH) &&
    negb (Byte.eqb b "&"%char) && negb (Byte.eqb b "<"%char) &&
    negb (Byte.eqb b ">"%char).

  (** The escape of an ASCII byte outside [htmlSafeSet]. *)
Definition escapeByte (b : ascii) : string :=
    let c := Byte.code b in
    if Byte.eqb b Byte.BACKSLASH || Byte.eqb b Byte.DQUOTE
    then String Byte.BACKSLASH (String b "")
    else if (c =? 8)%N then String Byte.BACKSLASH "b"
    else if (c =? 12)%N then String Byte.BACKSLASH "f"
    else if (c =? 10)%N then String Byte.BACKSLASH "n"
    else if (c =? 13)%N then String Byte.BACKSLASH "r"
    else if (c =? 9)%N then String Byte.BACKSLASH "t"
    else String Byte.BACKSLASH
           ("u00" +:+ String (hexDigit (N.shiftr c 4))
                        (String (hexDigit (N.land c 15)) "")).

Definition RuneError : N := 0xFFFD%N.

  (** The first-byte table of [unicode/utf8]: the length of the encoding
      and the range accepted for the second byte. *)
Definition first (c0 : N) : option (nat * N * N) :=
    if (0xC2 <=? c0)%N && (c0 <=? 0xDF)%N then Some (2%nat, 0x80, 0xBF)%N
    else if (c0 =? 0xE0)%N then Some (3%nat, 0xA0, 0xBF)%N
    else if (c0 =? 0xED)%N then Some (3%nat, 0x80, 0x9F)%N
    else if (0xE1 <=? c0)%N && (c0 <=? 0xEF)%N then Some (3%nat, 0x80, 0xBF)%N
    else if (c0 =? 0xF0)%N then Some (4%nat, 0x90, 0xBF)%N
    else if (0xF1 <=? c0)%N && (c0 <=? 0xF3)%N then Some (4%nat, 0x80, 0xBF)%N
    else if (c0 =? 0xF4)%N then Some (4%nat, 0x80, 0x8F)%N
    else None.

Definition isCont (c : N) : bool := (0x80 <=? c)%N && (c <=? 0xBF)%N.

  (** [utf8.DecodeRuneInString]: the rune at the head of [s] and the number
      of bytes of its encoding; an invalid encoding is [(RuneError, 1)]. *)
Definition decodeRune (s : string) : N * nat :=
    match s with
    | "" => (RuneError, 0%nat)
    | String b0 r0 =>
        let c0 := Byte.code b0 in
        if (c0 <? 128)%N then (c0, 1%nat)
        else
          match first c0, r0 with
          | Some (sz, lo, hi), String b1 r1 =>
              let c1 := Byte.code b1 in
              if (c1 <? lo)%N || (hi <? c1)%N then (RuneError, 1%nat)
              else if bool_decide (sz = 2%nat)
              then (N.lor (N.shiftl (N.land c0 0x1F) 6) (N.land c1 0x3F), 2%nat)
              else
                match r1 with
                | String b2 r2 =>
                    let c2 := Byte.code b2 in
                    if negb (isCont c2) then (RuneError, 1%nat)
                    else if bool_decide (sz = 3%nat)
                    then (N.lor (N.shiftl (N.land c0 0x0F) 12)
                            (N.lor (N.shiftl (N.land c1 0x3F) 6)
                               (N.land c2 0x3F)), 3%nat)
                    else
                      match r2 with
                      | String b3 _ =>
                          let c3 := Byte.code b3 in
                          if negb (isCont c3) then (RuneError, 1%nat)
                          else (N.lor (N.shiftl (N.land c0 0x07) 18)
                                  (N.lor (N.shiftl (N.land c1 0x3F) 12)
                                     (N.lor (N.shiftl (N.land c2 0x3F) 6)
                                        (N.land c3 0x3F))), 4%nat)
                      | "" => (RuneError, 1%nat)
                      end
                | "" => (RuneError, 1%nat)
                end
          | _, _ => (RuneError, 1%nat)
          end
    end.

  (** The body of a string literal ([appendString] with [escapeHTML] on,
      without the surrounding quotes). *)
Fixpoint escape (s : string) : string :=
    match s with
    | "" => ""
    | String b0 r0 =>
        if (Byte.code b0 <? 128)%N then
          (if htmlSafe b0 then String b0 "" else escapeByte b0) +:+ escape r0
        else
          let '(c, size) := decodeRune s in
          match size, r0 with
          | 2%nat, String b1 r1 => String b0 (String b1 (escape r1))
          | 3%nat, String b1 (String b2 r2) =>
              if (c =? 0x2028)%N || (c =? 0x2029)%N
              then String Byte.BACKSLASH
                     ("u202" +:+ String (hexDigit (N.land c 15)) (escape r2))
              else String b0 (String b1 (String b2 (escape r2)))
          | 4%nat, String b1 (String b2 (String b3 r3)) =>
              String b0 (String b1 (String b2 (String b3 (escape r3))))
          | _, _ => String Byte.BACKSLASH ("ufffd" +:+ escape r0)
          end
    end.

Definition quote (s : string) : string :=
    String Byte.DQUOTE (escape s +:+ String Byte.DQUOTE "").

  (** Map keys are written in increasing byte order. *)
Definition keyLe (p q : string * string) : Prop := String.le p.1 q.1.

Definition sortedEntries (m : gmap string string) : list (string * string) :=
    merge_sort keyLe (map_to_list m).

Definition member (p : string * string) : string :=
    quote p.1 +:+ ":" +:+ quote p.2.

  (** [json.Marshal] of a non-nil [map[string]string]; it cannot fail. *)
Definition Marshal (m : gmap string string) : string :=
    "{" +:+ Str.join "," (member <$> sortedEntries m) +:+ "}".

  (** [appendNewline] *)
Definition newline (prefix indent : string) (depth : nat) : string :=
    String Byte.LF (prefix +:+ Str.repeat indent depth).

Definition isSpace (c : ascii) : bool :=
    Byte.eqb c Byte.SPACE || Byte.eqb c Byte.TAB ||
    Byte.eqb c Byte.CR || Byte.eqb c Byte.LF.

Definition isClose (c : ascii) : bool :=
    Byte.eqb c "}"%char || Byte.eqb c "]"%char.

  (** [Indent] on a valid JSON text.  [inStr] and [esc] follow the scanner
      through string literals, whose bytes are copied; [needIndent] and
      [depth] are the variables of [appendIndent]. *)
Fixpoint indentFrom (prefix indent : string) (inStr esc needIndent : bool)
      (depth : nat) (src : string) : string :=
    match src with
    | "" => ""
    | String c rest =>
        if inStr then
          String c
            (if esc then indentFrom prefix indent true false needIndent depth rest
             else if Byte.eqb c Byte.BACKSLASH
             then indentFrom prefix indent true true needIndent depth rest
             else if Byte.eqb c Byte.DQUOTE
             then indentFrom prefix indent false false needIndent depth rest
             else indentFrom prefix indent true false needIndent depth rest)
        else if isSpace c
        then indentFrom prefix indent false false needIndent depth rest
        else
          let opening := needIndent && negb (isClose c) in
          let depth1 := if opening then S depth else depth in
          let lead := if opening then newline prefix indent depth1 else "" in
          let need1 := if opening then false else needIndent in
          lead +:+
          (if Byte.eqb c "{"%char || Byte.eqb c "["%char
           then String c (indentFrom prefix indent false false true depth1 rest)
           else if Byte.eqb c ","%char
           then String c (newline prefix indent depth1 +:+
                          indentFrom prefix indent false false need1 depth1 rest)
           else if Byte.eqb c ":"%char
           then String c (String Byte.SPACE
                            (indentFrom prefix indent false false need1 depth1 rest))
           else if isClose c
           then if need1
                then String c (indentFrom prefix indent false false false depth1 rest)
                else newline prefix indent (pred depth1) +:+
                     String c (indentFrom prefix indent false false false
                                 (pred depth1) rest)
           else String c (indentFrom prefix indent (Byte.eqb c Byte.DQUOTE) false
                            need1 depth1 rest))
    end.

  (** The text without its insignificant white space, the one outside
      string literals. *)
Fixpoint elideFrom (inStr esc : bool) (src : string) : string :=
    match src with
    | "" => ""
    | String c rest =>
        if inStr then
          String c
            (if esc then elideFrom true false rest
             else if Byte.eqb c Byte.BACKSLASH then elideFrom true true rest
             else if Byte.eqb c Byte.DQUOTE then elideFrom false false rest
             else elideFrom true false rest)
        else if isSpace c then elideFrom false false rest
        else String c (elideFrom (Byte.eqb c Byte.DQUOTE) false rest)
    end.

Definition elideSpace (src : string) : string := elideFrom false false src.

(** A piece of the body of a string literal: read inside a literal, it is
    copied and leaves the reader inside the literal. *)
Definition literal (t : string) : Prop :=
  ∀ rest, elideFrom true false (t +:+ rest) = t +:+ elideFrom true false rest.

(** A text without insignificant white space whose string literals are
    all closed: read outside a literal, it is copied and leaves the reader
    outside. *)
Definition compact (t : string) : Prop :=
  ∀ rest, elideFrom false false (t +:+ rest) = t +:+ elideFrom false false rest.

(** A run of insignificant white space. *)
Definition blank (t : string) : Prop :=
  ∀ rest, elideFrom false false (t +:+ rest) = elideFrom false false rest.

Definition Indent (src prefix indent : string) : string :=
    indentFrom prefix indent false false false 0 src.

Definition MarshalIndent (m : gmap string string) (prefix indent : string)
      : string :=
    Indent (Marshal m) prefix indent.

End json.

(** ** [path/filepath] on a system whose separator is the slash *)

Module filepath.

Definition isSep (c : ascii) : bool := Byte.eqb c Byte.SLASH.

  (** [Ext]: the loop runs from the last byte towards the first; [seen]
      holds the bytes already passed. *)
Fixpoint extFrom (backwards seen : string) : string :=
    match backwards with
    | "" => ""
    | String c r =>
        if isSep c then ""
        else if Byte.eqb c Byte.DOT then String c seen
        else extFrom r (String c seen)
    end.

Definition Ext (path : string) : string := extFrom (String.rev path) "".

Fixpoint dropSeps (backwards : string) : string :=
    match backwards with
    | "" => ""
    | String c r => if isSep c then dropSeps r else backwards
    end.

  (** The bytes of the last element, read from the end; [seen] as above. *)
Fixpoint lastElem (backwards seen : string) : string :=
    match backwards with
    | "" => seen
    | String c r => if isSep c then seen else lastElem r (String c seen)
    end.

Definition Base (path : string) : string :=
    if bool_decide (path = "") then "."
    else
      let e := lastElem (dropSeps (String.rev path)) "" in
      if bool_decide (e = "") then "/" else e.

  (** The [..] case of [Clean]: [w] steps back over the last element of
      the buffer, no further than [dotdot]. *)
Fixpoint backtrack (out : string) (dotdot w : nat) : nat :=
    match w with
    | O => O
    | S w' =>
        if bool_decide (dotdot < w)%nat &&
           negb (bool_decide (String.get w out = Some Byte.SLASH))
        then backtrack out dotdot w'
        else w
    end.

Definition endsElem (s : string) : bool :=
    match s with
    | "" => true
    | String c _ => isSep c
    end.

  (** The loop of [Clean]: [out] is the buffer, [inElem] says that a real
      path element is being copied. *)
Fixpoint cleanFrom (rooted inElem : bool) (out : string) (dotdot : nat)
      (path : string) : string :=
    match path with
    | "" => out
    | String c rest =>
        if inElem then
          if isSep c then cleanFrom rooted false out dotdot rest
          else cleanFrom rooted true (out +:+ String c "") dotdot rest
        else if isSep c then cleanFrom rooted false out dotdot rest
        else if Byte.eqb c Byte.DOT && endsElem rest
        then cleanFrom rooted false out dotdot rest
        else
          let w := String.length out in
          let sep := if bool_decide (w = if rooted then 1 else 0)%nat
                     then "" else "/" in
          match rest with
          | String c2 rest2 =>
              if Byte.eqb c Byte.DOT && Byte.eqb c2 Byte.DOT && endsElem rest2
              then
                if bool_decide (dotdot < w)%nat
                then cleanFrom rooted false
                       (Str.take (backtrack out dotdot (w - 1)) out) dotdot rest2
                else if rooted then cleanFrom rooted false out dotdot rest2
                else
                  let out' := out +:+ (if bool_decide (0 < w)%nat then "/" else "")
                                  +:+ ".." in
                  cleanFrom rooted false out' (String.length out') rest2
              else cleanFrom rooted true (out +:+ sep +:+ String c "") dotdot rest
          | "" => cleanFrom rooted true (out +:+ sep +:+ String c "") dotdot rest
          end
    end.

Definition Clean (path : string) : string :=
    match path with
    | "" => "."
    | String c rest =>
        let out :=
          if isSep c then cleanFrom true false "/" 1 rest
          else cleanFrom false false "" 0 path in
        if bool_decide (out = "") then "." else out
    end.

  (** The prefix of the path up to and including its last separator. *)
Fixpoint dirPart (backwards : string) : string :=
    match backwards with
    | "" => ""
    | String c r => if isSep c then String.rev backwards else dirPart r
    end.

Definition Dir (path : string) : string := Clean (dirPart (String.rev path)).

(** A string without separator: a single path element. *)
Fixpoint noSep (s : string) : Prop :=
  match s with
  | "" => True
  | String c s' => isSep c = false ∧ noSep s'
  end.

End filepath.

(** ** The program *)

(** Go [error] values. *)
Inductive Error :=
| ErrText (msg : string)               (* [errors.New], [fmt.Errorf] *)
| ErrParse (e : csv.ParseError)        (* a [*csv.ParseError] *)
| ErrEOF                               (* [io.EOF] *)
| ErrPath (op path : string).          (* a [*fs.PathError] *)

Record inputFile := mkInputFile {
  filepath : string;
  separator : string;
  pretty : bool
}.

(** What the [flag] package and [os.Args] hand to [getFileData]. *)
Record CmdLine := mkCmdLine {
  nArgs : nat;              (* [len(os.Args)] *)
  flagSeparator : string;   (* [*separator] after [flag.Parse] *)
  flagPretty : bool;        (* [*pretty] after [flag.Parse] *)
  arg0 : string             (* [flag.Arg(0)] *)
}.

Definition getFileData (cl : CmdLine) : inputFile + Error :=
  if bool_decide (nArgs cl < 2)%nat
  then inr (ErrText "A filepath argument is required")
  else if negb (bool_decide (flagSeparator cl = "comma")
                || bool_decide (flagSeparator cl = "semicolon"))
  then inr (ErrText "Only comma or semicolon separators are allowed")
  else inl (mkInputFile (arg0 cl) (flagSeparator cl) (flagPretty cl)).

(** The file system as the program sees it. *)
Inductive StatResult := StatOk | StatNotExist | StatOtherError.

Record World := mkWorld {
  stat : string → StatResult;          (* [os.Stat] *)
  contents : string → option string;   (* [os.Open]: the bytes of the file *)
  creatable : string → bool            (* whether [os.Create] succeeds *)
}.

Definition checkIfValidFile (w : World) (filename : string) : bool * option Error :=
  if negb (bool_decide (filepath.Ext filename = ".csv"))
  then (false, Some (ErrText ("File " +:+ filename +:+ " is not CSV")))
  else
    match stat w filename with
    | StatNotExist =>
        (false, Some (ErrText ("File " +:+ filename +:+ " does not exist")))
    | _ => (true, None)
    end.

(** The [range headers] loop of [processLine]; [None] is the run-time panic
    of an index out of range. *)
Fixpoint fillRecord (i : nat) (headers dataList : list string)
    (recordMap : gmap string string) : option (gmap string string) :=
  match headers with
  | [] => Some recordMap
  | name :: headers' =>
      match dataList !! i with
      | Some v => fillRecord (S i) headers' dataList (<[name := v]> recordMap)
      | None => None
      end
  end.

Inductive LineResult :=
| Mapped (recordMap : gmap string string)
| Rejected (err : Error)
| Panic.

Definition processLine (headers dataList : list string) : LineResult :=
  if bool_decide (length dataList ≠ length headers)
  then Rejected (ErrText "Line doesn't match headers format. Skipping")
  else
    match fillRecord 0 headers dataList ∅ with
    | Some recordMap => Mapped recordMap
    | None => Panic
    end.

(** [createStringWriter]: the place of the output file. *)
Definition finalLocation (csvPath : string) : string :=
  let jsonDir := filepath.Dir csvPath in
  let jsonName := Str.trimSuffix (filepath.Base csvPath) ".csv" +:+ ".json" in
  jsonDir +:+ "/" +:+ jsonName.

Definition getJSONFunc (pretty : bool) : (gmap string string → string) * string :=
  if pretty
  then (λ record, "   " +:+ json.MarshalIndent record "   " "   ",
        String Byte.LF "")
  else (λ record, json.Marshal record, "").

Definition jsonFunc (pretty : bool) : gmap string string → string :=
  (getJSONFunc pretty).1.
Definition breakLine (pretty : bool) : string := (getJSONFunc pretty).2.

(** *** The goroutines, one step at a time

    [main] starts [processCsvFile] and [writeJSONFile] as goroutines that
    meet on the unbuffered [writerChannel]; [done] is the second unbuffered
    channel, between [writeJSONFile] and [main].  A state holds the place of
    each of the three in its code, the output file, and what was printed. *)

Inductive Status := Running | Exited (code : Z).

Record File := mkFile { fname : string; fdata : string; fclosed : bool }.

Inductive MainPC :=
| MStart              (* [main], before [getFileData] *)
| MWait               (* blocked in [<-done] *)
| MReturn.            (* [<-done] has returned *)

Inductive ReaderPC :=
| RIdle               (* the goroutine is not started *)
| ROpen               (* before [os.Open] *)
| RHeader (reader : csv.Reader)                  (* before the first [Read] *)
| RNext (headers : list string) (reader : csv.Reader)   (* head of the loop *)
| RSend (headers : list string) (reader : csv.Reader)
        (record : gmap string string)            (* blocked in the send *)
| RDone.              (* the channel is closed, the function has returned *)

Inductive WriterPC :=
| WIdle               (* the goroutine is not started *)
| WCreate             (* before [createStringWriter] *)
| WOpenArray          (* before the write of the opening bracket *)
| WRecv (first : bool)                           (* blocked in the receive *)
| WSeparator (record : gmap string string)       (* before the comma *)
| WObject (record : gmap string string)          (* before the object *)
| WSignal             (* blocked in [done <- true] *)
| WDone.

Record State := mkState {
  status : Status;
  fileData : option inputFile;     (* [main]'s variable, set by [getFileData] *)
  mainPC : MainPC;
  readerPC : ReaderPC;
  writerPC : WriterPC;
  chanClosed : bool;               (* [writerChannel] has been closed *)
  sink : option File;              (* the file made by [createStringWriter] *)
  stdout : list string;
  stderr : list Error
}.

Inductive Thread := TMain | TReader | TWriter.

Definition initial : State :=
  mkState Running None MStart RIdle WIdle false None [] [].

Definition setReader (pc : ReaderPC) (s : State) : State :=
  mkState (status s) (fileData s) (mainPC s) pc (writerPC s) (chanClosed s)
    (sink s) (stdout s) (stderr s).
Definition setWriter (pc : WriterPC) (s : State) : State :=
  mkState (status s) (fileData s) (mainPC s) (readerPC s) pc (chanClosed s)
    (sink s) (stdout s) (stderr s).
Definition setMain (pc : MainPC) (s : State) : State :=
  mkState (status s) (fileData s) pc (readerPC s) (writerPC s) (chanClosed s)
    (sink s) (stdout s) (stderr s).
Definition setSink (f : File) (s : State) : State :=
  mkState (status s) (fileData s) (mainPC s) (readerPC s) (writerPC s)
    (chanClosed s) (Some f) (stdout s) (stderr s).
Definition closeChannel (s : State) : State :=
  mkState (status s) (fileData s) (mainPC s) (readerPC s) (writerPC s) true
    (sink s) (stdout s) (stderr s).
Definition print (line : string) (s : State) : State :=
  mkState (status s) (fileData s) (mainPC s) (readerPC s) (writerPC s)
    (chanClosed s) (sink s) (stdout s ++ [line]) (stderr s).
Definition exit (code : Z) (s : State) : State :=
  mkState (Exited code) (fileData s) (mainPC s) (readerPC s) (writerPC s)
    (chanClosed s) (sink s) (stdout s) (stderr s).

(** [exitGracefully]: the error goes to the standard error stream and the
    process ends with status 1. *)
Definition exitGracefully (err : Error) (s : State) : State :=
  exit 1
    (mkState (status s) (fileData s) (mainPC s) (readerPC s) (writerPC s)
       (chanClosed s) (sink s) (stdout s) (stderr s ++ [err])).

(** The closure returned by [createStringWriter]: [f.WriteString], [check],
    then [f.Close] when asked.  Writing to a closed file is an error. *)
Definition writeString (data : string) (close : bool) (s : State) : option State :=
  match sink s with
  | None => None
  | Some f =>
      if fclosed f then Some (exitGracefully (ErrPath "write" (fname f)) s)
      else Some (setSink (mkFile (fname f) (fdata f +:+ data) close) s)
  end.

(** The line printed for a rejected row: [%s] writes a slice of strings
    between brackets, its elements separated by spaces. *)
Definition rejection (line : list string) (err : string) : string :=
  "Line: [" +:+ Str.join " " line +:+ "]Error: " +:+ err +:+ String Byte.LF "".

Definition errorText (e : Error) : string :=
  match e with ErrText msg => msg | _ => "" end.

Definition openReader (fd : inputFile) (src : string) : csv.Reader :=
  let reader := csv.NewReader src in
  if bool_decide (separator fd = "semicolon")
  then csv.mkReader ";"%char (csv.FieldsPerRecord reader) (csv.pending reader)
  else reader.

Section Steps.
Variable w : World.
Variable cl : CmdLine.

Definition stepMain (s : State) : option State :=
    match mainPC s with
    | MStart =>
        match getFileData cl with
        | inr err => Some (exitGracefully err s)
        | inl fd =>
            match checkIfValidFile w (filepath fd) with
            | (_, Some err) => Some (exitGracefully err s)
            | (_, None) =>
                Some (mkState (status s) (Some fd) MWait ROpen WCreate
                        (chanClosed s) (sink s) (stdout s) (stderr s))
            end
        end
    | MWait => None
    | MReturn => Some (exit 0 s)
    end.

Definition stepReader (fd : inputFile) (s : State) : option State :=
    match readerPC s with
    | RIdle | RDone => None
    | ROpen =>
        match contents w (filepath fd) with
        | None => Some (exitGracefully (ErrPath "open" (filepath fd)) s)
        | Some src => Some (setReader (RHeader (openReader fd src)) s)
        end
    | RHeader reader =>
        match csv.Read reader with
        | (csv.Record headers, reader') => Some (setReader (RNext headers reader') s)
        | (csv.EOF, _) => Some (exitGracefully ErrEOF s)
        | (csv.Failed _ e, _) => Some (exitGracefully (ErrParse e) s)
        end
    | RNext headers reader =>
        match csv.Read reader with
        | (csv.EOF, _) => Some (setReader RDone (closeChannel s))
        | (csv.Failed _ e, _) => Some (exitGracefully (ErrParse e) s)
        | (csv.Record line, reader') =>
            match processLine headers line with
            | Rejected err =>
                Some (setReader (RNext headers reader')
                        (print (rejection line (errorText err)) s))
            | Mapped record => Some (setReader (RSend headers reader' record) s)
            | Panic => Some (exit 2 s)
            end
        end
    | RSend headers reader record =>
        match writerPC s with
        | WRecv first =>
            Some (setReader (RNext headers reader)
                    (setWriter (if first then WObject record
                                else WSeparator record) s))
        | _ => None
        end
    end.

Definition stepWriter (fd : inputFile) (s : State) : option State :=
    match writerPC s with
    | WIdle | WDone => None
    | WCreate =>
        let path := finalLocation (filepath fd) in
        if creatable w path
        then Some (setWriter WOpenArray
                     (print "Writing JSON file..."
                        (setSink (mkFile path "" false) s)))
        else Some (exitGracefully (ErrPath "open" path) s)
    | WOpenArray =>
        setWriter (WRecv true) <$> writeString ("[" +:+ breakLine (pretty fd)) false s
    | WRecv _ =>
        if chanClosed s
        then (λ s', setWriter WSignal (print "Completed!" s')) <$>
               writeString (breakLine (pretty fd) +:+ "]") true s
        else None
    | WSeparator record =>
        setWriter (WObject record) <$>
          writeString ("," +:+ breakLine (pretty fd)) false s
    | WObject record =>
        setWriter (WRecv false) <$> writeString (jsonFunc (pretty fd) record) false s
    | WSignal =>
        match mainPC s with
        | MWait => Some (setMain MReturn (setWriter WDone s))
        | _ => None
        end
    end.

  (** One step of thread [t]; [None] when [t] cannot move (it is blocked,
      has returned, or the process has exited). *)
Definition step (t : Thread) (s : State) : option State :=
    match status s with
    | Exited _ => None
    | Running =>
        match t, fileData s with
        | TMain, _ => stepMain s
        | TReader, Some fd => stepReader fd s
        | TWriter, Some fd => stepWriter fd s
        | _, None => None
        end
    end.

  (** A schedule is the list of the threads that move, in order. *)
Fixpoint run (schedule : list Thread) (s : State) : option State :=
    match schedule with
    | [] => Some s
    | t :: schedule' =>
        match step t s with
        | Some s' => run schedule' s'
        | None => None
        end
    end.

End Steps.

(** *** The two goroutines as functions

    [processCsvFile] as the list of what it does (records sent, lines
    printed) and the way it ends; [writeJSONFile] as the text it writes for
    the records it receives. *)

Inductive Event :=
| Send (record : gmap string string)
| Print (line : string).

Inductive LoopEnd :=
| Closed               (* [io.EOF]: the channel is closed *)
| Fatal (err : Error)  (* [exitGracefully] *)
| Panicked
| OutOfFuel.

Fixpoint readLoop (fuel : nat) (headers : list string) (reader : csv.Reader)
    : list Event * LoopEnd :=
  match fuel with
  | O => ([], OutOfFuel)
  | S fuel' =>
      match csv.Read reader with
      | (csv.EOF, _) => ([], Closed)
      | (csv.Failed _ e, _) => ([], Fatal (ErrParse e))
      | (csv.Record line, reader') =>
          match processLine headers line with
          | Rejected err =>
              let '(evs, e) := readLoop fuel' headers reader' in
              (Print (rejection line (errorText err)) :: evs, e)
          | Mapped record =>
              let '(evs, e) := readLoop fuel' headers reader' in
              (Send record :: evs, e)
          | Panic => ([], Panicked)
          end
      end
  end.

(** Every [Read] but the last takes at least one line: one more than the
    number of pending lines is fuel enough. *)
Definition loop (headers : list string) (reader : csv.Reader) : list Event * LoopEnd :=
  readLoop (S (length (csv.pending reader))) headers reader.

Definition processCsvFile (w : World) (fd : inputFile) : list Event * LoopEnd :=
  match contents w (filepath fd) with
  | None => ([], Fatal (ErrPath "open" (filepath fd)))
  | Some src =>
      match csv.Read (openReader fd src) with
      | (csv.Record headers, reader') => loop headers reader'
      | (csv.EOF, _) => ([], Fatal ErrEOF)
      | (csv.Failed _ e, _) => ([], Fatal (ErrParse e))
      end
  end.

Definition sent (evs : list Event) : list (gmap string string) :=
  omap (λ ev, match ev with Send r => Some r | Print _ => None end) evs.

Definition printed (evs : list Event) : list string :=
  omap (λ ev, match ev with Print l => Some l | Send _ => None end) evs.

(** What [writeJSONFile] writes after the opening bracket, for the records
    it still receives before the channel is closed. *)
Fixpoint body (pretty first : bool) (records : list (gmap string string)) : string :=
  match records with
  | [] => breakLine pretty +:+ "]"
  | r :: records' =>
      (if first then "" else "," +:+ breakLine pretty) +:+
      jsonFunc pretty r +:+ body pretty false records'
  end.

Definition document (pretty : bool) (records : list (gmap string string)) : string :=
  ("[" +:+ breakLine pretty) +:+ body pretty true records.

(** The records the reader still hands over from where it stands; [None]
    when it ends otherwise than by closing the channel. *)
Definition closedWith (r : list Event * LoopEnd) : option (list (gmap string string)) :=
  match r with
  | (evs, Closed) => Some (sent evs)
  | _ => None
  end.

Definition remaining (w : World) (fd : inputFile) (pc : ReaderPC)
    : option (list (gmap string string)) :=
  match pc with
  | RIdle => None
  | ROpen => closedWith (processCsvFile w fd)
  | RHeader reader =>
      match csv.Read reader with
      | (csv.Record headers, reader') => closedWith (loop headers reader')
      | _ => None
      end
  | RNext headers reader => closedWith (loop headers reader)
  | RSend headers reader record => (record ::.) <$> closedWith (loop headers reader)
  | RDone => Some []
  end.

(** The text the writer still appends from where it stands, given the
    records it still receives. *)
Definition pendingText (pretty : bool) (pc : WriterPC)
    (records : list (gmap string string)) : string :=
  match pc with
  | WIdle | WCreate | WOpenArray => document pretty records
  | WRecv first => body pretty first records
  | WSeparator r =>
      ("," +:+ breakLine pretty) +:+ jsonFunc pretty r +:+ body pretty false records
  | WObject r => jsonFunc pretty r +:+ body pretty false records
  | WSignal | WDone => ""
  end.

(** The content of the output file at the end of the run that goes on from
    [s], when that run ends with status 0. *)
Definition finishFrom (w : World) (fd : inputFile) (s : State) : option string :=
  records ← remaining w fd (readerPC s);
  match writerPC s with
  | WIdle => None
  | WCreate =>
      if creatable w (finalLocation (filepath fd))
      then Some (document (pretty fd) records) else None
  | pc => f ← sink s; Some (fdata f +:+ pendingText (pretty fd) pc records)
  end.

Definition finish (w : World) (cl : CmdLine) (s : State) : option string :=
  match status s with
  | Exited code => if bool_decide (code = 0) then fdata <$> sink s else None
  | Running =>
      match mainPC s with
      | MStart =>
          match getFileData cl with
          | inr _ => None
          | inl fd =>
              match checkIfValidFile w (filepath fd) with
              | (_, Some _) => None
              | (_, None) =>
                  finishFrom w fd (setReader ROpen (setWriter WCreate s))
              end
          end
      | MWait => fd ← fileData s; finishFrom w fd s
      | MReturn => fdata <$> sink s
      end
  end.

(** The output of a conversion that succeeds. *)
Definition expected (w : World) (cl : CmdLine) : option string :=
  finish w cl initial.

(** *** The writer's phases and the invariant of the reachable states *)

Inductive Phase := AwaitingFirst | Streaming | ClosedPhase.

Definition phaseOf (pc : WriterPC) : Phase :=
  match pc with
  | WIdle | WCreate | WOpenArray | WRecv true => AwaitingFirst
  | WRecv false | WSeparator _ | WObject _ => Streaming
  | WSignal | WDone => ClosedPhase
  end.

Definition phaseRank (p : Phase) : nat :=
  match p with AwaitingFirst => 0 | Streaming => 1 | ClosedPhase => 2 end.

Definition readerOK (pc : ReaderPC) : Prop :=
  match pc with
  | RHeader reader => csv.FieldsPerRecord reader = 0
  | RNext headers reader | RSend headers reader _ =>
      csv.FieldsPerRecord reader = Z.of_nat (length headers) ∧ headers ≠ []
  | _ => True
  end.

Definition sinkOK (pc : WriterPC) (f : option File) : Prop :=
  match pc with
  | WIdle | WCreate => f = None
  | WSignal | WDone => ∃ x, f = Some x ∧ fclosed x = true
  | _ => ∃ x, f = Some x ∧ fclosed x = false
  end.

Definition notice (line : string) : Prop :=
  line = "Writing JSON file..." ∨ line = "Completed!".

Definition isDone (pc : ReaderPC) : bool :=
  match pc with RDone => true | _ => false end.

Definition mainOK (s : State) : Prop :=
  match mainPC s with
  | MStart => readerPC s = RIdle ∧ writerPC s = WIdle ∧ fileData s = None
  | MWait => is_Some (fileData s)
  | MReturn => readerPC s = RDone ∧ writerPC s = WDone ∧ is_Some (fileData s)
  end.

Definition signalOK (s : State) : Prop :=
  match phaseOf (writerPC s) with
  | ClosedPhase => readerPC s = RDone
  | _ => True
  end.

Definition statusOK (s : State) : Prop :=
  match status s with
  | Exited 0 => mainPC s = MReturn
  | _ => True
  end.

Record Inv (w : World) (cl : CmdLine) (s : State) : Prop := mkInv {
  inv_main : mainOK s;
  inv_closed : chanClosed s = isDone (readerPC s);
  inv_signal : signalOK s;
  inv_sink : sinkOK (writerPC s) (sink s);
  inv_reader : readerOK (readerPC s);
  inv_status : statusOK s;
  inv_stdout : Forall notice (stdout s);
  inv_data : ∀ fd, fileData s = Some fd → getFileData cl = inl fd;
  inv_valid : ∀ fd, fileData s = Some fd →
              (checkIfValidFile w (filepath fd)).2 = None;
  inv_name : ∀ fd f, fileData s = Some fd → sink s = Some f →
             fname f = finalLocation (filepath fd)
}.

(** The map [processLine] builds for a row of the right length. *)
Definition recordOf (headers row : list string) : gmap string string :=
  foldl (λ m kv, <[kv.1 := kv.2]> m) ∅ (zip headers row).

(** A run is complete when the process has exited. *)
Definition exited (s : State) : Prop := ∃ code, status s = Exited code.

(** Two runs of the same command in the same world leave the same output. *)
Definition deterministicOutput (w : World) (cl : CmdLine) : Prop :=
  ∀ sched1 sched2 s1 s2,
    run w cl sched1 initial = Some s1 → run w cl sched2 initial = Some s2 →
    exited s1 → exited s2 → sink s1 = sink s2.

(** A world in which the file at [path] holds [src]. *)
Definition worldWith (path src : string) : World :=
  mkWorld (λ p, if bool_decide (p = path) then StatOk else StatNotExist)
          (λ p, if bool_decide (p = path) then Some src else None)
          (λ _, true).

Definition LF : string := String Byte.LF "".

(** *** The inputs of the examples *)

Definition examplePath : string := "dir/data.csv".

Definition exampleCmd (separator : string) (pretty : bool) : CmdLine :=
  mkCmdLine 2 separator pretty examplePath.

Definition exampleWorld (src : string) : World := worldWith examplePath src.

Definition scenarioA : string := "a,b" +:+ LF +:+ "1,2" +:+ LF +:+ "3,4".
Definition scenarioB : string := "a;b" +:+ LF +:+ "1;2".
Definition scenarioC : string := "a,b" +:+ LF +:+ "1,2" +:+ LF +:+ "3".
Definition scenarioD : string := "a,b" +:+ LF.

(** A third row with a quote inside a field that is not quoted. *)
Definition bareQuote : string :=
  Str.dq ("a,b" +:+ LF +:+ "1,2" +:+ LF +:+ "3'4,5").

(** The columns of scenario A's first row in the other order, and a header
    that names its two columns alike. *)
Definition swapped : string := "b,a" +:+ LF +:+ "2,1".
Definition repeated : string := "a,a" +:+ LF +:+ "1,2".

(** The schedule that lets each goroutine run as far as it can, for a
    source of one and of two data rows. *)
Definition oneRow : list Thread :=
  [TMain; TReader; TReader; TWriter; TWriter;
   TReader; TReader; TWriter;
   TReader; TWriter; TWriter; TMain].

Definition twoRows : list Thread :=
  [TMain; TReader; TReader; TWriter; TWriter;
   TReader; TReader; TWriter;
   TReader; TReader; TWriter; TWriter;
   TReader; TWriter; TWriter; TMain].

(** Two schedules for a source whose third row cannot be read: the writer
    writes the first object before the reader gives up, or it does not. *)
Definition writerFirst : list Thread :=
  [TMain; TReader; TReader; TWriter; TWriter;
   TReader; TReader; TWriter; TReader].

Definition readerFirst : list Thread :=
  [TMain; TReader; TReader; TWriter; TWriter;
   TReader; TReader; TReader].

(** The same run of two rows with the writer started before the reader. *)
Definition twoRowsWriterAhead : list Thread :=
  [TMain; TWriter; TWriter; TReader; TReader;
   TReader; TReader; TWriter;
   TReader; TReader; TWriter; TWriter;
   TReader; TWriter; TWriter; TMain].

(** The run of a source that has a header and nothing else. *)
Definition noRow : list Thread :=
  [TMain; TReader; TReader; TWriter; TWriter; TReader; TWriter; TWriter; TMain].

(** [writeString data close] has moved the output file from its state in [s]
    to its state in [s']: the file was open, and [data] is appended. *)
Definition wrote (data : string) (close : bool) (s s' : State) : Prop :=
  ∃ f, sink s = Some f ∧ fclosed f = false ∧
       sink s' = Some (mkFile (fname f) (fdata f +:+ data) close).

(** The run of scenario A up to the receipt of the first record. *)
Definition firstReceived : list Thread :=
  [TMain; TReader; TReader; TWriter; TWriter; TReader; TReader].

(** *** What a run shows: the two streams, the exit status, the number of
    steps *)

(** The lines [writeJSONFile] has printed when it stands at [pc]. *)
Definition announced (pc : WriterPC) : list string :=
  match pc with
  | WIdle | WCreate => []
  | WSignal | WDone => ["Writing JSON file..."; "Completed!"]
  | _ => ["Writing JSON file..."]
  end.

(** The error of a [WriteString] on the output file. *)
Definition writeError (e : Error) : bool :=
  match e with
  | ErrPath op _ => bool_decide (op = "write")
  | _ => false
  end.

Definition startedOK (s : State) : Prop :=
  match mainPC s with
  | MStart => True
  | MWait => readerPC s ≠ RIdle ∧ writerPC s ≠ WIdle ∧ writerPC s ≠ WDone
  | MReturn => True
  end.

Definition stderrOK (s : State) : Prop :=
  match status s with
  | Running => stderr s = []
  | Exited code =>
      if bool_decide (code = 0) then stderr s = []
      else code = 1 ∧ ∃ e, stderr s = [e] ∧ writeError e = false
  end.

Record Observed (s : State) : Prop := mkObserved {
  obs_started : startedOK s;
  obs_stdout : stdout s = announced (writerPC s);
  obs_stderr : stderrOK s
}.

(** The number of lines of the source file of the command. *)
Definition sourceLines (w : World) (cl : CmdLine) : nat :=
  match getFileData cl with
  | inl fd =>
      match contents w (filepath fd) with
      | Some src => length (csv.cutLines "" src)
      | None => 0%nat
      end
  | inr _ => 0%nat
  end.

(** A bound on the number of steps each of the three still takes. *)
Definition readerFuel (lines : nat) (pc : ReaderPC) : nat :=
  match pc with
  | RIdle | ROpen => (2 * lines + 4)%nat
  | RHeader reader => (2 * length (csv.pending reader) + 3)%nat
  | RNext _ reader => (2 * length (csv.pending reader) + 2)%nat
  | RSend _ reader _ => (2 * length (csv.pending reader) + 3)%nat
  | RDone => 0%nat
  end.

Definition writerFuel (pc : WriterPC) : nat :=
  match pc with
  | WIdle => 6%nat
  | WCreate => 5%nat
  | WOpenArray => 4%nat
  | WRecv _ => 2%nat
  | WSeparator _ => 4%nat
  | WObject _ => 3%nat
  | WSignal => 1%nat
  | WDone => 0%nat
  end.

Definition mainFuel (pc : MainPC) : nat :=
  match pc with MStart => 2%nat | MWait => 1%nat | MReturn => 0%nat end.

Definition stepsLeft (w : World) (cl : CmdLine) (s : State) : nat :=
  match status s with
  | Exited _ => 0%nat
  | Running =>
      (1 + mainFuel (mainPC s) + 3 * readerFuel (sourceLines w cl) (readerPC s) +
       writerFuel (writerPC s))%nat
  end.

(** A world in which every path passes [os.Stat] with an error that is not
    [ErrNotExist], no file can be opened, and every file can be created. *)
Definition lockedWorld : World :=
  mkWorld (λ _, StatOtherError) (λ _, None) (λ _, true).

(** The world of the examples with a source, in which no file can be
    created. *)
Definition readOnlyWorld (src : string) : World :=
  mkWorld (stat (exampleWorld src)) (contents (exampleWorld src)) (λ _, false).

(** *** The text of a table

    A table written as [encoding/csv] reads it: a field that holds the
    separator or a double quote is put between double quotes, with its own
    double quotes doubled; the fields of a row are joined by the separator;
    every row is ended by a line feed, after a carriage return when [crlf]
    is set. *)

Definition plainByte (comma b : ascii) : bool :=
  negb (Byte.eqb b comma) && negb (Byte.eqb b Byte.DQUOTE) &&
  negb (Byte.eqb b Byte.LF) && negb (Byte.eqb b Byte.CR).

Fixpoint plainField (comma : ascii) (field : string) : bool :=
  match field with
  | "" => true
  | String b rest => plainByte comma b && plainField comma rest
  end.

Fixpoint doubleQuotes (field : string) : string :=
  match field with
  | "" => ""
  | String b rest =>
      if Byte.eqb b Byte.DQUOTE
      then String Byte.DQUOTE (String Byte.DQUOTE (doubleQuotes rest))
      else String b (doubleQuotes rest)
  end.

Definition quoteField (field : string) : string :=
  String Byte.DQUOTE (doubleQuotes field +:+ String Byte.DQUOTE "").

Definition csvField (comma : ascii) (field : string) : string :=
  if plainField comma field then field else quoteField field.

(** Strings without line feed, without carriage return. *)
Fixpoint noLF (s : string) : Prop :=
  match s with
  | "" => True
  | String c s' => Byte.eqb c Byte.LF = false ∧ noLF s'
  end.

Fixpoint noCR (s : string) : Prop :=
  match s with
  | "" => True
  | String c s' => Byte.eqb c Byte.CR = false ∧ noCR s'
  end.

(** A row whose fields hold no line break, and that is not written as the
    empty line. *)
Definition tableRow (row : list string) : Prop :=
  row ≠ [] ∧ row ≠ [""] ∧ Forall (λ field, noLF field ∧ noCR field) row.

Definition endOfLine (crlf : bool) : string :=
  if crlf then String Byte.CR (String Byte.LF "") else String Byte.LF "".

Definition csvLine (comma : ascii) (crlf : bool) (row : list string) : string :=
  Str.join (String comma "") (csvField comma <$> row) +:+ endOfLine crlf.

Definition csvText (comma : ascii) (crlf : bool) (rows : list (list string)) : string :=
  Str.cat (csvLine comma crlf <$> rows).

(** The separator byte of the command. *)
Definition commaOf (fd : inputFile) : ascii :=
  if bool_decide (separator fd = "semicolon") then ";"%char else ","%char.

(** *** The bytes and the layout of the JSON text *)

Fixpoint allBytes (p : ascii → bool) (s : string) : bool :=
  match s with
  | "" => true
  | String b rest => p b && allBytes p rest
  end.

(** A byte that is no control character and none of the three characters
    that [encoding/json] keeps out of its output for the sake of HTML. *)
Definition jsonByte (b : ascii) : bool :=
  (32 <=? Byte.code b)%N &&
  negb (Byte.eqb b "<"%char) && negb (Byte.eqb b ">"%char) &&
  negb (Byte.eqb b "&"%char).

(** A member and an object as [MarshalIndent] lays them out, with the
    prefix and the indentation of [getJSONFunc]. *)
Definition prettyMember (p : string * string) : string :=
  json.quote p.1 +:+ ": " +:+ json.quote p.2.

Definition prettyObject (entries : list (string * string)) : string :=
  match entries with
  | [] => "{}"
  | _ =>
      "{" +:+ LF +:+ "      " +:+
      Str.join ("," +:+ LF +:+ "      ") (prettyMember <$> entries) +:+
      LF +:+ "   }"
  end.

(** *** The output file of a conversion that may fail *)

(** The records that the reader sends from where it stands, however its
    loop ends. *)
Definition upcoming (w : World) (fd : inputFile) (pc : ReaderPC)
    : list (gmap string string) :=
  match pc with
  | RIdle | ROpen => sent (processCsvFile w fd).1
  | RHeader reader =>
      match csv.Read reader with
      | (csv.Record headers, reader') => sent (loop headers reader').1
      | _ => []
      end
  | RNext headers reader => sent (loop headers reader).1
  | RSend headers reader record => record :: sent (loop headers reader).1
  | RDone => []
  end.

(** The bytes of the output file, none when it does not exist. *)
Definition content (s : State) : string :=
  match sink s with Some f => fdata f | None => "" end.

(** What the output file holds, with what the writer would append for the
    records to come, is the document of all the records sent. *)
Definition written (w : World) (s : State) : Prop :=
  ∀ fd, fileData s = Some fd →
    content s +:+ pendingText (pretty fd) (writerPC s) (upcoming w fd (readerPC s)) =
    document (pretty fd) (sent (processCsvFile w fd).1).

(** *** The error that ends a run *)

(** The way the loop of the reader ends from where it stands. *)
Definition ending (w : World) (fd : inputFile) (pc : ReaderPC) : LoopEnd :=
  match pc with
  | RIdle | ROpen => (processCsvFile w fd).2
  | RHeader reader =>
      match csv.Read reader with
      | (csv.Record headers, reader') => (loop headers reader').2
      | (csv.EOF, _) => Fatal ErrEOF
      | (csv.Failed _ e, _) => Fatal (ErrParse e)
      end
  | RNext headers reader | RSend headers reader _ => (loop headers reader).2
  | RDone => Closed
  end.

(** Where an error on the standard error stream comes from: the command
    line, the check of the path, [os.Create], or the reader. *)
Definition cause (w : World) (cl : CmdLine) (fileData : option inputFile)
    (e : Error) : Prop :=
  match fileData with
  | None =>
      getFileData cl = inr e ∨
      ∃ fd, getFileData cl = inl fd ∧ (checkIfValidFile w (filepath fd)).2 = Some e
  | Some fd =>
      (creatable w (finalLocation (filepath fd)) = false ∧
       e = ErrPath "open" (finalLocation (filepath fd))) ∨
      (processCsvFile w fd).2 = Fatal e
  end.

Record Reported (w : World) (cl : CmdLine) (s : State) : Prop := mkReported {
  rep_ending : ∀ fd, fileData s = Some fd →
               ending w fd (readerPC s) = (processCsvFile w fd).2;
  rep_cause : ∀ e, stderr s = [e] → cause w cl (fileData s) e
}.

(** *** Paths made of ordinary elements *)

(** A path element that is a name: not empty, without separator, and
    neither [.] nor [..]. *)
Definition plainElem (e : string) : Prop :=
  e ≠ "" ∧ filepath.noSep e ∧ e ≠ "." ∧ e ≠ "..".

(** *** The directory of a path, element by element *)

(** The path made of the elements [es], each followed by a slash, and of
    the last element [name]. *)
Definition pathOf (es : list string) (name : string) : string :=
  Str.cat ((λ e, e +:+ "/") <$> es) +:+ name.

(** A path that starts at the root. *)
Definition isRooted (path : string) : bool :=
  match path with
  | String c _ => filepath.isSep c
  | "" => false
  end.

(** Where a walk along the elements of a path stands: [above] levels above
    the directory it started from, then down along the names [below]. *)
Record Place := mkPlace { above : nat; below : list string }.

(** One element of the walk: the empty element and [.] stay in place, [..]
    leaves the last directory entered, or goes one level above the start
    when there is none (the root has no parent), a name enters a
    directory. *)
Definition walk (rooted : bool) (p : Place) (e : string) : Place :=
  if bool_decide (e = "" ∨ e = ".") then p
  else if bool_decide (e = "..") then
    match below p with
    | [] => if rooted then p else mkPlace (S (above p)) []
    | _ => mkPlace (above p) (removelast (below p))
    end
  else mkPlace (above p) (below p ++ [e]).

Definition place (rooted : bool) (es : list string) : Place :=
  foldl (walk rooted) (mkPlace 0 []) es.

(** The shortest path to a place. *)
Definition placeText (rooted : bool) (p : Place) : string :=
  (if rooted then "/" else "") +:+
  Str.join "/" (replicate (above p) ".." ++ below p).

(** The directory that the elements [es] lead to, [.] when they lead
    nowhere else than the current directory. *)
Definition directory (rooted : bool) (es : list string) : string :=
  let text := placeText rooted (place rooted es) in
  if bool_decide (text = "") then "." else text.

(** The places that the walk reaches from the start. *)
Definition goodPlace (rooted : bool) (p : Place) : Prop :=
  (rooted = true → above p = 0%nat) ∧ Forall plainElem (below p).

(** The mark [dotdot] of [Clean] is the length of the text of the levels
    above the start. *)
Definition mark (rooted : bool) (p : Place) : nat :=
  String.length (placeText rooted (mkPlace (above p) [])).

(** The elements of the shortest path to a place. *)
Definition placeElems (rooted : bool) (p : Place) : list string :=
  (if rooted then [""] else []) ++
  match replicate (above p) ".." ++ below p with
  | [] => [if rooted then "" else "."]
  | l => l
  end.

(** *** The output read back as JSON

    A reader for the JSON texts (RFC 8259) that are arrays of objects whose
    members are strings: white space is allowed around the six structural
    characters, a string is read up to its closing quote with its escapes
    replaced by what they stand for.  It is written from the grammar, not
    from the program, and accepts no other text. *)

Module JSON.

Definition whiteSpace (c : ascii) : bool :=
  Byte.eqb c Byte.SPACE || Byte.eqb c Byte.TAB ||
  Byte.eqb c Byte.LF || Byte.eqb c Byte.CR.

Fixpoint skipSpace (s : string) : string :=
  match s with
  | "" => ""
  | String c rest => if whiteSpace c then skipSpace rest else s
  end.

(** The value of a hexadecimal digit, in either case. *)
Definition hexValue (c : ascii) : option N :=
  let n := Byte.code c in
  if (48 <=? n)%N && (n <=? 57)%N then Some (n - 48)%N
  else if (97 <=? n)%N && (n <=? 102)%N then Some (n - 87)%N
  else if (65 <=? n)%N && (n <=? 70)%N then Some (n - 55)%N
  else None.

(** The UTF-8 encoding of a code point of the basic plane. *)
Definition utf8 (c : N) : string :=
  if (c <? 0x80)%N then String (ascii_of_N c) ""
  else if (c <? 0x800)%N then
    String (ascii_of_N (0xC0 + c / 64))
      (String (ascii_of_N (0x80 + c mod 64)) "")
  else
    String (ascii_of_N (0xE0 + c / 4096))
      (String (ascii_of_N (0x80 + (c / 64) mod 64))
         (String (ascii_of_N (0x80 + c mod 64)) "")).

(** The character that stands after the backslash of a two-character
    escape. *)
Definition unescape (e : ascii) : option ascii :=
  if Byte.eqb e Byte.DQUOTE then Some Byte.DQUOTE
  else if Byte.eqb e Byte.BACKSLASH then Some Byte.BACKSLASH
  else if Byte.eqb e "/"%char then Some "/"%char
  else if Byte.eqb e "b"%char then Some "008"%char
  else if Byte.eqb e "f"%char then Some "012"%char
  else if Byte.eqb e "n"%char then Some Byte.LF
  else if Byte.eqb e "r"%char then Some Byte.CR
  else if Byte.eqb e "t"%char then Some Byte.TAB
  else None.

Definition prepend (t : string) (r : option (string * string))
    : option (string * string) :=
  match r with
  | Some (v, rest) => Some (t +:+ v, rest)
  | None => None
  end.

(** The characters of a string after its opening quote: the value of the
    string and the text after its closing quote.  Control characters are
    refused, and so is the escape of a surrogate (the reader knows no
    surrogate pairs). *)
Fixpoint readChars (s : string) : option (string * string) :=
  match s with
  | "" => None
  | String c rest =>
      if Byte.eqb c Byte.DQUOTE then Some ("", rest)
      else if Byte.eqb c Byte.BACKSLASH then
        match rest with
        | "" => None
        | String e rest1 =>
            if Byte.eqb e "u"%char then
              match rest1 with
              | String h1 (String h2 (String h3 (String h4 rest2))) =>
                  match hexValue h1, hexValue h2, hexValue h3, hexValue h4 with
                  | Some d1, Some d2, Some d3, Some d4 =>
                      let cp := (((d1 * 16 + d2) * 16 + d3) * 16 + d4)%N in
                      if (0xD800 <=? cp)%N && (cp <=? 0xDFFF)%N then None
                      else prepend (utf8 cp) (readChars rest2)
                  | _, _, _, _ => None
                  end
              | _ => None
              end
            else
              match unescape e with
              | Some b => prepend (String b "") (readChars rest1)
              | None => None
              end
        end
      else if (Byte.code c <? 32)%N then None
      else prepend (String c "") (readChars rest)
  end.

Definition readString (s : string) : option (string * string) :=
  match skipSpace s with
  | String c rest => if Byte.eqb c Byte.DQUOTE then readChars rest else None
  | "" => None
  end.

(** A structural character, after white space. *)
Definition expect (c : ascii) (s : string) : option string :=
  match skipSpace s with
  | String c' rest => if Byte.eqb c' c then Some rest else None
  | "" => None
  end.

Definition readMember (s : string) : option ((string * string) * string) :=
  match readString s with
  | Some (k, s1) =>
      match expect ":"%char s1 with
      | Some s2 =>
          match readString s2 with
          | Some (v, s3) => Some ((k, v), s3)
          | None => None
          end
      | None => None
      end
  | None => None
  end.

(** The members of an object that has some, up to its closing brace. *)
Fixpoint readMembers (fuel : nat) (s : string)
    : option (list (string * string) * string) :=
  match fuel with
  | O => None
  | S fuel' =>
      match readMember s with
      | Some (m, s1) =>
          match expect "}"%char s1, expect ","%char s1 with
          | Some rest, _ => Some ([m], rest)
          | None, Some s2 =>
              match readMembers fuel' s2 with
              | Some (ms, rest) => Some (m :: ms, rest)
              | None => None
              end
          | None, None => None
          end
      | None => None
      end
  end.

Definition readObject (s : string) : option (list (string * string) * string) :=
  match expect "{"%char s with
  | Some s1 =>
      match expect "}"%char s1 with
      | Some rest => Some ([], rest)
      | None => readMembers (String.length s1) s1
      end
  | None => None
  end.

(** The objects of an array that has some, up to its closing bracket. *)
Fixpoint readObjects (fuel : nat) (s : string)
    : option (list (list (string * string)) * string) :=
  match fuel with
  | O => None
  | S fuel' =>
      match readObject s with
      | Some (o, s1) =>
          match expect "]"%char s1, expect ","%char s1 with
          | Some rest, _ => Some ([o], rest)
          | None, Some s2 =>
              match readObjects fuel' s2 with
              | Some (os, rest) => Some (o :: os, rest)
              | None => None
              end
          | None, None => None
          end
      | None => None
      end
  end.

(** A whole text: one array, and nothing but white space after it. *)
Definition readDocument (text : string) : option (list (list (string * string))) :=
  match expect "["%char text with
  | Some s1 =>
      match
        match expect "]"%char s1 with
        | Some rest => Some ([], rest)
        | None => readObjects (String.length s1) s1
        end
      with
      | Some (objects, rest) =>
          match skipSpace rest with
          | "" => Some objects
          | _ => None
          end
      | None => None
      end
  | None => None
  end.

End JSON.

(** A string coerced to valid UTF-8, as [encoding/json] documents it: the
    well-formed encodings are kept, every other byte is replaced by the
    encoding of the replacement character U+FFFD. *)
Fixpoint coerce (s : string) : string :=
  match s with
  | "" => ""
  | String b0 r0 =>
      if (Byte.code b0 <? 128)%N then String b0 (coerce r0)
      else
        match (json.decodeRune s).2, r0 with
        | 2%nat, String b1 r1 => String b0 (String b1 (coerce r1))
        | 3%nat, String b1 (String b2 r2) =>
            String b0 (String b1 (String b2 (coerce r2)))
        | 4%nat, String b1 (String b2 (String b3 r3)) =>
            String b0 (String b1 (String b2 (String b3 (coerce r3))))
        | _, _ => JSON.utf8 0xFFFD +:+ coerce r0
        end
  end.

(** The members that are read back for a record: its entries in the order
    of the keys. *)
Definition membersOf (record : gmap string string) : list (string * string) :=
  (λ p, (coerce p.1, coerce p.2)) <$> json.sortedEntries record.

(** * Properties *)

(** ** Strings *)

Lemma sapp_nil_l (s : string) : "" +:+ s = s.
Proof. reflexivity. Qed.

Lemma sapp_cons (c : ascii) (s t : string) : String c s +:+ t = String c (s +:+ t).
Proof. reflexivity. Qed.

Lemma sapp_nil_r (s : string) : s +:+ "" = s.
Proof. induction s as [|c s IH]; [done|]. by rewrite sapp_cons, IH. Qed.

Lemma sapp_assoc (s t u : string) : (s +:+ t) +:+ u = s +:+ (t +:+ u).
Proof. induction s as [|c s IH]; [done|]. by rewrite !sapp_cons, IH. Qed.

Lemma sapp_length (s t : string) :
  String.length (s +:+ t) = (String.length s + String.length t)%nat.
Proof. induction s as [|c s IH]; [done|]. rewrite sapp_cons. simpl. by rewrite IH. Qed.

Lemma byte_eqb_true (a b : ascii) : Byte.eqb a b = true ↔ a = b.
Proof. unfold Byte.eqb. by rewrite bool_decide_eq_true. Qed.

Lemma byte_eqb_false (a b : ascii) : Byte.eqb a b = false ↔ a ≠ b.
Proof. unfold Byte.eqb. by rewrite bool_decide_eq_false. Qed.

Lemma byte_eqb_refl (a : ascii) : Byte.eqb a a = true.
Proof. by apply byte_eqb_true. Qed.

(** ** The csv reader *)

Section Reader.
Import csv.

Lemma rev_cons_ne {A} (x : A) (l : list A) : rev (x :: l) ≠ [].
Proof. simpl. by destruct (rev l). Qed.

Lemma scan_Done_nonempty comma m field fields line d :
    scan comma m field fields line = Done d → d ≠ [].
Proof.
    revert m field fields.
    induction line as [|c rest IH]; intros m field fields.
    - destruct m; intros [= <-]; apply rev_cons_ne.
    - pose proof (rev_cons_ne (String.rev field) fields) as Hne.
      cbn [scan].
      destruct m; repeat case_match; try (intros [= <-]; done); try done; eauto.
Qed.

Lemma continueQuoted_length comma field fields lines res lines' :
    continueQuoted comma field fields lines = (res, lines') →
    res ≠ EOF ∧ (length lines' ≤ length lines)%nat ∧
    (∀ d, res = Record d → d ≠ []).
Proof.
    revert field fields.
    induction lines as [|l lines IH]; intros field fields; simpl.
    - intros [= <- <-]. split_and!; [done|done|]. by intros d [=].
    - destruct (scan comma Quoted field fields (normLine l)) eqn:Hs.
      + intros [= <- <-]. split_and!; [done|lia|].
        intros d [= <-]. by eapply scan_Done_nonempty.
      + intros [= <- <-]. split_and!; [done|lia|]. by intros d [=].
      + intros Hc. apply IH in Hc as (? & ? & ?). split_and!; [done|lia|done].
Qed.

Lemma parseRecord_length comma lines res lines' :
    parseRecord comma lines = (res, lines') →
    (length lines' ≤ length lines)%nat ∧
    (res ≠ EOF → (length lines' < length lines)%nat) ∧
    (∀ d, res = Record d → d ≠ []).
Proof.
    induction lines as [|l lines IH]; simpl.
    - intros [= <- <-]. split_and!; [done|done|]. by intros d [=].
    - case_bool_decide.
      + intros Hc. apply IH in Hc as (? & Hlt & ?). split_and!; [lia| |done].
        intros Hne. specialize (Hlt Hne). lia.
      + destruct (scan comma FieldStart "" [] (normLine l)) eqn:Hs.
        * intros [= <- <-]. split_and!; [lia|lia|].
          intros d [= <-]. by eapply scan_Done_nonempty.
        * intros [= <- <-]. split_and!; [lia|lia|]. by intros d [=].
        * intros Hc. apply continueQuoted_length in Hc as (? & ? & ?).
          split_and!; [lia|lia|done].
Qed.

  (** What one [Read] does to the reader. *)
Lemma Read_spec r res r' :
    Read r = (res, r') →
    Comma r' = Comma r ∧
    (length (pending r') ≤ length (pending r))%nat ∧
    (res ≠ EOF → (length (pending r') < length (pending r))%nat) ∧
    (∀ d, res = Record d → d ≠ []) ∧
    (0 < FieldsPerRecord r →
       FieldsPerRecord r' = FieldsPerRecord r ∧
       ∀ d, res = Record d → Z.of_nat (length d) = FieldsPerRecord r) ∧
    (FieldsPerRecord r = 0 →
       ∀ d, res = Record d → FieldsPerRecord r' = Z.of_nat (length d)).
Proof.
    unfold Read. destruct (parseRecord (Comma r) (pending r)) as [res0 lines'] eqn:Hp.
    apply parseRecord_length in Hp as (Hle & Hlt & Hne).
    destruct res0 as [d| |d e]; repeat case_bool_decide;
      intros [= <- <-]; simpl; split_and!;
      try solve [ done | lia
                | intros; simplify_eq/=; repeat split; intros; simplify_eq/=;
                  solve [ eauto | lia | apply Hlt; done ] ].
Qed.

End Reader.

(** ** The reading loop *)

Lemma readLoop_fuel n m headers r :
  (length (csv.pending r) < n)%nat → (length (csv.pending r) < m)%nat →
  readLoop n headers r = readLoop m headers r.
Proof.
  revert m r. induction n as [|n IH]; intros m r Hn Hm; [lia|].
  destruct m as [|m]; [lia|]. simpl.
  destruct (csv.Read r) as [res r'] eqn:HR.
  destruct (Read_spec _ _ _ HR) as (_ & _ & Hlt & _).
  destruct res as [line| |line e]; try done.
  assert (length (csv.pending r') < length (csv.pending r))%nat by (by apply Hlt).
  destruct (processLine headers line); try done; by rewrite (IH m r') by lia.
Qed.

Lemma loop_unfold headers r :
  loop headers r =
    match csv.Read r with
    | (csv.EOF, _) => ([], Closed)
    | (csv.Failed _ e, _) => ([], Fatal (ErrParse e))
    | (csv.Record line, r') =>
        match processLine headers line with
        | Rejected err =>
            let '(evs, e) := loop headers r' in
            (Print (rejection line (errorText err)) :: evs, e)
        | Mapped record =>
            let '(evs, e) := loop headers r' in (Send record :: evs, e)
        | Panic => ([], Panicked)
        end
    end.
Proof.
  unfold loop at 1. cbn [readLoop].
  destruct (csv.Read r) as [res r'] eqn:HR.
  destruct (Read_spec _ _ _ HR) as (_ & _ & Hlt & _).
  destruct res as [line| |line e]; try done.
  assert (length (csv.pending r') < length (csv.pending r))%nat by (by apply Hlt).
  unfold loop.
  destruct (processLine headers line); try done;
    by rewrite (readLoop_fuel _ (S (length (csv.pending r'))) headers r') by lia.
Qed.

Lemma remaining_unfold headers r :
  closedWith (loop headers r) =
    match csv.Read r with
    | (csv.EOF, _) => Some []
    | (csv.Failed _ _, _) => None
    | (csv.Record line, r') =>
        match processLine headers line with
        | Rejected _ => closedWith (loop headers r')
        | Mapped record => (record ::.) <$> closedWith (loop headers r')
        | Panic => None
        end
    end.
Proof.
  rewrite loop_unfold. destruct (csv.Read r) as [[line| |line e] r']; try done.
  destruct (processLine headers line); try done;
    by destruct (loop headers r') as [evs []].
Qed.

(** The loop never runs out of fuel. *)
Lemma readLoop_terminates n headers r :
  (length (csv.pending r) < n)%nat → (readLoop n headers r).2 ≠ OutOfFuel.
Proof.
  revert r. induction n as [|n IH]; intros r Hn; [lia|]. simpl.
  destruct (csv.Read r) as [res r'] eqn:HR.
  destruct (Read_spec _ _ _ HR) as (_ & _ & Hlt & _).
  destruct res as [line| |line e]; try done.
  assert (length (csv.pending r') < length (csv.pending r))%nat by (by apply Hlt).
  destruct (processLine headers line); try done;
    specialize (IH r' ltac:(lia)); by destruct (readLoop n headers r').
Qed.

(** ** [processLine] *)

Lemma fillRecord_drop i headers dataList m :
  length (drop i dataList) = length headers →
  fillRecord i headers dataList m =
    Some (foldl (λ m kv, <[kv.1 := kv.2]> m) m (zip headers (drop i dataList))).
Proof.
  revert i m. induction headers as [|name headers IH]; intros i m Hlen; simpl.
  - by destruct (drop i dataList).
  - destruct (drop i dataList) as [|v rest] eqn:Hd; [done|].
    assert (dataList !! i = Some v) as ->.
    { pose proof (lookup_drop dataList i 0) as Hl.
      rewrite Hd, Nat.add_0_r in Hl. by rewrite <-Hl. }
    assert (drop (S i) dataList = rest) as Hr.
    { replace (S i) with (i + 1)%nat by lia. by rewrite <-drop_drop, Hd. }
    simpl in Hlen. rewrite IH by (rewrite Hr; lia). by rewrite Hr.
Qed.

Lemma processLine_Mapped headers row :
  length row = length headers → processLine headers row = Mapped (recordOf headers row).
Proof.
  intros Hlen. unfold processLine. rewrite bool_decide_false by (intros ?; done).
  by rewrite fillRecord_drop.
Qed.

Lemma processLine_Rejected headers row :
  length row ≠ length headers →
  processLine headers row = Rejected (ErrText "Line doesn't match headers format. Skipping").
Proof. intros Hlen. unfold processLine. by rewrite bool_decide_true. Qed.

(** ** The invariant of the reachable states *)

Lemma Inv_initial w cl : Inv w cl initial.
Proof. by constructor. Qed.

Lemma writeString_Some data close s s' :
  writeString data close s = Some s' →
  ∃ f, sink s = Some f ∧
    s' = if fclosed f then exitGracefully (ErrPath "write" (fname f)) s
         else setSink (mkFile (fname f) (fdata f +:+ data) close) s.
Proof.
  unfold writeString. destruct (sink s) as [f|]; [|done].
  intros Hw. exists f. by destruct (fclosed f); simplify_eq.
Qed.

Lemma notice_snoc out line : Forall notice out → notice line → Forall notice (out ++ [line]).
Proof. intros. apply Forall_app. split; [done|]. by constructor. Qed.

Lemma openReader_fpr fd src : csv.FieldsPerRecord (openReader fd src) = 0.
Proof. unfold openReader. by case_bool_decide. Qed.

Ltac inv_unfold :=
  unfold mainOK, signalOK, statusOK, sinkOK, readerOK in *; simpl in *.

Ltac inv_close :=
  constructor; inv_unfold; intros; destruct_and?; simplify_eq/=;
  first [ done | by eauto | by split_and!; eauto | by apply openReader_fpr | idtac ].

Lemma step_Inv w cl t s s' : Inv w cl s → step w cl t s = Some s' → Inv w cl s'.
Proof.
  intros [Hmain Hcl Hsig Hsink Hrd Hst Hout Hdat Hval Hnm].
  destruct s as [st fdat mpc rpc wpc cc sk out err]; simpl in *.
  unfold step; simpl. destruct st; [|done].
  destruct t.
  - unfold stepMain; simpl. destruct mpc; [| done |]; inv_unfold; destruct_and?; subst.
    + destruct (getFileData cl) as [fd|e] eqn:Hg.
      * destruct (checkIfValidFile w (filepath fd)) as [b [e|]] eqn:Hv;
        intros [= <-]; inv_close. by rewrite Hv.
      * intros [= <-]; inv_close.
    + intros [= <-]; inv_close.
  - destruct fdat as [fd|]; [|done]. unfold stepReader; simpl.
    destruct rpc as [ | |rd|h rd|h rd r| ]; try done.
    + destruct (contents w (filepath fd)); intros [= <-];
        destruct mpc, wpc as [ | | |[]| | | | ]; inv_close.
    + destruct (csv.Read rd) as [res rd'] eqn:HR.
      destruct (Read_spec _ _ _ HR) as (_ & _ & _ & Hne & _ & Hz).
      destruct res; intros [= <-]; destruct mpc, wpc as [ | | |[]| | | | ]; inv_close.
    + destruct (csv.Read rd) as [res rd'] eqn:HR.
      destruct (Read_spec _ _ _ HR) as (_ & _ & _ & _ & Hp & _).
      assert (0 < csv.FieldsPerRecord rd) as Hpos
        by (destruct Hrd as [-> ?]; destruct h; simpl in *; [done|lia]).
      destruct (Hp Hpos) as [Hfpr Hlen].
      destruct res as [line| |line e];
        [rewrite processLine_Mapped
           by (destruct Hrd as [Hk _]; specialize (Hlen line eq_refl); lia)| |];
        intros [= <-]; destruct mpc, wpc as [ | | |[]| | | | ]; inv_close.
      all: try (split; congruence).
    + destruct wpc as [ | | |[]| | | | ]; try done; intros [= <-]; destruct mpc; inv_close.
  - destruct fdat as [fd|]; [|done]. unfold stepWriter; simpl.
    destruct wpc as [ | | |first|r|r| | ]; try done.
    + destruct (creatable w _); intros [= <-]; destruct mpc, rpc; inv_close.
      all: try (apply notice_snoc; [done|by left]).
    + intros (s1 & (f & Hf & ->)%writeString_Some & ->)%fmap_Some; simpl in *.
      destruct (fclosed _) eqn:?; destruct mpc, rpc; inv_close.
    + destruct cc; [|done].
      intros (s1 & (f & Hf & ->)%writeString_Some & ->)%fmap_Some; simpl in *.
      destruct (fclosed _) eqn:?; destruct mpc, rpc, first; inv_close.
      all: try (apply notice_snoc; [done|by right]).
    + intros (s1 & (f & Hf & ->)%writeString_Some & ->)%fmap_Some; simpl in *.
      destruct (fclosed _) eqn:?; destruct mpc, rpc; inv_close.
    + intros (s1 & (f & Hf & ->)%writeString_Some & ->)%fmap_Some; simpl in *.
      destruct (fclosed _) eqn:?; destruct mpc, rpc; inv_close.
    + destruct mpc; try done. intros [= <-]. destruct rpc; inv_close.
Qed.

(** ** Every schedule leads to the same output *)

Lemma step_finish w cl t s s' :
  Inv w cl s → step w cl t s = Some s' → finish w cl s' = finish w cl s.
Proof.
  intros [Hmain Hcl Hsig Hsink Hrd Hst Hout Hdat Hval Hnm].
  destruct s as [st fdat mpc rpc wpc cc sk out err]; simpl in *.
  unfold step; simpl. destruct st; [|done].
  destruct t.
  - unfold stepMain; simpl. destruct mpc; [| done |]; inv_unfold; destruct_and?; subst.
    + unfold finish; simpl. destruct (getFileData cl) as [fd|e] eqn:Hg.
      * destruct (checkIfValidFile w (filepath fd)) as [b [e|]];
        intros [= <-]; simpl; done.
      * intros [= <-]; done.
    + intros [= <-]; done.
  - destruct fdat as [fd|]; [|done]. unfold stepReader; simpl.
    destruct mpc; inv_unfold; destruct_and?; subst; try done.
    destruct rpc as [ | |rd|h rd|h rd r| ]; try done.
    + destruct (contents w (filepath fd)) as [src|] eqn:Hc;
        intros [= <-]; unfold finish, finishFrom; simpl;
        unfold processCsvFile; rewrite Hc; [|done].
      by destruct (csv.Read (openReader fd src)) as [[line| |line e] rd'].
    + destruct (csv.Read rd) as [[line| |line e] rd'] eqn:HR; intros [= <-];
        unfold finish, finishFrom; simpl; by rewrite HR.
    + destruct (csv.Read rd) as [[line| |line e] rd'] eqn:HR;
        [destruct (processLine h line) eqn:HP|..]; intros [= <-];
        unfold finish, finishFrom; simpl; rewrite (remaining_unfold h rd), HR, ?HP;
        try done.
    + destruct wpc as [ | | |[]| | | | ]; try done; intros [= <-];
        unfold finish, finishFrom; simpl.
      all: destruct (closedWith (loop h rd)); simpl; try done.
      all: destruct sk; simpl; try done.
  - destruct fdat as [fd|]; [|done]. unfold stepWriter; simpl.
    destruct mpc; inv_unfold; destruct_and?; subst; try done.
    destruct wpc as [ | | |first|r|r| | ]; try done.
    + destruct (creatable w _) eqn:Hc; intros [= <-];
        unfold finish, finishFrom; simpl; rewrite Hc; [done|].
      by destruct (remaining w fd rpc).
    + intros (s1 & (f & Hf & ->)%writeString_Some & ->)%fmap_Some; simpl in *.
      destruct Hsink as (f' & -> & Hopen). simplify_eq. rewrite Hopen.
      unfold finish, finishFrom; simpl.
      destruct (remaining w fd rpc); simpl; [|done].
      unfold document. by rewrite !sapp_assoc.
    + destruct rpc; try done.
      intros (s1 & (f & Hf & ->)%writeString_Some & ->)%fmap_Some; simpl in *.
      assert (fclosed f = false) as Hopen by (destruct first, Hsink as (f' & ? & ?); by simplify_eq).
      rewrite Hopen. unfold finish, finishFrom; simpl. rewrite Hf. simpl.
      by rewrite sapp_nil_r.
    + intros (s1 & (f & Hf & ->)%writeString_Some & ->)%fmap_Some; simpl in *.
      destruct Hsink as (f' & -> & Hopen). simplify_eq. rewrite Hopen.
      unfold finish, finishFrom; simpl.
      destruct (remaining w fd rpc); simpl; [|done].
      by rewrite !sapp_assoc.
    + intros (s1 & (f & Hf & ->)%writeString_Some & ->)%fmap_Some; simpl in *.
      destruct Hsink as (f' & -> & Hopen). simplify_eq. rewrite Hopen.
      unfold finish, finishFrom; simpl.
      destruct (remaining w fd rpc); simpl; [|done].
      by rewrite !sapp_assoc.
    + intros [= <-]. destruct Hsink as (f' & -> & Hopen). subst.
      simpl in Hsig. subst rpc.
      unfold finish, finishFrom; simpl. by rewrite sapp_nil_r.
Qed.

Lemma run_app w cl sched1 sched2 s :
  run w cl (sched1 ++ sched2) s = run w cl sched1 s ≫= run w cl sched2.
Proof.
  revert s. induction sched1 as [|t sched1 IH]; intros s; simpl; [done|].
  destruct (step w cl t s); simpl; [apply IH|done].
Qed.

(** Every state a schedule reaches satisfies the invariant and has the
    same [finish] as the state it started from. *)
Lemma run_Inv w cl sched s s' :
  Inv w cl s → run w cl sched s = Some s' →
  Inv w cl s' ∧ finish w cl s' = finish w cl s.
Proof.
  revert s. induction sched as [|t sched IH]; intros s HI; simpl.
  - by intros [= <-].
  - destruct (step w cl t s) as [s1|] eqn:Hs; [|done]. intros Hr.
    destruct (IH s1 (step_Inv _ _ _ _ _ HI Hs) Hr) as [HI' Hf].
    split; [done|]. rewrite Hf. by eapply step_finish.
Qed.

Lemma reachable_Inv w cl sched s :
  run w cl sched initial = Some s → Inv w cl s ∧ finish w cl s = expected w cl.
Proof. apply run_Inv, Inv_initial. Qed.

(** A run that ends with status 0 has written the expected text to the
    output file and closed it. *)
Lemma success_output w cl sched s :
  run w cl sched initial = Some s → status s = Exited 0 →
  ∃ fd f, getFileData cl = inl fd ∧ sink s = Some f ∧
    fname f = finalLocation (filepath fd) ∧ fclosed f = true ∧
    expected w cl = Some (fdata f).
Proof.
  intros Hr Hs.
  destruct (reachable_Inv _ _ _ _ Hr)
    as [[Hmain Hcl Hsig Hsink Hrd Hst Hout Hdat Hval Hnm] Hf].
  unfold statusOK in Hst. rewrite Hs in Hst.
  unfold mainOK in Hmain. rewrite Hst in Hmain.
  destruct Hmain as (Hrp & Hwp & fd & Hfd).
  rewrite Hwp in Hsink. destruct Hsink as (f & Hsk & Hclosed).
  unfold finish in Hf. rewrite Hs, Hsk in Hf. simpl in Hf.
  exists fd, f. split_and!; eauto.
Qed.

(** A run that ends with another status means that no run succeeds. *)
Lemma failure_output w cl sched s code :
  run w cl sched initial = Some s → status s = Exited code → code ≠ 0 →
  expected w cl = None.
Proof.
  intros Hr Hs Hc. destruct (reachable_Inv _ _ _ _ Hr) as [_ Hf].
  unfold finish in Hf. rewrite Hs in Hf. by rewrite bool_decide_false in Hf.
Qed.

(** What [expected] is, in terms of the two goroutines as functions. *)
Lemma expected_Some w cl out :
  expected w cl = Some out ↔
  ∃ fd evs, getFileData cl = inl fd ∧
    (checkIfValidFile w (filepath fd)).2 = None ∧
    creatable w (finalLocation (filepath fd)) = true ∧
    processCsvFile w fd = (evs, Closed) ∧
    out = document (pretty fd) (sent evs).
Proof.
  unfold expected, finish, finishFrom; simpl. split.
  - destruct (getFileData cl) as [fd|]; [|done].
    destruct (checkIfValidFile w (filepath fd)) as [b [e|]] eqn:Hv; [done|].
    destruct (processCsvFile w fd) as [evs []] eqn:Hp; simpl; try done.
    destruct (creatable w _) eqn:Hc; [|done]. intros [= <-].
    exists fd, evs. by rewrite Hv.
  - intros (fd & evs & -> & Hv & Hc & Hp & ->).
    destruct (checkIfValidFile w (filepath fd)) as [b [e|]]; [done|].
    rewrite Hp. simpl. by rewrite Hc.
Qed.

(** ** Every program run can be completed *)

Lemma run_cons w cl t sched s s1 :
  step w cl t s = Some s1 → run w cl (t :: sched) s = run w cl sched s1.
Proof. intros Hs. simpl. by rewrite Hs. Qed.

(** One scheduled step, computed from the equations at hand. *)
Ltac one_step :=
  erewrite run_cons;
  [| unfold step, stepMain, stepReader, stepWriter, writeString; simpl;
     repeat match goal with
            | H : _ = _ |- _ => progress (rewrite H; simpl)
            end; reflexivity].

Lemma loop_completes w cl fd n : ∀ headers rd first f out err,
  (length (csv.pending rd) < n)%nat → fclosed f = false →
  ∃ sched s',
    run w cl sched
      (mkState Running (Some fd) MWait (RNext headers rd) (WRecv first) false
         (Some f) out err) = Some s' ∧ exited s'.
Proof.
  induction n as [|n IH]; intros headers rd first f out err Hn Hf; [lia|].
  destruct (csv.Read rd) as [res rd'] eqn:HR.
  destruct (Read_spec _ _ _ HR) as (_ & _ & Hlt & _).
  destruct res as [line| |line e].
  - assert (length (csv.pending rd') < n)%nat as Hn'
      by (specialize (Hlt ltac:(done)); lia).
    clear Hlt Hn.
    destruct (processLine headers line) as [record|e|] eqn:HP.
    + destruct first.
      * destruct (IH headers rd' false
                    (mkFile (fname f) (fdata f +:+ jsonFunc (pretty fd) record) false)
                    out err Hn' eq_refl) as (sched & s' & Hrun & Hex).
        exists (TReader :: TReader :: TWriter :: sched), s'. split; [|done].
        clear IH. do 3 one_step. exact Hrun.
      * destruct (IH headers rd' false
                    (mkFile (fname f)
                       ((fdata f +:+ "," +:+ breakLine (pretty fd)) +:+
                        jsonFunc (pretty fd) record) false)
                    out err Hn' eq_refl) as (sched & s' & Hrun & Hex).
        exists (TReader :: TReader :: TWriter :: TWriter :: sched), s'. split; [|done].
        clear IH. do 4 one_step. exact Hrun.
    + destruct (IH headers rd' first f
                  (out ++ [rejection line (errorText e)]) err Hn' Hf)
        as (sched & s' & Hrun & Hex).
      exists (TReader :: sched), s'. split; [|done].
      clear IH. one_step. exact Hrun.
    + clear IH. eexists [TReader], _. split; [one_step; reflexivity|by eexists].
  - clear IH. eexists [TReader; TWriter; TWriter; TMain], _.
    split; [do 4 one_step; reflexivity|by eexists].
  - clear IH. eexists [TReader], _. split; [one_step; reflexivity|by eexists].
Qed.

Lemma run_completes w cl : ∃ sched s, run w cl sched initial = Some s ∧ exited s.
Proof.
  unfold initial.
  destruct (getFileData cl) as [fd|e] eqn:Hg.
  2:{ eexists [TMain], _. split; [one_step; reflexivity|by eexists]. }
  destruct (checkIfValidFile w (filepath fd)) as [b [e|]] eqn:Hv.
  { eexists [TMain], _. split; [one_step; reflexivity|by eexists]. }
  destruct (creatable w (finalLocation (filepath fd))) eqn:Hc.
  2:{ eexists [TMain; TWriter], _. split; [do 2 one_step; reflexivity|by eexists]. }
  destruct (contents w (filepath fd)) as [src|] eqn:Ho.
  2:{ eexists [TMain; TReader], _. split; [do 2 one_step; reflexivity|by eexists]. }
  destruct (csv.Read (openReader fd src)) as [res rd] eqn:HR.
  destruct res as [headers| |line e].
  - destruct (loop_completes w cl fd (S (length (csv.pending rd))) headers rd true
                (mkFile (finalLocation (filepath fd))
                   ("" +:+ "[" +:+ breakLine (pretty fd)) false)
                ([] ++ ["Writing JSON file..."]) [] ltac:(lia) eq_refl)
      as (sched & s' & Hrun & Hex).
    exists (TMain :: TReader :: TReader :: TWriter :: TWriter :: sched), s'.
    split; [|done]. do 5 one_step. exact Hrun.
  - eexists [TMain; TReader; TReader], _.
    split; [do 3 one_step; reflexivity|by eexists].
  - eexists [TMain; TReader; TReader], _.
    split; [do 3 one_step; reflexivity|by eexists].
Qed.

(** ** Valid inputs *)

Lemma Read_unchecked c lines :
  csv.Read (csv.mkReader c (-1) lines) =
    let '(res, lines') := csv.parseRecord c lines in
    (res, csv.mkReader c (-1) lines').
Proof.
  unfold csv.Read; simpl. destruct (csv.parseRecord c lines) as [[d| |d e] lines']; done.
Qed.

Lemma Read_first c lines :
  csv.Read (csv.mkReader c 0 lines) =
    let '(res, lines') := csv.parseRecord c lines in
    (res, csv.mkReader c (match res with
                          | csv.EOF => 0
                          | _ => Z.of_nat (length (csv.recordOf res))
                          end) lines').
Proof.
  unfold csv.Read; simpl. destruct (csv.parseRecord c lines) as [[d| |d e] lines']; done.
Qed.

Lemma Read_checked c k lines :
  0 < k →
  csv.Read (csv.mkReader c k lines) =
    let '(res, lines') := csv.parseRecord c lines in
    (match res with
     | csv.Record d =>
         if bool_decide (Z.of_nat (length d) ≠ k)
         then csv.Failed d csv.ErrFieldCount else csv.Record d
     | _ => res
     end, csv.mkReader c k lines').
Proof.
  intros Hk. unfold csv.Read; simpl.
  destruct (csv.parseRecord c lines) as [[d| |d e] lines']; try done;
    by rewrite bool_decide_true.
Qed.

(** When every row has as many fields as the header, the loop sends one
    record per row and closes the channel. *)
Lemma readLoop_valid n c lines headers rows :
  csv.readAllFrom n (csv.mkReader c (-1) lines) = Some (inl rows) →
  Forall (λ row, length row = length headers) rows → headers ≠ [] →
  readLoop n headers (csv.mkReader c (Z.of_nat (length headers)) lines) =
    (Send <$> (recordOf headers <$> rows), Closed).
Proof.
  intros Hall Hlen Hne. revert lines rows Hall Hlen.
  assert (0 < Z.of_nat (length headers)) as Hk by (destruct headers; simpl; [done|lia]).
  induction n as [|n IH]; intros lines rows; [done|]. simpl.
  rewrite Read_unchecked, Read_checked by done.
  destruct (csv.parseRecord c lines) as [[d| |d e] lines']; try done.
  - destruct (csv.readAllFrom n _) as [[ds|]|] eqn:Hds; try done.
    intros [= <-] [Hd Hds']%Forall_cons.
    rewrite bool_decide_false by (intros ?; lia).
    rewrite processLine_Mapped by done. by rewrite (IH lines' ds).
  - by intros [= <-] _.
Qed.

(** A row with another number of fields makes the loop end with the
    reader's [ErrFieldCount]; the rows before it have been sent. *)
Lemma readLoop_mismatch n c lines headers rows row rest :
  csv.readAllFrom n (csv.mkReader c (-1) lines) = Some (inl (rows ++ row :: rest)) →
  Forall (λ row, length row = length headers) rows → headers ≠ [] →
  length row ≠ length headers →
  readLoop n headers (csv.mkReader c (Z.of_nat (length headers)) lines) =
    (Send <$> (recordOf headers <$> rows), Fatal (ErrParse csv.ErrFieldCount)).
Proof.
  intros Hall Hlen Hne Hrow. revert lines rows Hall Hlen.
  assert (0 < Z.of_nat (length headers)) as Hk by (destruct headers; simpl; [done|lia]).
  induction n as [|n IH]; intros lines rows; [done|]. simpl.
  rewrite Read_unchecked, Read_checked by done.
  destruct (csv.parseRecord c lines) as [[d| |d e] lines']; try done.
  - destruct (csv.readAllFrom n _) as [[ds|]|] eqn:Hds; try done.
    destruct rows as [|r rows]; simpl.
    + intros [= -> ->] _. by rewrite bool_decide_true by (intros ?; lia).
    + intros [= -> ->] [Hd Hds']%Forall_cons.
      rewrite bool_decide_false by (intros ?; lia).
      rewrite processLine_Mapped by done. by rewrite (IH lines' rows).
  - by destruct rows.
Qed.

Lemma openReader_eq fd src :
  openReader fd src =
    csv.mkReader (if bool_decide (separator fd = "semicolon") then ";"%char else ","%char)
      0 (csv.cutLines "" src).
Proof. unfold openReader. by case_bool_decide. Qed.

(** The head of a source that the reader accepts without the check on the
    number of fields. *)
Lemma ReadAll_head fd src headers rows :
  csv.ReadAll (csv.unchecked (openReader fd src)) = Some (inl (headers :: rows)) →
  ∃ c lines',
    headers ≠ [] ∧
    csv.Read (openReader fd src) =
      (csv.Record headers, csv.mkReader c (Z.of_nat (length headers)) lines') ∧
    ∀ rest, loop headers (csv.mkReader c (Z.of_nat (length headers)) lines') = rest ↔
            readLoop (length (csv.cutLines "" src)) headers
              (csv.mkReader c (Z.of_nat (length headers)) lines') = rest.
Proof.
  rewrite openReader_eq. set (c := if bool_decide _ then _ else _).
  unfold csv.ReadAll, csv.unchecked; simpl.
  rewrite Read_unchecked, Read_first.
  destruct (csv.parseRecord c (csv.cutLines "" src)) as [[d| |d e] lines'] eqn:Hp;
    try done.
  destruct (csv.readAllFrom _ _) as [[ds|]|] eqn:Hds; try done.
  intros [= -> ->].
  destruct (parseRecord_length _ _ _ _ Hp) as (_ & Hlt & Hne).
  specialize (Hlt ltac:(done)).
  exists c, lines'. split_and!; [by apply Hne|done|].
  intros rest. unfold loop.
  by rewrite (readLoop_fuel _ (length (csv.cutLines "" src))) by (simpl; lia).
Qed.

Lemma ReadAll_tail fd src headers rows c lines' :
  csv.ReadAll (csv.unchecked (openReader fd src)) = Some (inl (headers :: rows)) →
  csv.Read (openReader fd src) =
    (csv.Record headers, csv.mkReader c (Z.of_nat (length headers)) lines') →
  csv.readAllFrom (length (csv.cutLines "" src)) (csv.mkReader c (-1) lines') =
    Some (inl rows).
Proof.
  rewrite openReader_eq. set (c0 := if bool_decide _ then _ else _).
  unfold csv.ReadAll, csv.unchecked; simpl.
  rewrite Read_unchecked, Read_first.
  destruct (csv.parseRecord c0 (csv.cutLines "" src)) as [[d| |d e] lines0] eqn:Hp;
    try done.
  destruct (csv.readAllFrom _ _) as [[ds|]|] eqn:Hds; try done.
  by intros [= -> ->] [= -> ->].
Qed.

Lemma processCsvFile_valid w fd src headers rows :
  contents w (filepath fd) = Some src →
  csv.ReadAll (csv.unchecked (openReader fd src)) = Some (inl (headers :: rows)) →
  Forall (λ row, length row = length headers) rows →
  processCsvFile w fd = (Send <$> (recordOf headers <$> rows), Closed).
Proof.
  intros Ho Hall Hlen. unfold processCsvFile. rewrite Ho.
  destruct (ReadAll_head _ _ _ _ Hall) as (c & lines' & Hne & HR & Hloop).
  rewrite HR. apply Hloop. apply readLoop_valid; [|done..].
  by eapply ReadAll_tail.
Qed.

Lemma processCsvFile_mismatch w fd src headers rows row rest :
  contents w (filepath fd) = Some src →
  csv.ReadAll (csv.unchecked (openReader fd src)) =
    Some (inl (headers :: rows ++ row :: rest)) →
  Forall (λ row, length row = length headers) rows →
  length row ≠ length headers →
  processCsvFile w fd =
    (Send <$> (recordOf headers <$> rows), Fatal (ErrParse csv.ErrFieldCount)).
Proof.
  intros Ho Hall Hlen Hrow. unfold processCsvFile. rewrite Ho.
  destruct (ReadAll_head _ _ _ _ Hall) as (c & lines' & Hne & HR & Hloop).
  rewrite HR. apply Hloop. eapply readLoop_mismatch; [|done..].
  by eapply ReadAll_tail.
Qed.

(** ** The record of a row *)

Section Records.
Implicit Types (m : gmap string string) (l : list (string * string)).

Local Abbreviation put := (λ m (kv : string * string), <[kv.1 := kv.2]> m).

Lemma fold_put_other l m name :
    Forall (λ kv, kv.1 ≠ name) l → foldl put m l !! name = m !! name.
Proof.
    revert m. induction l as [|kv l IH]; intros m Hl; simpl; [done|].
    apply Forall_cons in Hl as [Hkv Hl]. rewrite IH by done.
    by rewrite lookup_insert_ne.
Qed.

  (** The value kept for a name is the one of its last occurrence. *)
Lemma fold_put_last l m i name v :
    l !! i = Some (name, v) →
    (∀ j kv, (i < j)%nat → l !! j = Some kv → kv.1 ≠ name) →
    foldl put m l !! name = Some v.
Proof.
    revert m i. induction l as [|kv l IH]; intros m i Hi Hlast; [done|].
    destruct i as [|i]; simpl in *.
    - simplify_eq. rewrite fold_put_other; [by rewrite lookup_insert_eq|].
      apply Forall_lookup. intros j kv' Hj. apply (Hlast (S j)); [lia|done].
    - apply (IH _ i); [done|]. intros j kv' Hij Hj. apply (Hlast (S j)); [lia|done].
Qed.

Lemma fold_put_dom l m :
    dom (foldl put m l) = dom m ∪ list_to_set l.*1.
Proof.
    revert m. induction l as [|kv l IH]; intros m; simpl.
    - set_solver.
    - rewrite IH, dom_insert_L. set_solver.
Qed.

Lemma recordOf_dom headers row :
    length row = length headers → dom (recordOf headers row) = list_to_set headers.
Proof.
    intros Hlen. unfold recordOf. rewrite fold_put_dom, fst_zip by lia. set_solver.
Qed.

Lemma recordOf_lookup headers row i name v :
    length row = length headers →
    headers !! i = Some name → row !! i = Some v →
    (∀ j, (i < j)%nat → headers !! j ≠ Some name) →
    recordOf headers row !! name = Some v.
Proof.
    intros Hlen Hh Hr Hlast. unfold recordOf. apply (fold_put_last _ _ i).
    - rewrite lookup_zip_with, Hh. simpl. by rewrite Hr.
    - intros j [k x] Hij Hj Hk. simpl in Hk. subst k.
      apply lookup_zip_with_Some in Hj as (a & b & [= <- <-] & Ha & Hb).
      by apply (Hlast j).
Qed.

Lemma size_list_to_set_le (l : list string) :
    (size (list_to_set l : gset string) ≤ length l)%nat.
Proof.
    induction l as [|x l IH]; [done|]. cbn [list_to_set length].
    destruct (decide (x ∈ l)).
    - replace ({[x]} ∪ list_to_set l : gset string) with (list_to_set l : gset string)
        by set_solver. lia.
    - rewrite size_union by set_solver. rewrite size_singleton. lia.
Qed.

Lemma size_list_to_set_lt (l : list string) :
    ¬ NoDup l → (size (list_to_set l : gset string) < length l)%nat.
Proof.
    induction l as [|x l IH]; intros Hnd; cbn [list_to_set length].
    - destruct Hnd. constructor.
    - destruct (decide (x ∈ l)).
      + replace ({[x]} ∪ list_to_set l : gset string) with (list_to_set l : gset string)
          by set_solver.
        pose proof (size_list_to_set_le l). lia.
      + rewrite size_union by set_solver. rewrite size_singleton.
        assert (¬ NoDup l) as Hl by (intros ?; apply Hnd; by constructor).
        specialize (IH Hl). lia.
Qed.

Lemma recordOf_size headers row :
    length row = length headers →
    size (recordOf headers row) = size (list_to_set headers : gset string).
Proof. intros Hlen. by rewrite <-size_dom, recordOf_dom. Qed.

End Records.

(** ** The order of the keys in a marshalled map *)

Section Keys.
Implicit Types (m : gmap string string).

#[local] Instance keyLe_total : Total json.keyLe.
Proof. intros p q. unfold json.keyLe. apply (total String.le). Qed.

#[local] Instance keyLe_trans : Transitive json.keyLe.
Proof. intros p q r. unfold json.keyLe. apply (transitivity (R:=String.le)). Qed.

Lemma sortedEntries_perm m : json.sortedEntries m ≡ₚ map_to_list m.
Proof. apply merge_sort_Permutation. Qed.

Lemma sortedEntries_length m : length (json.sortedEntries m) = size m.
Proof. by rewrite sortedEntries_perm, length_map_to_list. Qed.

Lemma sortedEntries_lookup m k v :
  (k, v) ∈ json.sortedEntries m ↔ m !! k = Some v.
Proof. by rewrite sortedEntries_perm, elem_of_map_to_list. Qed.

Lemma sortedEntries_NoDup m : NoDup (json.sortedEntries m).*1.
Proof. rewrite sortedEntries_perm. apply NoDup_fst_map_to_list. Qed.

Lemma sortedEntries_keys m : (json.sortedEntries m).*1 ≡ₚ elements (dom m).
Proof.
  apply NoDup_Permutation; [apply sortedEntries_NoDup|apply NoDup_elements|].
  intros k. rewrite elem_of_elements, elem_of_dom, list_elem_of_fmap. split.
  - intros ([k' v] & -> & Hin). apply sortedEntries_lookup in Hin. by exists v.
  - intros [v Hv]. exists (k, v). split; [done|]. by apply sortedEntries_lookup.
Qed.

(** The keys come out in strictly increasing byte order. *)
Lemma sortedEntries_sorted m :
  StronglySorted (λ a b, (a ?= b)%string = Lt) (json.sortedEntries m).*1.
Proof.
  pose proof (sortedEntries_NoDup m) as Hnd.
  assert (StronglySorted json.keyLe (json.sortedEntries m)) as Hs.
  { apply Sorted_StronglySorted; [apply _|]. apply Sorted_merge_sort, _. }
  induction Hs as [|p l Hs IH Hall]; simpl in *; [constructor|].
  apply NoDup_cons in Hnd as [Hp Hnd]. constructor; [by apply IH|].
  apply Forall_fmap, Forall_forall. intros q Hq. simpl.
  rewrite Forall_forall in Hall. specialize (Hall q Hq).
  unfold json.keyLe, String.le, String.leb in Hall.
  destruct (p.1 ?= q.1)%string eqn:Hc; [|done|done].
  apply String.compare_eq_iff in Hc. destruct Hp. rewrite Hc.
  by apply list_elem_of_fmap_2.
Qed.

End Keys.

(** A record depends on the name-value pairs, not on the order of the
    columns. *)
Lemma rev_reverse {A} (l : list A) : rev l = reverse l.
Proof. apply rev_alt. Qed.

Lemma fold_put_list_to_map (l : list (string * string)) (m : gmap string string) :
  foldl (λ m kv, <[kv.1 := kv.2]> m) m l = list_to_map (rev l) ∪ m.
Proof.
  revert m. induction l as [|[k v] l IH]; intros m; simpl.
  - by rewrite (left_id_L ∅ (∪)).
  - rewrite IH, list_to_map_app. simpl.
    rewrite insert_empty, <-(assoc_L (∪)). by rewrite <-insert_union_singleton_l.
Qed.

Lemma recordOf_list_to_map headers row :
  NoDup headers → length row = length headers →
  recordOf headers row = list_to_map (zip headers row).
Proof.
  intros Hnd Hlen. unfold recordOf.
  rewrite fold_put_list_to_map, (right_id_L ∅ (∪)).
  apply list_to_map_proper.
  - rewrite rev_reverse, fmap_reverse, fst_zip by lia.
    by rewrite reverse_Permutation.
  - by rewrite rev_reverse, reverse_Permutation.
Qed.

Lemma recordOf_perm headers row headers' row' :
  NoDup headers → length row = length headers → length row' = length headers' →
  zip headers row ≡ₚ zip headers' row' →
  recordOf headers row = recordOf headers' row'.
Proof.
  intros Hnd Hlen Hlen' Hp.
  assert (NoDup headers') as Hnd'.
  { rewrite <-(fst_zip headers' row'), <-Hp, fst_zip by lia. done. }
  rewrite !recordOf_list_to_map by done.
  apply list_to_map_proper; [|done]. by rewrite fst_zip by lia.
Qed.

(** ** String literals and white space in the JSON text *)

Section Literals.
Import json.

Lemma literal_nil : literal "".
Proof. by intros rest. Qed.

Lemma literal_app t u : literal t → literal u → literal (t +:+ u).
Proof. intros Ht Hu rest. by rewrite !sapp_assoc, Ht, Hu. Qed.

Lemma literal_char c :
  c ≠ Byte.BACKSLASH → c ≠ Byte.DQUOTE → literal (String c "").
Proof.
  intros Hb Hq rest. rewrite sapp_cons, sapp_nil_l. cbn [elideFrom].
  by rewrite (proj2 (byte_eqb_false _ _) Hb), (proj2 (byte_eqb_false _ _) Hq).
Qed.

Lemma literal_cons c t :
  c ≠ Byte.BACKSLASH → c ≠ Byte.DQUOTE → literal t → literal (String c t).
Proof.
  intros Hb Hq Ht. change (String c t) with (String c "" +:+ t).
  apply literal_app; [by apply literal_char|done].
Qed.

Lemma literal_escaped c t : literal t → literal (String Byte.BACKSLASH (String c t)).
Proof.
  intros Ht rest. rewrite !sapp_cons. cbn [elideFrom]. rewrite byte_eqb_refl.
  by rewrite Ht.
Qed.

Lemma raw_byte b :
  (128 ≤ Byte.code b)%N → b ≠ Byte.BACKSLASH ∧ b ≠ Byte.DQUOTE.
Proof. intros Hb. split; intros ->; vm_compute in Hb; by destruct Hb. Qed.

Lemma hexDigit_plain n :
  hexDigit n ≠ Byte.BACKSLASH ∧ hexDigit n ≠ Byte.DQUOTE.
Proof.
  unfold hexDigit. generalize (N.to_nat n). intros k.
  do 17 (destruct k as [|k]; [by split|]). by split.
Qed.

Lemma htmlSafe_plain b :
  htmlSafe b = true → b ≠ Byte.BACKSLASH ∧ b ≠ Byte.DQUOTE.
Proof.
  unfold htmlSafe. intros Hs. split; intros ->; by vm_compute in Hs.
Qed.

Lemma literal_escapeByte b : literal (escapeByte b).
Proof.
  unfold escapeByte.
  destruct (hexDigit_plain (N.shiftr (Byte.code b) 4)) as [? ?].
  destruct (hexDigit_plain (N.land (Byte.code b) 15)) as [? ?].
  repeat case_match; apply literal_escaped;
    repeat (apply literal_cons; [done..|]); apply literal_nil.
Qed.

Lemma first_bounds c0 sz lo hi :
  first c0 = Some (sz, lo, hi) → (128 ≤ lo)%N.
Proof. unfold first. repeat case_match; intros [= <- <- <-]; lia. Qed.

Lemma isCont_raw c : isCont c = true → (128 ≤ c)%N.
Proof. unfold isCont. by intros [?%N.leb_le ?]%andb_true_iff. Qed.

Lemma decodeRune_raw b0 r0 c size :
  decodeRune (String b0 r0) = (c, size) → (128 ≤ Byte.code b0)%N →
  match size, r0 with
  | 2%nat, String b1 _ => (128 ≤ Byte.code b1)%N
  | 3%nat, String b1 (String b2 _) =>
      (128 ≤ Byte.code b1)%N ∧ (128 ≤ Byte.code b2)%N
  | 4%nat, String b1 (String b2 (String b3 _)) =>
      (128 ≤ Byte.code b1)%N ∧ (128 ≤ Byte.code b2)%N ∧ (128 ≤ Byte.code b3)%N
  | _, _ => True
  end.
Proof.
  intros Hd Hb0. unfold decodeRune in Hd.
  rewrite (proj2 (N.ltb_ge _ _) Hb0) in Hd.
  destruct (first (Byte.code b0)) as [[[sz lo] hi]|] eqn:Hf.
  2:{ by destruct r0; simplify_eq. }
  apply first_bounds in Hf.
  destruct r0 as [|b1 r1]; [by simplify_eq/=|].
  destruct (_ || _) eqn:Hr1 in Hd; [by simplify_eq/=|].
  apply orb_false_iff in Hr1 as [Hlo%N.ltb_ge _].
  assert (128 ≤ Byte.code b1)%N as H1 by lia.
  case_bool_decide; [by simplify_eq/=|].
  destruct r1 as [|b2 r2]; [by simplify_eq/=|].
  destruct (isCont (Byte.code b2)) eqn:H2; [|by simplify_eq/=].
  apply isCont_raw in H2. simpl in Hd.
  case_bool_decide; [by simplify_eq/=|].
  destruct r2 as [|b3 r3]; [by simplify_eq/=|].
  destruct (isCont (Byte.code b3)) eqn:H3; [|by simplify_eq/=].
  apply isCont_raw in H3. simpl in Hd. by simplify_eq/=.
Qed.

Lemma escape_cons b0 r0 :
  escape (String b0 r0) =
    if (Byte.code b0 <? 128)%N then
      (if htmlSafe b0 then String b0 "" else escapeByte b0) +:+ escape r0
    else
      let '(c, size) := decodeRune (String b0 r0) in
      match size, r0 with
      | 2%nat, String b1 r1 => String b0 (String b1 (escape r1))
      | 3%nat, String b1 (String b2 r2) =>
          if (c =? 0x2028)%N || (c =? 0x2029)%N
          then String Byte.BACKSLASH
                 ("u202" +:+ String (hexDigit (N.land c 15)) (escape r2))
          else String b0 (String b1 (String b2 (escape r2)))
      | 4%nat, String b1 (String b2 (String b3 r3)) =>
          String b0 (String b1 (String b2 (String b3 (escape r3))))
      | _, _ => String Byte.BACKSLASH ("ufffd" +:+ escape r0)
      end.
Proof. reflexivity. Qed.

Lemma literal_escape_bounded n : ∀ s, (String.length s ≤ n)%nat → literal (escape s).
Proof.
  induction n as [|n IH]; intros s Hn.
  { destruct s; [apply literal_nil|simpl in Hn; lia]. }
  destruct s as [|b0 r0]; [apply literal_nil|]. simpl in Hn.
  rewrite escape_cons. destruct (Byte.code b0 <? 128)%N eqn:Hb0.
  { apply literal_app; [|apply IH; lia].
    destruct (htmlSafe b0) eqn:Hs; [|apply literal_escapeByte].
    destruct (htmlSafe_plain _ Hs). by apply literal_char. }
  apply N.ltb_ge in Hb0.
  destruct (decodeRune (String b0 r0)) as [c size] eqn:Hd.
  pose proof (decodeRune_raw _ _ _ _ Hd Hb0) as Hraw.
  destruct (raw_byte _ Hb0) as [? ?].
  assert (∀ t, (String.length t ≤ n)%nat →
            literal (String Byte.BACKSLASH ("ufffd" +:+ escape t))) as Hbad.
  { intros t Ht. apply literal_escaped.
    do 4 (apply literal_cons; [done..|]). by apply IH. }
  destruct size as [|[|[|[|[|size]]]]]; try (apply Hbad; lia).
  - destruct r0 as [|b1 r1]; [apply Hbad; simpl; lia|]. simpl in Hn.
    destruct (raw_byte _ Hraw) as [? ?].
    do 2 (apply literal_cons; [done..|]). apply IH; lia.
  - destruct r0 as [|b1 [|b2 r2]]; try (apply Hbad; simpl in *; lia). simpl in Hn.
    destruct Hraw as [H1 H2].
    destruct (raw_byte _ H1) as [? ?], (raw_byte _ H2) as [? ?].
    destruct (hexDigit_plain (N.land c 15)) as [? ?].
    case_match.
    + apply literal_escaped. do 4 (apply literal_cons; [done..|]). apply IH; lia.
    + do 3 (apply literal_cons; [done..|]). apply IH; lia.
  - destruct r0 as [|b1 [|b2 [|b3 r3]]]; try (apply Hbad; simpl in *; lia). simpl in Hn.
    destruct Hraw as (H1 & H2 & H3).
    destruct (raw_byte _ H1) as [? ?], (raw_byte _ H2) as [? ?],
      (raw_byte _ H3) as [? ?].
    do 4 (apply literal_cons; [done..|]). apply IH; lia.
Qed.

Lemma literal_escape s : literal (escape s).
Proof. by apply (literal_escape_bounded (String.length s)). Qed.

(** A quoted string, read from outside a literal, is copied whole. *)
Lemma elide_quote s rest :
  elideFrom false false (quote s +:+ rest) = quote s +:+ elideFrom false false rest.
Proof.
  unfold quote. rewrite !sapp_cons, sapp_assoc. cbn [elideFrom].
  change (isSpace Byte.DQUOTE) with false. rewrite byte_eqb_refl. cbn iota.
  rewrite literal_escape, !sapp_cons. cbn [elideFrom]. rewrite byte_eqb_refl.
  change (Byte.eqb Byte.DQUOTE Byte.BACKSLASH) with false. cbn iota.
  by rewrite sapp_nil_l, sapp_assoc.
Qed.

End Literals.

Section Compact.
Import json.

Lemma compact_nil : compact "".
Proof. by intros rest. Qed.

Lemma compact_app t u : compact t → compact u → compact (t +:+ u).
Proof. intros Ht Hu rest. by rewrite !sapp_assoc, Ht, Hu. Qed.

Lemma compact_punct c t :
  isSpace c = false → c ≠ Byte.DQUOTE → compact t → compact (String c t).
Proof.
  intros Hs Hq Ht rest. rewrite !sapp_cons. cbn [elideFrom]. rewrite Hs.
  by rewrite (proj2 (byte_eqb_false _ _) Hq), Ht.
Qed.

Lemma compact_quote s : compact (quote s).
Proof. intros rest. apply elide_quote. Qed.

Lemma compact_member p : compact (member p).
Proof.
  unfold member. apply compact_app; [apply compact_quote|].
  apply (compact_punct ":"%char); [done|done|apply compact_quote].
Qed.

Lemma compact_join l : compact (Str.join "," (member <$> l)).
Proof.
  induction l as [|p [|q l] IH]; simpl.
  - apply compact_nil.
  - apply compact_member.
  - apply compact_app; [apply compact_member|].
    by apply (compact_punct ","%char).
Qed.

Lemma compact_Marshal m : compact (Marshal m).
Proof.
  unfold Marshal. apply (compact_punct "{"%char); [done|done|].
  apply compact_app; [apply compact_join|].
  apply (compact_punct "}"%char); [done|done|apply compact_nil].
Qed.

Lemma blank_nil : blank "".
Proof. by intros rest. Qed.

Lemma blank_cons c t : isSpace c = true → blank t → blank (String c t).
Proof. intros Hs Ht rest. rewrite sapp_cons. cbn [elideFrom]. by rewrite Hs, Ht. Qed.

Lemma blank_app t u : blank t → blank u → blank (t +:+ u).
Proof. intros Ht Hu rest. by rewrite sapp_assoc, Ht, Hu. Qed.

Lemma blank_repeat t n : blank t → blank (Str.repeat t n).
Proof.
  intros Ht. unfold Str.repeat.
  induction n as [|n IH]; simpl; [apply blank_nil|by apply blank_app].
Qed.

Lemma blank_newline prefix indent depth :
  blank prefix → blank indent → blank (newline prefix indent depth).
Proof.
  intros Hp Hi. unfold newline. apply blank_cons; [done|].
  apply blank_app; [done|by apply blank_repeat].
Qed.

Lemma elide_outside esc t : elideFrom false esc t = elideFrom false false t.
Proof. by destruct t. Qed.

(** [Indent] only adds and removes insignificant white space. *)
Lemma elide_indent prefix indent :
  blank prefix → blank indent →
  ∀ src inStr esc need depth rest,
    elideFrom inStr esc
      (indentFrom prefix indent inStr esc need depth src +:+ rest) =
    elideFrom inStr esc (src +:+ rest).
Proof.
  intros Hp Hi. induction src as [|c src IH]; intros inStr esc need depth rest.
  { done. }
  rewrite sapp_cons. cbn [indentFrom]. destruct inStr.
  { rewrite sapp_cons. cbn [elideFrom]. f_equal. by repeat case_match. }
  rewrite !(elide_outside esc). cbn [elideFrom].
  destruct (isSpace c) eqn:Hs; [apply IH|].
  set (opening := need && negb (isClose c)).
  assert (blank (if opening then newline prefix indent
                                 (if opening then S depth else depth) else ""))
    as Hlead.
  { destruct opening; [by apply blank_newline|apply blank_nil]. }
  rewrite sapp_assoc, Hlead. clear Hlead.
  pose proof (λ d, blank_newline prefix indent d Hp Hi) as Hnl.
  assert (isSpace Byte.SPACE = true) as Hsp by done.
  destruct (Byte.eqb c "{" || Byte.eqb c "[") eqn:H1;
    [|destruct (Byte.eqb c ",") eqn:H2;
      [|destruct (Byte.eqb c ":") eqn:H3;
        [|destruct (isClose c) eqn:H4]]].
  1-4: assert (Byte.eqb c Byte.DQUOTE = false) as Hq
    by (apply byte_eqb_false; intros ->;
        first [by vm_compute in H1|by vm_compute in H2
              |by vm_compute in H3|by vm_compute in H4]).
  all: pose proof (λ d, blank_repeat indent d Hi) as Hrep.
  all: subst opening; destruct need; try rewrite H4;
    try destruct (isClose c); simpl;
    repeat (progress (rewrite ?sapp_cons, ?sapp_assoc, ?Hp, ?Hrep;
                      cbn [elideFrom]; rewrite ?Hs, ?Hq, ?Hsp));
    f_equal; apply IH.
Qed.

Lemma jsonFunc_true record :
  jsonFunc true record = "   " +:+ indentFrom "   " "   " false false false 0 (Marshal record).
Proof. reflexivity. Qed.

Lemma jsonFunc_false record : jsonFunc false record = Marshal record.
Proof. reflexivity. Qed.

Lemma breakLine_true : breakLine true = String Byte.LF "".
Proof. reflexivity. Qed.

Lemma breakLine_false : breakLine false = "".
Proof. reflexivity. Qed.

(** The object of a record, indented as the program does it, has the text
    of the plain object once its white space is taken out. *)
Lemma elide_jsonFunc record rest :
  elideFrom false false (jsonFunc true record +:+ rest) =
    jsonFunc false record +:+ elideFrom false false rest.
Proof.
  assert (blank "   ") as Hb by (by intros ?).
  change (jsonFunc false record) with (Marshal record).
  rewrite jsonFunc_true, (sapp_assoc "   "). etrans; [apply Hb|].
  rewrite elide_indent by done. apply compact_Marshal.
Qed.

Lemma compact_body first records : compact (body false first records).
Proof.
  revert first. induction records as [|r records IH]; intros first; cbn [body].
  - change (breakLine false) with "". rewrite sapp_nil_l.
    apply (compact_punct "]"%char); [done|done|apply compact_nil].
  - change (breakLine false) with "". change (jsonFunc false r) with (Marshal r).
    apply compact_app; [|apply compact_app; [apply compact_Marshal|apply IH]].
    destruct first; [apply compact_nil|].
    apply (compact_punct ","%char); [done|done|apply compact_nil].
Qed.

Lemma compact_document records : compact (document false records).
Proof.
  unfold document. apply compact_app; [|apply compact_body].
  change (breakLine false) with "".
  apply (compact_punct "["%char); [done|done|apply compact_nil].
Qed.

Lemma elide_body first records :
  elideFrom false false (body true first records) = body false first records.
Proof.
  revert first. induction records as [|r records IH]; intros first; cbn [body];
    change (breakLine true) with (String Byte.LF "");
    change (breakLine false) with "".
  - done.
  - destruct first.
    + rewrite !sapp_nil_l, elide_jsonFunc. by rewrite IH.
    + rewrite !sapp_cons, !sapp_nil_l. cbn [elideFrom].
      change (isSpace ","%char) with false.
      change (Byte.eqb ","%char Byte.DQUOTE) with false. cbn iota.
      rewrite !sapp_cons, !sapp_nil_l. cbn [elideFrom].
      change (isSpace Byte.LF) with true. cbn iota.
      rewrite elide_jsonFunc. by rewrite IH.
Qed.

(** The pretty document and the plain one differ by white space only. *)
Lemma elide_document records :
  elideSpace (document true records) = document false records ∧
  elideSpace (document false records) = document false records.
Proof.
  split.
  - unfold elideSpace, document.
    change (breakLine true) with (String Byte.LF "").
    change (breakLine false) with "".
    rewrite !sapp_cons, !sapp_nil_l. cbn [elideFrom].
    change (isSpace "["%char) with false.
    change (Byte.eqb "["%char Byte.DQUOTE) with false. cbn iota.
    rewrite !sapp_cons, !sapp_nil_l. cbn [elideFrom].
    change (isSpace Byte.LF) with true. cbn iota.
    by rewrite elide_body.
  - unfold elideSpace.
    rewrite <-(sapp_nil_r (document false records)) at 1.
    by rewrite compact_document, sapp_nil_r.
Qed.

End Compact.

(** ** Paths *)

Lemma srev_app_acc s acc : String.rev_app s acc = String.rev s +:+ acc.
Proof.
  unfold String.rev. revert acc. induction s as [|c s IH]; intros acc; simpl; [done|].
  rewrite (IH (String c acc)), (IH (String c "")). by rewrite sapp_assoc.
Qed.

Lemma srev_cons c s : String.rev (String c s) = String.rev s +:+ String c "".
Proof. unfold String.rev at 1. simpl. apply srev_app_acc. Qed.

Lemma srev_app s t : String.rev (s +:+ t) = String.rev t +:+ String.rev s.
Proof.
  induction s as [|c s IH]; [by rewrite sapp_nil_l, sapp_nil_r|].
  by rewrite sapp_cons, !srev_cons, IH, sapp_assoc.
Qed.

Lemma srev_involutive s : String.rev (String.rev s) = s.
Proof.
  induction s as [|c s IH]; [done|]. by rewrite srev_cons, srev_app, IH.
Qed.

Lemma take_app_length s t : Str.take (String.length s) (s +:+ t) = s.
Proof.
  induction s as [|c s IH]; [by destruct t|].
  rewrite sapp_cons. cbn [String.length Str.take]. by rewrite IH.
Qed.

Lemma prefix_app s t : String.prefix s (s +:+ t) = true.
Proof.
  induction s as [|c s IH]; [by destruct t|].
  rewrite sapp_cons. cbn [String.prefix]. by destruct (ascii_dec c c).
Qed.

Lemma trimSuffix_app s suffix : Str.trimSuffix (s +:+ suffix) suffix = s.
Proof.
  unfold Str.trimSuffix, Str.hasSuffix. rewrite srev_app, prefix_app.
  rewrite sapp_length. replace (_ + _ - _)%nat with (String.length s) by lia.
  apply take_app_length.
Qed.

Section Paths.
Import filepath.

Lemma extFrom_length b seen :
  extFrom b seen = "" ∨ (String.length seen < String.length (extFrom b seen))%nat.
Proof.
  revert seen. induction b as [|c b IH]; intros seen; cbn [extFrom]; [by left|].
  destruct (isSep c); [by left|].
  destruct (Byte.eqb c Byte.DOT); [right; simpl; lia|].
  destruct (IH (String c seen)) as [->|Hlt]; [by left|right]. simpl in Hlt. lia.
Qed.

(** A path whose extension is [.csv] ends with these four bytes. *)
Lemma Ext_csv path : Ext path = ".csv" → ∃ q, path = q +:+ ".csv".
Proof.
  unfold Ext. intros He. rewrite <-(srev_involutive path).
  destruct (String.rev path) as [|c1 [|c2 [|c3 [|c4 b]]]];
    cbn [extFrom] in He;
    repeat match type of He with
           | context [isSep ?c] => destruct (isSep c); [done|]
           | context [Byte.eqb ?c Byte.DOT] =>
               destruct (Byte.eqb c Byte.DOT) eqn:?; [done|]
           end; try done.
  destruct (Byte.eqb c4 Byte.DOT) eqn:E4.
  - injection He as -> -> -> ->. exists (String.rev b).
    by rewrite !srev_cons, !sapp_assoc.
  - destruct (extFrom_length b (String c4 (String c3 (String c2 (String c1 "")))))
      as [Hn|Hlt]; rewrite He in *; [done|]. simpl in Hlt. lia.
Qed.

Lemma lastElem_seen b seen : lastElem b seen = lastElem b "" +:+ seen.
Proof.
  revert seen. induction b as [|c b IH]; intros seen; cbn [lastElem]; [done|].
  destruct (isSep c); [done|].
  by rewrite (IH (String c seen)), (IH (String c "")), sapp_assoc.
Qed.

Lemma noSep_app s t : noSep (s +:+ t) ↔ noSep s ∧ noSep t.
Proof.
  induction s as [|c s IH]; [by rewrite sapp_nil_l; intuition|].
  rewrite sapp_cons. cbn [noSep]. rewrite IH. tauto.
Qed.

Lemma noSep_rev s : noSep (String.rev s) ↔ noSep s.
Proof.
  induction s as [|c s IH]; [done|].
  rewrite srev_cons, noSep_app, IH. cbn [noSep]. tauto.
Qed.

Lemma lastElem_noSep b seen : noSep seen → noSep (lastElem b seen).
Proof.
  revert seen. induction b as [|c b IH]; intros seen Hs; cbn [lastElem]; [done|].
  destruct (isSep c) eqn:Hc; [done|]. apply IH. by split.
Qed.

Lemma lastElem_stop b y seen :
  noSep b → lastElem (b +:+ String Byte.SLASH y) seen = String.rev b +:+ seen.
Proof.
  revert seen. induction b as [|c b IH]; intros seen Hb.
  - by rewrite sapp_nil_l.
  - destruct Hb as [Hc Hb]. rewrite sapp_cons. cbn [lastElem]. rewrite Hc.
    by rewrite IH, srev_cons, sapp_assoc.
Qed.

Lemma sapp_nonempty s t : t ≠ "" → s +:+ t ≠ "".
Proof.
  intros Ht He. apply (f_equal String.length) in He.
  rewrite sapp_length in He. destruct t; [done|]. simpl in He. lia.
Qed.

Lemma lastElem_cons c b seen :
  isSep c = false → lastElem (String c b) seen = lastElem b (String c seen).
Proof. intros Hc. cbn [lastElem]. by rewrite Hc. Qed.

Lemma dropSeps_cons c b : isSep c = false → dropSeps (String c b) = String c b.
Proof. intros Hc. cbn [dropSeps]. by rewrite Hc. Qed.

Lemma extFrom_cons c b seen :
  isSep c = false → Byte.eqb c Byte.DOT = false →
  extFrom (String c b) seen = extFrom b (String c seen).
Proof. intros Hc Hd. cbn [extFrom]. by rewrite Hc, Hd. Qed.

Lemma Base_csv q :
  Base (q +:+ ".csv") = lastElem (String.rev q) "" +:+ ".csv".
Proof.
  unfold Base. rewrite bool_decide_false by (by apply sapp_nonempty).
  rewrite srev_app. change (String.rev ".csv") with "vsc.".
  rewrite !sapp_cons, sapp_nil_l, dropSeps_cons by done.
  rewrite !lastElem_cons by done. rewrite lastElem_seen.
  by rewrite bool_decide_false by (by apply sapp_nonempty).
Qed.

Lemma Base_joined dir name :
  noSep name → name ≠ "" → Base (dir +:+ "/" +:+ name) = name.
Proof.
  intros Hn Hne. unfold Base.
  rewrite bool_decide_false by (by apply sapp_nonempty, sapp_nonempty).
  rewrite !srev_app. change (String.rev "/") with "/".
  rewrite sapp_assoc, sapp_cons, sapp_nil_l.
  change (String "/"%char (String.rev dir))
    with (String Byte.SLASH (String.rev dir)).
  assert (dropSeps (String.rev name +:+ String Byte.SLASH (String.rev dir)) =
          String.rev name +:+ String Byte.SLASH (String.rev dir)) as ->.
  { destruct (String.rev name) as [|c r] eqn:Hr.
    - apply (f_equal String.rev) in Hr. by rewrite srev_involutive in Hr.
    - apply noSep_rev in Hn. rewrite Hr in Hn. destruct Hn as [Hc _].
      rewrite sapp_cons. by apply dropSeps_cons. }
  rewrite lastElem_stop by (by apply noSep_rev).
  rewrite srev_involutive, sapp_nil_r. by rewrite bool_decide_false.
Qed.

Lemma Ext_json dir stem :
  Ext (dir +:+ "/" +:+ stem +:+ ".json") = ".json".
Proof.
  unfold Ext. rewrite !srev_app. change (String.rev ".json") with "nosj.".
  rewrite !sapp_cons. rewrite !extFrom_cons by done. cbn [extFrom].
  change (isSep ".") with false.
  by change (Byte.eqb "." Byte.DOT) with true.
Qed.

(** Where the output goes, for a path that passed the check of its
    extension. *)
Lemma finalLocation_csv csvPath :
  Ext csvPath = ".csv" →
  ∃ stem,
    noSep stem ∧
    Base csvPath = stem +:+ ".csv" ∧
    finalLocation csvPath = Dir csvPath +:+ "/" +:+ stem +:+ ".json" ∧
    Base (finalLocation csvPath) = stem +:+ ".json" ∧
    Ext (finalLocation csvPath) = ".json".
Proof.
  intros (q & ->)%Ext_csv. exists (lastElem (String.rev q) "").
  assert (noSep (lastElem (String.rev q) "")) as Hs by (by apply lastElem_noSep).
  assert (finalLocation (q +:+ ".csv") =
          Dir (q +:+ ".csv") +:+ "/" +:+ lastElem (String.rev q) "" +:+ ".json")
    as Hf.
  { unfold finalLocation. by rewrite Base_csv, trimSuffix_app. }
  split_and!; [done|apply Base_csv|done| |].
  - rewrite Hf. apply Base_joined.
    + apply noSep_app. split; [done|]. by repeat split.
    + by destruct (lastElem (String.rev q) "").
  - rewrite Hf. apply Ext_json.
Qed.

End Paths.

(** ** Conversions that succeed, conversions that fail *)

(** When a conversion is expected to succeed, a run that ends with status 0
    exists, every completed run ends with status 0, and all of them leave
    the expected text in the closed output file. *)
Lemma conversion_runs w cl out :
  expected w cl = Some out →
  (∃ sched s, run w cl sched initial = Some s ∧ status s = Exited 0) ∧
  (∀ sched s, run w cl sched initial = Some s → exited s →
     status s = Exited 0 ∧
     ∃ fd, getFileData cl = inl fd ∧
       sink s = Some (mkFile (finalLocation (filepath fd)) out true)).
Proof.
  intros Hexp.
  assert (∀ sched s, run w cl sched initial = Some s → exited s →
            status s = Exited 0) as Hzero.
  { intros sched s Hr [code Hs]. destruct (decide (code = 0)) as [->|Hc]; [done|].
    by rewrite (failure_output _ _ _ _ _ Hr Hs Hc) in Hexp. }
  split.
  - destruct (run_completes w cl) as (sched & s & Hr & Hex). eauto.
  - intros sched s Hr Hex. split; [by eapply Hzero|].
    destruct (success_output _ _ _ _ Hr (Hzero _ _ Hr Hex))
      as (fd & [name data closed] & Hg & Hsk & Hn & Hc & He).
    simpl in *. exists fd. split; [done|]. by simplify_eq.
Qed.

(** When it is not, no run ends with status 0, and the output file is
    never closed: the closing bracket is never written. *)
Lemma step_exit_sink w cl t s s' code :
  step w cl t s = Some s' → status s' = Exited code → sink s' = sink s.
Proof.
  unfold step. destruct (status s) eqn:Hst; [|done].
  destruct t; [|destruct (fileData s) as [fd|]; [|done]..].
  - unfold stepMain. repeat case_match; intros [= <-]; simpl; congruence.
  - unfold stepReader. repeat case_match; intros [= <-]; simpl; congruence.
  - unfold stepWriter.
    repeat case_match; try done; try (intros [= <-]; simpl; congruence).
    all: intros (s1 & (f & Hf & ->)%writeString_Some & ->)%fmap_Some;
      destruct (fclosed f); simpl; congruence.
Qed.

Lemma failed_conversion w cl :
  expected w cl = None →
  ∀ sched s, run w cl sched initial = Some s →
    status s ≠ Exited 0 ∧ ∀ f, sink s = Some f → fclosed f = false.
Proof.
  intros Hexp sched. induction sched as [|t sched IH] using rev_ind; intros s.
  { intros [= <-]. by split. }
  rewrite run_app. destruct (run w cl sched initial) as [s0|] eqn:Hr0; [|done].
  simpl. destruct (step w cl t s0) as [s1|] eqn:Hs; [|done]. intros [= <-].
  destruct (IH s0 eq_refl) as [_ IHsink].
  destruct (reachable_Inv w cl (sched ++ [t]) s1) as [HI Hf].
  { rewrite run_app, Hr0. simpl. by rewrite Hs. }
  rewrite Hexp in Hf. unfold finish in Hf.
  destruct (status s1) as [|code] eqn:Hst.
  - split; [done|]. intros f Hsk.
    destruct HI as [Hmain _ Hsig Hsink _ _ _ _ _ _].
    unfold mainOK, signalOK in *.
    destruct (mainPC s1) eqn:Hm.
    + destruct Hmain as (_ & Hw & _). rewrite Hw in Hsink. simpl in Hsink. congruence.
    + destruct Hmain as [fd Hfd]. rewrite Hfd in Hf. simpl in Hf.
      unfold finishFrom in Hf.
      destruct (writerPC s1) eqn:Hw; simpl in *;
        try (destruct Hsink as (x & Hx & Hopen); by simplify_eq);
        try congruence.
      all: rewrite Hsig, Hsk in Hf; done.
    + by rewrite Hsk in Hf.
  - split.
    + intros [= ->]. rewrite bool_decide_true in Hf by done.
      destruct HI as [Hmain _ _ Hsink _ Hstat _ _ _ _].
      unfold statusOK, mainOK in *. rewrite Hst in Hstat. rewrite Hstat in Hmain.
      destruct Hmain as (_ & Hw & _). rewrite Hw in Hsink.
      destruct Hsink as (x & Hx & _). by rewrite Hx in Hf.
    + rewrite (step_exit_sink _ _ _ _ _ _ Hs Hst). apply IHsink.
Qed.

(** The flag [pretty] has no part in the reading. *)
Lemma processCsvFile_pretty w fd fd' :
  filepath fd = filepath fd' → separator fd = separator fd' →
  processCsvFile w fd = processCsvFile w fd'.
Proof.
  intros Hp Hs. unfold processCsvFile. rewrite Hp.
  destruct (contents w (filepath fd')); [|done]. by rewrite !openReader_eq, Hs.
Qed.

Lemma valid_Ext w path :
  (checkIfValidFile w path).2 = None → filepath.Ext path = ".csv".
Proof.
  unfold checkIfValidFile. case_bool_decide; [done|]. by intros [=].
Qed.

(** The text of the document: the objects, separated, between brackets. *)
Lemma join_cons sep x y l :
  Str.join sep (x :: y :: l) = x +:+ sep +:+ Str.join sep (y :: l).
Proof. reflexivity. Qed.

Lemma body_join pretty records :
  body pretty true records =
    Str.join ("," +:+ breakLine pretty) (jsonFunc pretty <$> records) +:+
    breakLine pretty +:+ "]".
Proof.
  destruct records as [|r records]; [done|]. cbn [body]. rewrite sapp_nil_l.
  revert r. induction records as [|r' records IH]; intros r.
  - done.
  - cbn [body]. rewrite (IH r'), !fmap_cons, join_cons.
    by rewrite !sapp_assoc.
Qed.

(** * The claims *)

Lemma sent_Send records : sent (Send <$> records) = records.
Proof. induction records as [|r records IH]; [done|]. simpl. by f_equal. Qed.

(** What the conversion of a valid input is expected to write. *)
Lemma expected_valid w cl fd src headers rows :
  getFileData cl = inl fd →
  (checkIfValidFile w (filepath fd)).2 = None →
  contents w (filepath fd) = Some src →
  creatable w (finalLocation (filepath fd)) = true →
  csv.ReadAll (csv.unchecked (openReader fd src)) = Some (inl (headers :: rows)) →
  Forall (λ row, length row = length headers) rows →
  expected w cl = Some (document (pretty fd) (recordOf headers <$> rows)).
Proof.
  intros Hg Hv Ho Hc Hall Hlen. apply expected_Some.
  exists fd, (Send <$> (recordOf headers <$> rows)).
  split_and!; [done..|by eapply processCsvFile_valid|].
  by rewrite sent_Send.
Qed.

(** The keys of the record of a row are the names of the header. *)
Lemma recordOf_keys headers row :
  NoDup headers → length row = length headers →
  (json.sortedEntries (recordOf headers row)).*1 ≡ₚ headers.
Proof.
  intros Hnd Hlen. rewrite sortedEntries_keys, recordOf_dom by done.
  by apply elements_list_to_set.
Qed.

(** C4. For a source that holds a header row and no data row, the program
    ends with status 0 and the output file holds the empty JSON array: the
    text [[]] without the flag [pretty], and with it the same two brackets
    with two line feeds between them. *)
Theorem C4_header_only w cl fd src headers :
  getFileData cl = inl fd →
  (checkIfValidFile w (filepath fd)).2 = None →
  contents w (filepath fd) = Some src →
  creatable w (finalLocation (filepath fd)) = true →
  csv.ReadAll (csv.unchecked (openReader fd src)) = Some (inl [headers]) →
  (∃ sched s, run w cl sched initial = Some s ∧ status s = Exited 0) ∧
  (∀ sched s, run w cl sched initial = Some s → exited s →
     status s = Exited 0 ∧
     ∃ text,
       sink s = Some (mkFile (finalLocation (filepath fd)) text true) ∧
       json.elideSpace text = "[]" ∧
       text = if pretty fd then "[" +:+ LF +:+ LF +:+ "]" else "[]").
Proof.
  intros Hg Hv Ho Hc Hall.
  pose proof (expected_valid _ _ _ _ _ [] Hg Hv Ho Hc Hall ltac:(constructor))
    as Hexp.
  destruct (conversion_runs _ _ _ Hexp) as [Hsome Hevery].
  split; [done|]. intros sched s Hr Hex.
  destruct (Hevery _ _ Hr Hex) as (Hz & fd' & Hg' & Hsk).
  rewrite Hg in Hg'. injection Hg' as <-. split; [done|].
  eexists. split; [exact Hsk|]. by destruct (pretty fd).
Qed.

Lemma C4_header_only_witness :
  ∃ sched s,
    run (exampleWorld scenarioD) (exampleCmd "comma" false) sched initial = Some s ∧
    status s = Exited 0.
Proof.
  refine (proj1 (C4_header_only
                   (exampleWorld scenarioD) (exampleCmd "comma" false)
                   (mkInputFile examplePath "comma" false) scenarioD
                   ["a"; "b"] _ _ _ _ _)).
  - reflexivity.
  - reflexivity.
  - reflexivity.
  - reflexivity.
  - vm_compute. reflexivity.
Defined.

(** A row that has not as many fields as the header ends the loop with the
    reader's error, whatever comes after it: no conversion of such a source
    is expected to succeed. *)
Lemma expected_mismatch w cl fd src headers rows row rest :
  getFileData cl = inl fd →
  contents w (filepath fd) = Some src →
  csv.ReadAll (csv.unchecked (openReader fd src)) =
    Some (inl (headers :: rows ++ row :: rest)) →
  Forall (λ row, length row = length headers) rows →
  length row ≠ length headers →
  expected w cl = None.
Proof.
  intros Hg Ho Hall Hlen Hrow.
  destruct (expected w cl) as [out|] eqn:Hexp; [|done].
  apply expected_Some in Hexp as (fd' & evs & Hg' & _ & _ & Hp & _).
  rewrite Hg in Hg'. injection Hg' as <-.
  by rewrite (processCsvFile_mismatch _ _ _ _ _ _ _ Ho Hall Hlen Hrow) in Hp.
Qed.

(** C1, on the input of scenario C.  The third line has one field where
    the header has two.  [processLine] would reject such a row and the loop
    would go on, but the row never reaches [processLine]: the reader, whose
    [FieldsPerRecord] is left at 0, takes the number of fields from the
    header and returns [ErrFieldCount] for the short row, which the loop
    treats as fatal.  One run ends with status 1, the error on the standard
    error stream, no line about a skipped row printed, and the output file
    left open without its closing bracket; no run ends with status 0, closes
    the output file or prints a line about a skipped row. *)
Theorem C1_short_row_is_fatal :
  let w := exampleWorld scenarioC in
  let cl := exampleCmd "comma" false in
  csv.ReadAll (csv.unchecked (csv.NewReader scenarioC)) =
    Some (inl [["a"; "b"]; ["1"; "2"]; ["3"]]) ∧
  processLine ["a"; "b"] ["3"] =
    Rejected (ErrText "Line doesn't match headers format. Skipping") ∧
  (∃ s, run w cl writerFirst initial = Some s ∧
        status s = Exited 1 ∧
        stderr s = [ErrParse csv.ErrFieldCount] ∧
        stdout s = ["Writing JSON file..."] ∧
        sink s = Some (mkFile "dir/data.json" (Str.dq "[{'a':'1','b':'2'}") false)) ∧
  (∀ sched s, run w cl sched initial = Some s →
     status s ≠ Exited 0 ∧
     (∀ f, sink s = Some f → fclosed f = false) ∧
     Forall notice (stdout s)).
Proof.
  intros w cl. split_and!.
  - by vm_compute.
  - by vm_compute.
  - eexists. split; [by vm_compute|]. by vm_compute.
  - intros sched s Hr.
    assert (expected w cl = None) as Hexp by (by vm_compute).
    destruct (failed_conversion _ _ Hexp _ _ Hr) as [Hz Hopen].
    destruct (reachable_Inv _ _ _ _ Hr) as [HI _].
    split_and!; [done|done|apply HI].
Qed.

(** C8 as it is stated fails.  The third row of [bareQuote] cannot be
    read; one run ends with the first object in the output file, another
    with the opening bracket alone. *)
Lemma C8_counterexample :
  ¬ deterministicOutput (exampleWorld bareQuote) (exampleCmd "comma" false).
Proof.
  intros Hdet.
  assert (∃ s1, run (exampleWorld bareQuote) (exampleCmd "comma" false)
                  writerFirst initial = Some s1 ∧
                status s1 = Exited 1 ∧
                fdata <$> sink s1 = Some (Str.dq "[{'a':'1','b':'2'}"))
    as (s1 & Hr1 & Hs1 & Hd1).
  { eexists. split; [by vm_compute|]. by vm_compute. }
  assert (∃ s2, run (exampleWorld bareQuote) (exampleCmd "comma" false)
                  readerFirst initial = Some s2 ∧
                status s2 = Exited 1 ∧
                fdata <$> sink s2 = Some "[")
    as (s2 & Hr2 & Hs2 & Hd2).
  { eexists. split; [by vm_compute|]. by vm_compute. }
  assert (sink s1 = sink s2) as Heq.
  { apply (Hdet writerFirst readerFirst); [done|done|by eexists|by eexists]. }
  rewrite Heq, Hd2 in Hd1. by vm_compute in Hd1.
Qed.

(** C8, amended.  When one run ends with status 0, every completed run
    ends with status 0 and leaves the same output file: the document of the
    records that [processCsvFile] sends, which depends on the source, the
    separator and the flag [pretty] only. *)
Theorem C8_successful_runs_agree w cl sched1 sched2 s1 s2 :
  run w cl sched1 initial = Some s1 → run w cl sched2 initial = Some s2 →
  status s1 = Exited 0 → exited s2 →
  status s2 = Exited 0 ∧ sink s2 = sink s1 ∧
  ∃ fd evs,
    getFileData cl = inl fd ∧ processCsvFile w fd = (evs, Closed) ∧
    sink s1 = Some (mkFile (finalLocation (filepath fd))
                      (document (pretty fd) (sent evs)) true).
Proof.
  intros Hr1 Hr2 Hs1 Hex2.
  destruct (success_output _ _ _ _ Hr1 Hs1) as (fd & f & Hg & Hsk & Hn & Hc & He).
  destruct (conversion_runs _ _ _ He) as [_ Hevery].
  destruct (Hevery _ _ Hr1 ltac:(by eexists)) as (_ & fd1 & Hg1 & Hsk1).
  destruct (Hevery _ _ Hr2 Hex2) as (Hz2 & fd2 & Hg2 & Hsk2).
  rewrite Hg in Hg1, Hg2. injection Hg1 as <-. injection Hg2 as <-.
  split_and!; [done|by rewrite Hsk1, Hsk2|].
  apply expected_Some in He as (fd' & evs & Hg' & _ & _ & Hp & Hd).
  rewrite Hg in Hg'. injection Hg' as <-.
  exists fd, evs. split_and!; [done..|]. by rewrite Hsk1, Hd.
Qed.

Lemma C8_successful_runs_agree_witness :
  ∃ s1 s2,
    run (exampleWorld scenarioA) (exampleCmd "comma" false) twoRows initial = Some s1 ∧
    run (exampleWorld scenarioA) (exampleCmd "comma" false) twoRowsWriterAhead initial
      = Some s2 ∧
    status s2 = Exited 0 ∧ sink s2 = sink s1.
Proof.
  eexists _, _.
  assert (run (exampleWorld scenarioA) (exampleCmd "comma" false) twoRows initial
          = Some _) as Hr1 by (vm_compute; reflexivity).
  assert (run (exampleWorld scenarioA) (exampleCmd "comma" false)
            twoRowsWriterAhead initial = Some _) as Hr2 by (vm_compute; reflexivity).
  split; [exact Hr1|]. split; [exact Hr2|].
  destruct (C8_successful_runs_agree _ _ _ _ _ _ Hr1 Hr2) as (Hz & Hs & _).
  - reflexivity.
  - eexists. reflexivity.
  - split; [exact Hz|exact Hs].
Defined.

Lemma getFileData_inl cl fd :
  getFileData cl = inl fd →
  fd = mkInputFile (arg0 cl) (flagSeparator cl) (flagPretty cl).
Proof. unfold getFileData. repeat case_match; by intros [= <-]. Qed.

(** C7. A run with the flag [pretty] and a run without it, on the same
    source with the same separator, that both end with status 0 have
    written the documents of the same list of records, to the same file;
    the two texts differ by white space outside string literals only: with
    that white space taken out, the pretty text is the plain text, and the
    plain text holds none. *)
Theorem C7_pretty_is_white_space w cl cl' sched sched' s s' :
  nArgs cl' = nArgs cl → flagSeparator cl' = flagSeparator cl →
  arg0 cl' = arg0 cl →
  flagPretty cl = true → flagPretty cl' = false →
  run w cl sched initial = Some s → run w cl' sched' initial = Some s' →
  status s = Exited 0 → status s' = Exited 0 →
  ∃ f f' records,
    sink s = Some f ∧ sink s' = Some f' ∧ fname f = fname f' ∧
    fdata f = document true records ∧ fdata f' = document false records ∧
    json.elideSpace (fdata f) = fdata f' ∧
    json.elideSpace (fdata f') = fdata f'.
Proof.
  intros Hn Hsep Harg Hp Hp' Hr Hr' Hs Hs'.
  destruct (success_output _ _ _ _ Hr Hs) as (fd & f & Hg & Hsk & Hname & _ & He).
  destruct (success_output _ _ _ _ Hr' Hs')
    as (fd' & f' & Hg' & Hsk' & Hname' & _ & He').
  apply expected_Some in He as (fd0 & evs & Hg0 & _ & _ & Hread & Hd).
  apply expected_Some in He' as (fd0' & evs' & Hg0' & _ & _ & Hread' & Hd').
  rewrite Hg in Hg0. injection Hg0 as <-.
  rewrite Hg' in Hg0'. injection Hg0' as <-.
  apply getFileData_inl in Hg, Hg'. subst fd fd'. simpl in *.
  rewrite Hp in *. rewrite Hp' in *.
  rewrite (processCsvFile_pretty w _ (mkInputFile (arg0 cl) (flagSeparator cl) true))
    in Hread' by (simpl; congruence).
  rewrite Hread in Hread'. injection Hread' as <-.
  destruct (elide_document (sent evs)) as [Ht Hf].
  exists f, f', (sent evs).
  split_and!; [done|done|congruence|done|done|by rewrite Hd, Hd'|by rewrite Hd'].
Qed.

Lemma C7_pretty_is_white_space_witness :
  ∃ s s' f f',
    run (exampleWorld scenarioA) (exampleCmd "comma" true) twoRows initial = Some s ∧
    run (exampleWorld scenarioA) (exampleCmd "comma" false) twoRows initial = Some s' ∧
    sink s = Some f ∧ sink s' = Some f' ∧
    json.elideSpace (fdata f) = fdata f' ∧
    fdata f' = Str.dq "[{'a':'1','b':'2'},{'a':'3','b':'4'}]".
Proof.
  assert (∃ s, run (exampleWorld scenarioA) (exampleCmd "comma" true) twoRows initial
               = Some s ∧ status s = Exited 0) as (s & Hr & Hs).
  { eexists. split; vm_compute; reflexivity. }
  assert (∃ s', run (exampleWorld scenarioA) (exampleCmd "comma" false) twoRows initial
                = Some s' ∧ status s' = Exited 0 ∧
                fdata <$> sink s' =
                  Some (Str.dq "[{'a':'1','b':'2'},{'a':'3','b':'4'}]"))
    as (s' & Hr' & Hs' & Hd').
  { eexists. split; [|split]; vm_compute; reflexivity. }
  destruct (C7_pretty_is_white_space
              (exampleWorld scenarioA) (exampleCmd "comma" true)
              (exampleCmd "comma" false) twoRows twoRows s s')
    as (f & f' & records & Hsk & Hsk' & _ & _ & _ & He & _).
  - reflexivity.
  - reflexivity.
  - reflexivity.
  - reflexivity.
  - reflexivity.
  - exact Hr.
  - exact Hr'.
  - exact Hs.
  - exact Hs'.
  - exists s, s', f, f'. rewrite Hsk' in Hd'. injection Hd' as Hd'.
    split_and!; [exact Hr|exact Hr'|exact Hsk|exact Hsk'|exact He|exact Hd'].
Defined.

(** C6. When the input path does not exist, or its extension is not
    [.csv], the first step of [main] ends the process with status 1 and a
    message on the standard error stream; no goroutine is started and no
    output file is ever created. *)
Theorem C6_invalid_path_exits w cl fd :
  getFileData cl = inl fd →
  stat w (filepath fd) = StatNotExist ∨ filepath.Ext (filepath fd) ≠ ".csv" →
  (∃ s, run w cl [TMain] initial = Some s ∧ status s = Exited 1) ∧
  ∀ sched s, run w cl sched initial = Some s →
    sink s = None ∧ readerPC s = RIdle ∧ writerPC s = WIdle ∧
    (sched ≠ [] → sched = [TMain] ∧ status s = Exited 1 ∧
                  ∃ msg, stderr s = [ErrText msg]).
Proof.
  intros Hg Hbad.
  assert (∃ msg, checkIfValidFile w (filepath fd) = (false, Some (ErrText msg)))
    as [msg Hv].
  { unfold checkIfValidFile. case_bool_decide as Hext; simpl; [|by eexists].
    destruct Hbad as [->|Hne]; [by eexists|done]. }
  assert (step w cl TMain initial =
          Some (exitGracefully (ErrText msg) initial)) as Hmain.
  { unfold step, stepMain; simpl. by rewrite Hg, Hv. }
  split.
  - eexists. split; [simpl; by rewrite Hmain|done].
  - intros [|t sched] s; simpl.
    { intros [= <-]. by split_and!. }
    destruct t; [|done..]. rewrite Hmain.
    destruct sched as [|t' sched]; simpl; [|done].
    intros [= <-]. split_and!; [done..|]. intros _. split_and!; [done..|by eexists].
Qed.

Lemma C6_invalid_path_exits_witness :
  ∃ s,
    run (worldWith "elsewhere.csv" scenarioA) (exampleCmd "comma" false) [TMain] initial
      = Some s ∧
    status s = Exited 1.
Proof.
  refine (proj1 (C6_invalid_path_exits
                   (worldWith "elsewhere.csv" scenarioA) (exampleCmd "comma" false)
                   (mkInputFile examplePath "comma" false) _ _)).
  - reflexivity.
  - left. reflexivity.
Defined.

(** What one step does to the writer and to the output file. *)
Lemma writer_step_cases w cl sched s t s' fd :
  run w cl sched initial = Some s →
  step w cl t s = Some s' →
  fileData s' = Some fd →
  let bl := breakLine (pretty fd) in
  (phaseRank (phaseOf (writerPC s)) ≤ phaseRank (phaseOf (writerPC s')))%nat ∧
  (t ≠ TWriter → sink s' = sink s) ∧
  (∀ first, writerPC s = WRecv first → writerPC s' ≠ WRecv first →
     (t = TReader ∧ chanClosed s = false ∧ sink s' = sink s ∧
      ∃ headers rd record,
        readerPC s = RSend headers rd record ∧
        writerPC s' = if first then WObject record else WSeparator record) ∨
     (t = TWriter ∧ chanClosed s = true ∧ writerPC s' = WSignal ∧
      wrote (bl +:+ "]") true s s')) ∧
  (∀ record, writerPC s = WSeparator record → t = TWriter →
     writerPC s' = WObject record ∧ wrote ("," +:+ bl) false s s') ∧
  (∀ record, writerPC s = WObject record → t = TWriter →
     writerPC s' = WRecv false ∧ wrote (jsonFunc (pretty fd) record) false s s') ∧
  (phaseOf (writerPC s) = ClosedPhase →
     sink s' = sink s ∧ ∃ f, sink s = Some f ∧ fclosed f = true).
Proof.
  intros Hr Hstep Hfd bl.
  destruct (reachable_Inv _ _ _ _ Hr) as [[Hmain Hcl Hsig Hsink _ _ _ _ _ _] _].
  destruct s as [st fdat mpc rpc wpc cc sk out err]; simpl in *.
  unfold step in Hstep; simpl in Hstep. destruct st; [|done].
  destruct t.
  - unfold stepMain in Hstep; simpl in Hstep.
    unfold mainOK in Hmain; simpl in Hmain.
    destruct mpc; [|done|].
    + destruct Hmain as (-> & -> & ->).
      destruct (getFileData cl) as [fd'|e];
        [destruct (checkIfValidFile w (filepath fd')) as [b [e|]]|];
        injection Hstep as <-; simpl in *; split_and!; done.
    + destruct Hmain as (-> & -> & _). injection Hstep as <-; simpl in *.
      unfold sinkOK in Hsink. split_and!; done.
  - destruct fdat as [fd'|]; [|done]. unfold stepReader in Hstep; simpl in Hstep.
    assert (∀ x : State, Some x = Some s' → x = s') as Hinj by (by intros x [= ->]).
    destruct rpc as [ | |rd|h rd|h rd r| ]; try done.
    + destruct (contents w (filepath fd')); apply Hinj in Hstep as <-; simpl in *;
        (split_and!; [lia|done|done|done|done|]);
        intros Hp; split; [done| |done|]; destruct wpc as [ | | |[]| | | | ];
          simpl in *; done.
    + destruct (csv.Read rd) as [[line| |line e] rd'];
        apply Hinj in Hstep as <-; simpl in *;
        (split_and!; [lia|done|done|done|done|]);
        intros Hp; (split; [done|]); destruct wpc as [ | | |[]| | | | ];
          simpl in *; done.
    + destruct (csv.Read rd) as [[line| |line e] rd'];
        [destruct (processLine h line)| |];
        apply Hinj in Hstep as <-; simpl in *;
        (split_and!; [lia|done|done|done|done|]);
        intros Hp; (split; [done|]); destruct wpc as [ | | |[]| | | | ];
          simpl in *; done.
    + destruct wpc as [ | | |first| | | | ]; try done.
      apply Hinj in Hstep as <-; simpl in *.
      split_and!; [destruct first; simpl; lia|done| |done|done|by destruct first].
      intros first' [= <-] _. left. split_and!; [done| |done|by eexists _, _, _].
      by rewrite Hcl.
  - destruct fdat as [fd'|]; [|done]. simpl in *.
    assert (fd' = fd) as ->.
    { unfold stepWriter, writeString in Hstep; simpl in Hstep.
      destruct wpc; simpl in *; repeat case_match; simplify_eq/=; done. }
    unfold stepWriter, writeString in Hstep; simpl in Hstep.
    unfold sinkOK in Hsink.
    destruct wpc as [ | | |first|r|r| | ]; simpl in *; try done.
    + destruct (creatable w _); injection Hstep as <-; simpl; split_and!; done.
    + destruct Hsink as (f & -> & Hf). rewrite Hf in Hstep. simpl in Hstep.
      injection Hstep as <-; simpl. split_and!; done.
    + destruct Hsink as (f & -> & Hf). rewrite Hf in Hstep.
      destruct cc; [|done]. simpl in Hstep. injection Hstep as <-; simpl.
      split_and!; [destruct first; simpl; lia|done| |done|done|by destruct first].
      intros first' [= <-] _. right. split_and!; [done..|]. by exists f.
    + destruct Hsink as (f & -> & Hf). rewrite Hf in Hstep. simpl in Hstep.
      injection Hstep as <-; simpl. split_and!; [lia|done|done| |done|done].
      intros r' [= <-] _. split; [done|]. by exists f.
    + destruct Hsink as (f & -> & Hf). rewrite Hf in Hstep. simpl in Hstep.
      injection Hstep as <-; simpl. split_and!; [lia|done|done|done| |done].
      intros r' [= <-] _. split; [done|]. by exists f.
    + destruct mpc; [done| |done]. injection Hstep as <-; simpl.
      split_and!; [lia|done|done|done|done|]. intros _. split; [done|].
      destruct Hsink as (f & -> & Hf). by exists f.
Qed.

(** A step keeps the value that [getFileData] returned. *)
Lemma step_fileData w cl t s s' fd :
  Inv w cl s → step w cl t s = Some s' → fileData s = Some fd →
  fileData s' = Some fd.
Proof.
  intros [Hmain _ _ _ _ _ _ _ _ _].
  destruct s as [st fdat mpc rpc wpc cc sk out err]; simpl in *.
  intros Hstep ->. unfold step in Hstep; simpl in Hstep. destruct st; [|done].
  unfold mainOK in Hmain; simpl in Hmain.
  destruct t.
  - unfold stepMain in Hstep; simpl in Hstep. destruct mpc; [|done|].
    + by destruct Hmain as (_ & _ & ?).
    + by injection Hstep as <-.
  - unfold stepReader in Hstep; simpl in Hstep.
    destruct rpc as [ | |rd|h rd|h rd r| ]; try done.
    + destruct (contents w (filepath fd)); by injection Hstep as <-.
    + destruct (csv.Read rd) as [[] ?]; by injection Hstep as <-.
    + destruct (csv.Read rd) as [[line| |line e] ?];
        [destruct (processLine h line)| |]; by injection Hstep as <-.
    + destruct wpc; try done. by injection Hstep as <-.
  - unfold stepWriter, writeString in Hstep; simpl in Hstep.
    destruct wpc; simpl in *; repeat case_match; simplify_eq/=; done.
Qed.

(** Before the first receive the output file holds nothing but the opening
    bracket, followed by the line break in pretty mode. *)
Lemma reachable_opening w cl sched : ∀ s fd,
  run w cl sched initial = Some s → fileData s = Some fd →
  match writerPC s with
  | WOpenArray => ∃ f, sink s = Some f ∧ fdata f = ""
  | WRecv true => ∃ f, sink s = Some f ∧ fdata f = "[" +:+ breakLine (pretty fd)
  | _ => True
  end.
Proof.
  induction sched as [|t sched IH] using rev_ind; intros s fd.
  { by intros [= <-]. }
  rewrite run_app. destruct (run w cl sched initial) as [s0|] eqn:Hr0; [|done].
  simpl. destruct (step w cl t s0) as [s1|] eqn:Hs; [|done]. intros [= <-] Hfd.
  specialize (IH s0). 
  destruct (reachable_Inv _ _ _ _ Hr0) as [[Hmain _ _ Hsink _ _ _ _ _ _] _].
  destruct s0 as [st fdat mpc rpc wpc cc sk out err]; simpl in *.
  unfold step in Hs; simpl in Hs. destruct st; [|done].
  unfold mainOK in Hmain; simpl in Hmain.
  destruct t.
  - unfold stepMain in Hs; simpl in Hs. destruct mpc; [|done|].
    + destruct Hmain as (_ & -> & _).
      destruct (getFileData cl) as [fd'|e];
        [destruct (checkIfValidFile w (filepath fd')) as [b [e|]]|];
        by injection Hs as <-.
    + destruct Hmain as (_ & -> & _). by injection Hs as <-.
  - destruct fdat as [fd'|]; [|done]. unfold stepReader in Hs; simpl in Hs.
    specialize (IH fd' eq_refl eq_refl).
    destruct rpc as [ | |rd|h rd|h rd r| ]; try done.
    + destruct (contents w (filepath fd')); injection Hs as <-; simpl in *;
        by injection Hfd as <-.
    + destruct (csv.Read rd) as [[] ?]; injection Hs as <-; simpl in *;
        by injection Hfd as <-.
    + destruct (csv.Read rd) as [[line| |line e] ?];
        [destruct (processLine h line)| |]; injection Hs as <-; simpl in *;
        by injection Hfd as <-.
    + destruct wpc as [ | | |first| | | | ]; try done.
      injection Hs as <-. simpl. by destruct first.
  - destruct fdat as [fd'|]; [|done]. unfold stepWriter, writeString in Hs.
    simpl in Hs. specialize (IH fd' eq_refl eq_refl). unfold sinkOK in Hsink.
    destruct wpc as [ | | |first|r|r| | ]; simpl in *; try done.
    + destruct (creatable w _); injection Hs as <-; simpl in *; [by eexists|].
      by destruct IH.
    + destruct IH as (f & -> & Hd). destruct Hsink as (f' & [= <-] & Hf).
      rewrite Hf in Hs. simpl in Hs. injection Hs as <-. simpl in *.
      injection Hfd as <-. eexists. split; [done|]. simpl. by rewrite Hd.
    + destruct Hsink as (f & -> & Hf). rewrite Hf in Hs.
      destruct cc; [|done]. simpl in Hs. by injection Hs as <-.
    + destruct Hsink as (f & -> & Hf). rewrite Hf in Hs. simpl in Hs.
      by injection Hs as <-.
    + destruct Hsink as (f & -> & Hf). rewrite Hf in Hs. simpl in Hs.
      by injection Hs as <-.
    + destruct mpc; [done| |done]. by injection Hs as <-.
Qed.

(** Once the writer has been started, the value of [getFileData] is in
    place, and a step does not change it. *)
Lemma fileData_before w cl t s s' fd :
  Inv w cl s → step w cl t s = Some s' → fileData s' = Some fd →
  writerPC s ≠ WIdle → fileData s = Some fd.
Proof.
  intros HI Hstep Hfd Hpc. destruct (fileData s) as [fd0|] eqn:Hfd0.
  - by rewrite (step_fileData _ _ _ _ _ _ HI Hstep Hfd0) in Hfd.
  - destruct HI as [Hmain _ _ _ _ _ _ _ _ _]. unfold mainOK in Hmain.
    rewrite Hfd0 in Hmain. destruct (mainPC s).
    + by destruct Hmain as (_ & ? & _).
    + by destruct Hmain.
    + by destruct Hmain as (_ & _ & []).
Qed.



(** C9. The object written for a row lists its members by increasing byte
    order of the keys, whatever the order of the columns: the keys of the
    marshalled record are strictly increasing and are the names of the
    header, the pretty text is the indented form of the same text, and two
    rows that pair the same names with the same values in another order of
    columns are written alike.  The source of the two lines [b,a] and [2,1]
    gives the object with [a] before [b]. *)
Theorem C9_keys_sorted headers row headers' row' pretty :
  NoDup headers → length row = length headers → length row' = length headers' →
  zip headers row ≡ₚ zip headers' row' →
  let record := recordOf headers row in
  processLine headers row = Mapped record ∧
  jsonFunc false record =
    "{" +:+ Str.join "," (json.member <$> json.sortedEntries record) +:+ "}" ∧
  jsonFunc true record =
    "   " +:+ json.Indent (jsonFunc false record) "   " "   " ∧
  StronglySorted (λ a b, (a ?= b)%string = Lt) (json.sortedEntries record).*1 ∧
  (json.sortedEntries record).*1 ≡ₚ headers ∧
  processLine headers' row' = Mapped record ∧
  jsonFunc pretty (recordOf headers' row') = jsonFunc pretty record ∧
  (∀ sched s,
     run (exampleWorld swapped) (exampleCmd "comma" false) sched initial = Some s →
     exited s →
     sink s = Some (mkFile "dir/data.json" (Str.dq "[{'a':'1','b':'2'}]") true)).
Proof.
  intros Hnd Hlen Hlen' Hperm record.
  assert (recordOf headers' row' = record) as Heq
    by (symmetry; by apply recordOf_perm).
  split_and!.
  - by apply processLine_Mapped.
  - done.
  - done.
  - apply sortedEntries_sorted.
  - by apply recordOf_keys.
  - rewrite <-Heq. by apply processLine_Mapped.
  - by rewrite Heq.
  - intros sched s Hr Hex.
    assert (expected (exampleWorld swapped) (exampleCmd "comma" false) =
            Some (Str.dq "[{'a':'1','b':'2'}]")) as HA by (by vm_compute).
    destruct (conversion_runs _ _ _ HA) as [_ HeA].
    destruct (HeA _ _ Hr Hex) as (_ & fdA & HgA & ->).
    injection HgA as <-. by vm_compute.
Qed.

Lemma C9_keys_sorted_witness :
  (json.sortedEntries (recordOf ["b"; "a"] ["2"; "1"])).*1 ≡ₚ ["b"; "a"] ∧
  jsonFunc false (recordOf ["a"; "b"] ["1"; "2"]) =
    jsonFunc false (recordOf ["b"; "a"] ["2"; "1"]) ∧
  jsonFunc false (recordOf ["b"; "a"] ["2"; "1"]) = Str.dq "{'a':'1','b':'2'}".
Proof.
  destruct (C9_keys_sorted ["b"; "a"] ["2"; "1"] ["a"; "b"] ["1"; "2"] false)
    as (_ & _ & _ & _ & Hk & _ & Hj & _).
  - apply (bool_decide_unpack _). vm_compute. exact I.
  - reflexivity.
  - reflexivity.
  - simpl. apply perm_swap.
  - split; [exact Hk|]. split; [exact Hj|]. vm_compute. reflexivity.
Defined.

(** C10. With a header that names two columns alike, a row that has as
    many fields as the header is accepted; its record has fewer members than
    the header has columns, and so has the object written; under a name the
    record holds the field of the last column of that name.  The source of
    the two lines [a,a] and [1,2] gives one object, with [a] set to 2. *)
Theorem C10_repeated_names headers row :
  length row = length headers → ¬ NoDup headers →
  let record := recordOf headers row in
  processLine headers row = Mapped record ∧
  (size record < length headers)%nat ∧
  (length (json.sortedEntries record) < length headers)%nat ∧
  (∀ i name v, headers !! i = Some name → row !! i = Some v →
     (∀ j, (i < j)%nat → headers !! j ≠ Some name) →
     record !! name = Some v) ∧
  (∀ name, name ∈ headers → is_Some (record !! name)) ∧
  (∀ sched s,
     run (exampleWorld repeated) (exampleCmd "comma" false) sched initial = Some s →
     exited s →
     sink s = Some (mkFile "dir/data.json" (Str.dq "[{'a':'2'}]") true)).
Proof.
  intros Hlen Hdup record.
  assert (size record < length headers)%nat as Hsize.
  { unfold record. rewrite recordOf_size by done. by apply size_list_to_set_lt. }
  split_and!.
  - by apply processLine_Mapped.
  - done.
  - by rewrite sortedEntries_length.
  - intros i name v Hi Hv Hlast. by apply (recordOf_lookup _ _ i).
  - intros name Hin. apply elem_of_dom. unfold record.
    rewrite recordOf_dom by done. by apply elem_of_list_to_set.
  - intros sched s Hr Hex.
    assert (expected (exampleWorld repeated) (exampleCmd "comma" false) =
            Some (Str.dq "[{'a':'2'}]")) as HA by (by vm_compute).
    destruct (conversion_runs _ _ _ HA) as [_ HeA].
    destruct (HeA _ _ Hr Hex) as (_ & fdA & HgA & ->).
    injection HgA as <-. by vm_compute.
Qed.

Lemma C10_repeated_names_witness :
  processLine ["a"; "a"] ["1"; "2"] = Mapped (recordOf ["a"; "a"] ["1"; "2"]) ∧
  (size (recordOf ["a"; "a"] ["1"; "2"]) < 2)%nat ∧
  recordOf ["a"; "a"] ["1"; "2"] !! "a" = Some "2".
Proof.
  destruct (C10_repeated_names ["a"; "a"] ["1"; "2"])
    as (Hp & Hs & _ & Hl & _).
  - reflexivity.
  - apply (bool_decide_unpack _). vm_compute. exact I.
  - split; [exact Hp|]. split; [exact Hs|].
    apply (Hl 1%nat "a" "2"); [reflexivity|reflexivity|].
    intros j Hj. destruct j as [|[|j]]; [lia|lia|]. simpl. discriminate.
Defined.

(** * Further properties of the program *)

(** ** What every run shows *)

Lemma Observed_initial : Observed initial.
Proof. by constructor. Qed.

Ltac obs_close :=
  constructor; unfold startedOK, stderrOK in *; simpl in *; destruct_and?;
  first [ done | by split_and! | by eauto | idtac ].

Lemma step_Observed w cl t s s' :
  Inv w cl s → Observed s → step w cl t s = Some s' → Observed s'.
Proof.
  intros [Hmain Hcl Hsig Hsink Hrd Hst Hout Hdat Hval Hnm] [Hs Ho He].
  destruct s as [st fdat mpc rpc wpc cc sk out err]; simpl in *.
  unfold step; simpl. destruct st; [|done].
  unfold stderrOK in He; simpl in He. subst err.
  destruct t.
  - unfold stepMain; simpl. destruct mpc; [| done |]; inv_unfold; destruct_and?; subst.
    + destruct (getFileData cl) as [fd|e] eqn:Hg.
      * pose proof Hg as Hg'. unfold getFileData in Hg'.
        destruct (checkIfValidFile w (filepath fd)) as [b [e|]] eqn:Hv;
          intros [= <-]; obs_close.
        split; [done|]. exists e. split; [done|].
        unfold checkIfValidFile in Hv. repeat case_match; by simplify_eq/=.
      * intros [= <-]; obs_close. split; [done|]. exists e. split; [done|].
        unfold getFileData in Hg. repeat case_match; by simplify_eq/=.
    + intros [= <-]; obs_close.
  - destruct fdat as [fd|]; [|done]. unfold stepReader; simpl.
    destruct rpc as [ | |rd|h rd|h rd r| ]; try done.
    + destruct (contents w (filepath fd)); intros [= <-];
        destruct mpc; obs_close; try (split; [done|by eexists]).
    + destruct (csv.Read rd) as [res rd'] eqn:HR.
      destruct res; intros [= <-]; destruct mpc; obs_close;
        try (split; [done|by eexists]).
    + destruct (csv.Read rd) as [res rd'] eqn:HR.
      destruct (Read_spec _ _ _ HR) as (_ & _ & _ & _ & Hp & _).
      assert (0 < csv.FieldsPerRecord rd) as Hpos
        by (inv_unfold; destruct Hrd as [-> ?]; destruct h; simpl in *; [done|lia]).
      destruct (Hp Hpos) as [Hfpr Hlen].
      destruct res as [line| |line e];
        [rewrite processLine_Mapped
           by (inv_unfold; destruct Hrd as [Hk _]; specialize (Hlen line eq_refl); lia)| |];
        intros [= <-]; destruct mpc; obs_close; try (split; [done|by eexists]).
    + destruct wpc as [ | | |[]| | | | ]; try done; intros [= <-]; destruct mpc;
        obs_close.
  - destruct fdat as [fd|]; [|done]. unfold stepWriter; simpl.
    unfold sinkOK in Hsink.
    destruct wpc as [ | | |first|r|r| | ]; try done.
    + destruct (creatable w _); intros [= <-]; destruct mpc; obs_close;
        try (split; [done|by eexists]). all: by rewrite Ho.
    + destruct Hsink as (f & -> & Hf). unfold writeString; simpl. rewrite Hf.
      intros [= <-]; destruct mpc; obs_close.
    + destruct cc; [|done].
      destruct Hsink as (f & -> & Hf). unfold writeString; simpl. rewrite Hf.
      intros [= <-]; simpl in *; destruct mpc; obs_close. all: by rewrite Ho.
    + destruct Hsink as (f & -> & Hf). unfold writeString; simpl. rewrite Hf.
      intros [= <-]; destruct mpc; obs_close.
    + destruct Hsink as (f & -> & Hf). unfold writeString; simpl. rewrite Hf.
      intros [= <-]; destruct mpc; obs_close.
    + destruct mpc; try done. intros [= <-]. obs_close.
Qed.

Lemma reachable_Observed w cl sched s :
  run w cl sched initial = Some s → Observed s.
Proof.
  revert s. induction sched as [|t sched IH] using rev_ind; intros s.
  { intros [= <-]. apply Observed_initial. }
  rewrite run_app. destruct (run w cl sched initial) as [s0|] eqn:Hr0; [|done].
  simpl. destruct (step w cl t s0) as [s1|] eqn:Hs; [|done]. intros [= <-].
  eapply step_Observed; [|by apply IH|done]. by apply (reachable_Inv _ _ sched).
Qed.

(** ** Every run ends *)

Lemma sourceLines_open w cl fd src :
  getFileData cl = inl fd → contents w (filepath fd) = Some src →
  length (csv.pending (openReader fd src)) = sourceLines w cl.
Proof.
  intros Hg Ho. unfold sourceLines. rewrite Hg, Ho. by rewrite openReader_eq.
Qed.

Lemma step_stepsLeft w cl t s s' :
  Inv w cl s → step w cl t s = Some s' →
  (stepsLeft w cl s' < stepsLeft w cl s)%nat.
Proof.
  intros [Hmain Hcl Hsig Hsink Hrd Hst Hout Hdat Hval Hnm].
  destruct s as [st fdat mpc rpc wpc cc sk out err]; simpl in *.
  unfold step; simpl. destruct st; [|done].
  unfold stepsLeft at 2; simpl.
  destruct t.
  - unfold stepMain; simpl. destruct mpc; [| done |]; inv_unfold; destruct_and?; subst.
    + destruct (getFileData cl) as [fd|e];
        [destruct (checkIfValidFile w (filepath fd)) as [b [e|]]|];
        intros [= <-]; unfold stepsLeft; simpl; lia.
    + intros [= <-]; unfold stepsLeft; simpl; lia.
  - destruct fdat as [fd|]; [|done]. unfold stepReader; simpl.
    pose proof (Hdat _ eq_refl) as Hg.
    destruct rpc as [ | |rd|h rd|h rd r| ]; try done.
    + destruct (contents w (filepath fd)) as [src|] eqn:Ho; intros [= <-];
        unfold stepsLeft; simpl; [|lia].
      rewrite (sourceLines_open w cl fd src) by done. lia.
    + destruct (csv.Read rd) as [res rd'] eqn:HR.
      destruct (Read_spec _ _ _ HR) as (_ & Hle & Hlt & _).
      destruct res; intros [= <-]; unfold stepsLeft; simpl; lia.
    + destruct (csv.Read rd) as [res rd'] eqn:HR.
      destruct (Read_spec _ _ _ HR) as (_ & Hle & Hlt & _).
      destruct res as [line| |line e]; [destruct (processLine h line)| |];
        intros [= <-]; unfold stepsLeft; simpl; try lia.
      all: try (specialize (Hlt ltac:(done)); lia).
    + destruct wpc as [ | | |[]| | | | ]; try done; intros [= <-];
        unfold stepsLeft; simpl; lia.
  - destruct fdat as [fd|]; [|done]. unfold stepWriter; simpl.
    unfold sinkOK in Hsink.
    destruct wpc as [ | | |first|r|r| | ]; try done.
    + destruct (creatable w _); intros [= <-]; unfold stepsLeft; simpl; lia.
    + destruct Hsink as (f & -> & Hf). unfold writeString; simpl. rewrite Hf.
      intros [= <-]; unfold stepsLeft; simpl; lia.
    + destruct cc; [|done].
      destruct Hsink as (f & -> & Hf). unfold writeString; simpl. rewrite Hf.
      intros [= <-]; unfold stepsLeft; simpl; lia.
    + destruct Hsink as (f & -> & Hf). unfold writeString; simpl. rewrite Hf.
      intros [= <-]; unfold stepsLeft; simpl; lia.
    + destruct Hsink as (f & -> & Hf). unfold writeString; simpl. rewrite Hf.
      intros [= <-]; unfold stepsLeft; simpl; lia.
    + destruct mpc; try done. intros [= <-]. unfold stepsLeft; simpl; lia.
Qed.

Lemma run_stepsLeft w cl sched : ∀ s s',
  Inv w cl s → run w cl sched s = Some s' →
  (length sched + stepsLeft w cl s' ≤ stepsLeft w cl s)%nat.
Proof.
  induction sched as [|t sched IH]; intros s s' HI; simpl.
  { intros [= <-]. lia. }
  destruct (step w cl t s) as [s1|] eqn:Hs; [|done]. intros Hr.
  pose proof (step_stepsLeft _ _ _ _ _ HI Hs) as Hlt.
  pose proof (IH _ _ (step_Inv _ _ _ _ _ HI Hs) Hr) as Hle. lia.
Qed.

(** A state that is reached and in which the process has not exited lets
    one of the three move. *)
Lemma reachable_progress w cl sched s :
  run w cl sched initial = Some s → status s = Running →
  ∃ t s', step w cl t s = Some s'.
Proof.
  intros Hr Hst.
  destruct (reachable_Inv _ _ _ _ Hr)
    as [[Hmain Hcl Hsig Hsink Hrd _ _ Hdat Hval Hnm] _].
  destruct (reachable_Observed _ _ _ _ Hr) as [Hs _ _].
  destruct s as [st fdat mpc rpc wpc cc sk out err]; simpl in *. subst st.
  unfold startedOK in Hs; simpl in Hs. unfold step; simpl.
  destruct mpc.
  - exists TMain. unfold stepMain; simpl.
    destruct (getFileData cl) as [fd|e];
      [destruct (checkIfValidFile w (filepath fd)) as [b [e|]]|]; by eexists.
  - unfold mainOK in Hmain; simpl in Hmain.
    destruct Hmain as [fd ->]. destruct Hs as (Hr1 & Hw1 & Hw2).
    unfold sinkOK in Hsink. unfold signalOK in Hsig; simpl in Hsig.
    assert (∀ data close, wpc ≠ WIdle → wpc ≠ WCreate → wpc ≠ WSignal →
              ∃ s', writeString data close
                      (mkState Running (Some fd) MWait rpc wpc cc sk out err)
                    = Some s') as Hwrite.
    { intros data close ? ? ?. unfold writeString; simpl.
      destruct wpc as [ | | |first|r|r| | ]; try done;
        destruct Hsink as (f & -> & ->); by eexists. }
    destruct wpc as [ | | |first|r|r| | ]; try done.
    + exists TWriter. unfold stepWriter; simpl.
      destruct (creatable w _); by eexists.
    + exists TWriter. unfold stepWriter; simpl.
      destruct (Hwrite ("[" +:+ breakLine (pretty fd)) false) as [s1 ->]; [done..|].
      by eexists.
    + destruct rpc as [ | |rd|h rd|h rd r| ]; try done.
      * exists TReader. unfold stepReader; simpl.
        destruct (contents w (filepath fd)); by eexists.
      * exists TReader. unfold stepReader; simpl.
        destruct (csv.Read rd) as [[]]; by eexists.
      * exists TReader. unfold stepReader; simpl.
        destruct (csv.Read rd) as [[line| |line e] rd'];
          [destruct (processLine h line)| |]; by eexists.
      * exists TReader. unfold stepReader; simpl. by eexists.
      * exists TWriter. unfold stepWriter; simpl. simpl in Hcl. subst cc.
        destruct (Hwrite (breakLine (pretty fd) +:+ "]") true) as [s1 ->]; [done..|].
        by eexists.
    + exists TWriter. unfold stepWriter; simpl.
      destruct (Hwrite ("," +:+ breakLine (pretty fd)) false) as [s1 ->]; [done..|].
      by eexists.
    + exists TWriter. unfold stepWriter; simpl.
      destruct (Hwrite (jsonFunc (pretty fd) r) false) as [s1 ->]; [done..|].
      by eexists.
    + exists TWriter. unfold stepWriter; simpl. by eexists.
  - exists TMain. unfold stepMain; simpl. by eexists.
Qed.

(** Once [getFileData] has returned the values of the command line, so
    that [flag.Parse] has returned, the process ends with status 0 or 1.
    With status 0 nothing was written to the standard error stream, the two
    notices were printed and the output file is closed.  With status 1 an
    error was written to the standard error stream and the output file, if
    it was created, was never closed. *)
Theorem exit_status_and_streams w cl fd sched s code :
  getFileData cl = inl fd →
  run w cl sched initial = Some s → status s = Exited code →
  (code = 0 ∧ stderr s = [] ∧
   stdout s = ["Writing JSON file..."; "Completed!"] ∧
   ∃ f, sink s = Some f ∧ fclosed f = true) ∨
  (code = 1 ∧ stderr s ≠ [] ∧
   ∀ f, sink s = Some f → fclosed f = false).
Proof.
  intros _ Hr Hst.
  destruct (reachable_Inv _ _ _ _ Hr) as [[Hmain _ _ Hsink _ Hstat _ _ _ _] _].
  destruct (reachable_Observed _ _ _ _ Hr) as [_ Ho He].
  unfold stderrOK in He. unfold statusOK in Hstat. rewrite Hst in He, Hstat.
  case_bool_decide as Hc.
  - left. subst code. unfold mainOK in Hmain. rewrite Hstat in Hmain.
    destruct Hmain as (_ & Hw & _). rewrite Hw in Ho, Hsink.
    split_and!; done.
  - right. destruct He as [-> (e & He & _)]. split_and!; [done|by rewrite He|].
    apply (failed_conversion w cl (failure_output _ _ _ _ _ Hr Hst Hc) _ _ Hr).
Qed.

Lemma exit_status_and_streams_witness :
  ∃ s, run (exampleWorld bareQuote) (exampleCmd "comma" false) readerFirst initial
         = Some s ∧
       stderr s ≠ [] ∧ ∀ f, sink s = Some f → fclosed f = false.
Proof.
  assert (∃ s, run (exampleWorld bareQuote) (exampleCmd "comma" false) readerFirst
                 initial = Some s ∧ status s = Exited 1) as (s & Hr & Hst).
  { eexists. split; vm_compute; reflexivity. }
  destruct (exit_status_and_streams _ (exampleCmd "comma" false)
              (mkInputFile examplePath "comma" false) _ _ _ eq_refl Hr Hst)
    as [(Hc & _)|(_ & He & Hf)]; [discriminate Hc|].
  exists s. split; [exact Hr|]. split; [exact He|exact Hf].
Defined.

(** Once [getFileData] has returned the values of the command line, so
    that [flag.Parse] has returned, the standard output only ever holds the
    two notices of [writeJSONFile], in their order: the line that
    [processCsvFile] would print for a row it skips is never printed,
    whatever the source. *)
Theorem stdout_holds_the_notices_only w cl fd sched s :
  getFileData cl = inl fd →
  run w cl sched initial = Some s →
  stdout s `prefix_of` ["Writing JSON file..."; "Completed!"] ∧
  ∀ line msg, rejection line msg ∉ stdout s.
Proof.
  intros _ Hr. destruct (reachable_Observed _ _ _ _ Hr) as [_ Ho _].
  assert (stdout s `prefix_of` ["Writing JSON file..."; "Completed!"]) as Hp.
  { rewrite Ho. destruct (writerPC s); simpl;
      first [ by apply prefix_nil | by exists ["Completed!"] | by exists [] ]. }
  split; [done|]. intros line msg Hin.
  destruct Hp as [rest Hp].
  assert (rejection line msg ∈ ["Writing JSON file..."; "Completed!"]) as Hin'
    by (rewrite Hp; apply elem_of_app; by left).
  unfold rejection in Hin'.
  apply elem_of_cons in Hin' as [Heq|Hin']; [done|].
  apply elem_of_cons in Hin' as [Heq|Hin']; [done|].
  by apply elem_of_nil in Hin'.
Qed.

Lemma stdout_holds_the_notices_only_witness :
  ∃ s, run (exampleWorld scenarioC) (exampleCmd "comma" false) writerFirst initial
         = Some s ∧
       stdout s `prefix_of` ["Writing JSON file..."; "Completed!"].
Proof.
  assert (∃ s, run (exampleWorld scenarioC) (exampleCmd "comma" false) writerFirst
                 initial = Some s) as (s & Hr).
  { eexists. vm_compute. reflexivity. }
  exists s. split; [exact Hr|].
  exact (proj1 (stdout_holds_the_notices_only _ (exampleCmd "comma" false)
                  (mkInputFile examplePath "comma" false) _ _ eq_refl Hr)).
Defined.

(** No run goes on for ever: a run takes at most six steps for each line
    of the source file, and twenty-one more, whatever the schedule. *)
Theorem every_run_is_bounded w cl sched s :
  run w cl sched initial = Some s →
  (length sched ≤ 6 * sourceLines w cl + 21)%nat.
Proof.
  intros Hr.
  pose proof (run_stepsLeft _ _ _ _ _ (Inv_initial w cl) Hr) as Hle.
  unfold stepsLeft at 2 in Hle. simpl in Hle. lia.
Qed.

Lemma every_run_is_bounded_witness :
  (length twoRows ≤
   6 * sourceLines (exampleWorld scenarioA) (exampleCmd "comma" false) + 21)%nat.
Proof.
  assert (∃ s, run (exampleWorld scenarioA) (exampleCmd "comma" false) twoRows
                 initial = Some s) as (s & Hr).
  { eexists. vm_compute. reflexivity. }
  exact (every_run_is_bounded _ _ _ _ Hr).
Defined.

(** The goroutines never block each other for good: from every state that
    a run reaches, some schedule leads to the end of the process; and while
    the process has not exited one of the three can move. *)
Theorem every_run_can_be_completed w cl sched s :
  run w cl sched initial = Some s →
  (status s = Running → ∃ t s', step w cl t s = Some s') ∧
  ∃ sched' s', run w cl sched' s = Some s' ∧ exited s'.
Proof.
  intros Hr. split; [by apply (reachable_progress _ _ sched)|].
  remember (stepsLeft w cl s) as n eqn:Hn.
  revert sched s Hr Hn. induction (lt_wf n) as [n _ IH]. intros sched s Hr ->.
  destruct (status s) as [|code] eqn:Hst.
  - destruct (reachable_progress _ _ _ _ Hr Hst) as (t & s1 & Hs).
    destruct (reachable_Inv _ _ _ _ Hr) as [HI _].
    pose proof (step_stepsLeft _ _ _ _ _ HI Hs) as Hlt.
    assert (run w cl (sched ++ [t]) initial = Some s1) as Hr1.
    { rewrite run_app, Hr. simpl. by rewrite Hs. }
    destruct (IH _ Hlt _ _ Hr1 eq_refl) as (sched' & s' & Hr' & Hex).
    exists (t :: sched'), s'. split; [|done]. simpl. by rewrite Hs.
  - exists [], s. split; [done|by exists code].
Qed.

Lemma every_run_can_be_completed_witness :
  ∃ s sched' s',
    run (exampleWorld scenarioA) (exampleCmd "comma" false) firstReceived initial
      = Some s ∧
    run (exampleWorld scenarioA) (exampleCmd "comma" false) sched' s = Some s' ∧
    exited s'.
Proof.
  assert (∃ s, run (exampleWorld scenarioA) (exampleCmd "comma" false) firstReceived
                 initial = Some s) as (s & Hr).
  { eexists. vm_compute. reflexivity. }
  destruct (every_run_can_be_completed _ _ _ _ Hr) as (_ & sched' & s' & Hr' & Hex).
  exists s, sched', s'. split; [exact Hr|]. split; [exact Hr'|exact Hex].
Defined.

(** ** Conversions that fail *)

(** A row that has not as many fields as the header, fewer or more, ends
    the conversion: the rows before it are sent, the reader's error is
    fatal, every completed run ends with status 1 and without a line about
    a skipped row, and the output file is never closed. *)
Theorem field_count_mismatch_is_fatal w cl fd src headers rows row rest :
  getFileData cl = inl fd →
  contents w (filepath fd) = Some src →
  csv.ReadAll (csv.unchecked (openReader fd src)) =
    Some (inl (headers :: rows ++ row :: rest)) →
  Forall (λ r, length r = length headers) rows →
  length row ≠ length headers →
  processCsvFile w fd =
    (Send <$> (recordOf headers <$> rows), Fatal (ErrParse csv.ErrFieldCount)) ∧
  (∃ sched s, run w cl sched initial = Some s ∧ status s = Exited 1) ∧
  ∀ sched s, run w cl sched initial = Some s →
    (exited s → status s = Exited 1) ∧
    (∀ f, sink s = Some f → fclosed f = false) ∧
    (∀ line msg, rejection line msg ∉ stdout s).
Proof.
  intros Hg Ho Hall Hlen Hrow.
  pose proof (expected_mismatch _ _ _ _ _ _ _ _ Hg Ho Hall Hlen Hrow) as Hexp.
  assert (∀ sched s, run w cl sched initial = Some s → exited s →
            status s = Exited 1) as Hone.
  { intros sched s Hr [code Hst].
    destruct (failed_conversion _ _ Hexp _ _ Hr) as [Hz _].
    destruct (reachable_Observed _ _ _ _ Hr) as [_ _ He].
    unfold stderrOK in He. rewrite Hst in He, Hz |- *.
    case_bool_decide; [congruence|]. by destruct He as [-> _]. }
  split_and!.
  - by eapply processCsvFile_mismatch.
  - destruct (run_completes w cl) as (sched & s & Hr & Hex).
    exists sched, s. split; [done|]. by apply (Hone sched).
  - intros sched s Hr. split_and!.
    + by apply (Hone sched).
    + by apply (failed_conversion _ _ Hexp _ _ Hr).
    + intros line msg Hin.
      destruct (reachable_Inv _ _ _ _ Hr) as [[_ _ _ _ _ _ Hout _ _ _] _].
      rewrite Forall_forall in Hout. by destruct (Hout _ Hin).
Qed.

Lemma field_count_mismatch_is_fatal_witness :
  ∃ sched s,
    run (exampleWorld scenarioC) (exampleCmd "comma" false) sched initial = Some s ∧
    status s = Exited 1.
Proof.
  refine (proj1 (proj2 (field_count_mismatch_is_fatal
                   (exampleWorld scenarioC) (exampleCmd "comma" false)
                   (mkInputFile examplePath "comma" false) scenarioC
                   ["a"; "b"] [["1"; "2"]] ["3"] [] _ _ _ _ _))).
  - reflexivity.
  - reflexivity.
  - vm_compute. reflexivity.
  - repeat constructor.
  - simpl. lia.
Defined.

(** A conversion whose reading loop does not end by closing the channel is
    not expected to succeed. *)
Lemma expected_not_closed w cl fd evs e :
  getFileData cl = inl fd → processCsvFile w fd = (evs, e) → e ≠ Closed →
  expected w cl = None.
Proof.
  intros Hg Hp He. destruct (expected w cl) as [out|] eqn:Hexp; [|done].
  apply expected_Some in Hexp as (fd' & evs' & Hg' & _ & _ & Hp' & _).
  rewrite Hg in Hg'. injection Hg' as <-. congruence.
Qed.

(** What [main] does with a command line and a path that pass the checks. *)
Lemma run_main w cl fd :
  getFileData cl = inl fd → (checkIfValidFile w (filepath fd)).2 = None →
  step w cl TMain initial =
    Some (mkState Running (Some fd) MWait ROpen WCreate false None [] []).
Proof.
  intros Hg Hv. unfold step, stepMain; simpl. rewrite Hg.
  by destruct (checkIfValidFile w (filepath fd)) as [b [e|]].
Qed.

Lemma writer_waits_for_create w cl fd :
  getFileData cl = inl fd → creatable w (finalLocation (filepath fd)) = false →
  ∀ sched s, run w cl sched initial = Some s →
    writerPC s = WIdle ∨ writerPC s = WCreate.
Proof.
  intros Hg Hc sched. induction sched as [|t sched IH] using rev_ind; intros s.
  { intros [= <-]. by left. }
  rewrite run_app. destruct (run w cl sched initial) as [s0|] eqn:Hr0; [|done].
  simpl. destruct (step w cl t s0) as [s1|] eqn:Hs; [|done]. intros [= <-].
  specialize (IH _ eq_refl).
  destruct (reachable_Inv _ _ _ _ Hr0) as [[_ _ _ _ _ _ _ Hdat _ _] _].
  destruct s0 as [st fdat mpc rpc wpc cc sk out err]; simpl in *.
  unfold step in Hs; simpl in Hs. destruct st; [|done]. destruct t.
  - unfold stepMain in Hs; simpl in Hs. destruct mpc; [|done|].
    + destruct (getFileData cl) as [fd'|e];
        [destruct (checkIfValidFile w (filepath fd')) as [b [e|]]|];
        injection Hs as <-; simpl; tauto.
    + injection Hs as <-; simpl; tauto.
  - destruct fdat as [fd'|]; [|done]. unfold stepReader in Hs; simpl in Hs.
    destruct rpc as [ | |rd|h rd|h rd r| ]; try done.
    + destruct (contents w (filepath fd')); by injection Hs as <-.
    + destruct (csv.Read rd) as [[] ?]; by injection Hs as <-.
    + destruct (csv.Read rd) as [[line| |line e] ?];
        [destruct (processLine h line)| |]; by injection Hs as <-.
    + destruct IH as [->| ->]; done.
  - destruct fdat as [fd'|]; [|done]. unfold stepWriter in Hs; simpl in Hs.
    pose proof (Hdat _ eq_refl) as Hg'. rewrite Hg in Hg'. injection Hg' as <-.
    destruct IH as [->| ->]; [done|]. rewrite Hc in Hs.
    injection Hs as <-. by right.
Qed.

(** When the output file cannot be created, [createStringWriter] ends the
    process with status 1 and the error of [os.Create]; no run ends with
    status 0, and no output file exists at any moment. *)
Theorem output_file_cannot_be_created w cl fd :
  getFileData cl = inl fd →
  (checkIfValidFile w (filepath fd)).2 = None →
  creatable w (finalLocation (filepath fd)) = false →
  (∃ s, run w cl [TMain; TWriter] initial = Some s ∧ status s = Exited 1 ∧
        stderr s = [ErrPath "open" (finalLocation (filepath fd))]) ∧
  ∀ sched s, run w cl sched initial = Some s →
    sink s = None ∧ status s ≠ Exited 0 ∧ stdout s = [].
Proof.
  intros Hg Hv Hc. split.
  - eexists. split.
    + rewrite (run_cons _ _ _ _ _ _ (run_main _ _ _ Hg Hv)).
      simpl. unfold step, stepWriter; simpl. by rewrite Hc.
    + done.
  - intros sched s Hr.
    pose proof (writer_waits_for_create _ _ _ Hg Hc _ _ Hr) as Hw.
    destruct (reachable_Inv _ _ _ _ Hr) as [[_ _ _ Hsink _ _ _ _ _ _] _].
    destruct (reachable_Observed _ _ _ _ Hr) as [_ Ho _].
    unfold sinkOK in Hsink. split_and!.
    + by destruct Hw as [Hw|Hw]; rewrite Hw in Hsink.
    + assert (expected w cl = None) as Hexp.
      { destruct (expected w cl) as [out|] eqn:Hexp; [|done].
        apply expected_Some in Hexp as (fd' & evs' & Hg' & _ & Hc' & _).
        rewrite Hg in Hg'. injection Hg' as <-. congruence. }
      by apply (failed_conversion _ _ Hexp _ _ Hr).
    + rewrite Ho. by destruct Hw as [-> | ->].
Qed.

Lemma output_file_cannot_be_created_witness :
  ∃ s, run (readOnlyWorld scenarioA) (exampleCmd "comma" false) [TMain; TWriter]
         initial = Some s ∧
       status s = Exited 1 ∧ stderr s = [ErrPath "open" "dir/data.json"].
Proof.
  refine (proj1 (output_file_cannot_be_created
                   (readOnlyWorld scenarioA) (exampleCmd "comma" false)
                   (mkInputFile examplePath "comma" false) _ _ _)).
  - reflexivity.
  - reflexivity.
  - reflexivity.
Defined.

(** [checkIfValidFile] accepts a path that [os.Stat] refuses for another
    reason than the absence of the file, and it does not open the file.
    When [os.Open] then fails, the process ends with status 1, but the
    writer may have created the output file by then: one run leaves no
    output file, another leaves one that holds the opening bracket.  No run
    ends with status 0 or closes the file. *)
Theorem input_cannot_be_opened w cl fd :
  getFileData cl = inl fd →
  (checkIfValidFile w (filepath fd)).2 = None →
  contents w (filepath fd) = None →
  creatable w (finalLocation (filepath fd)) = true →
  (∃ s, run w cl [TMain; TReader] initial = Some s ∧ status s = Exited 1 ∧
        stderr s = [ErrPath "open" (filepath fd)] ∧ sink s = None) ∧
  (∃ s, run w cl [TMain; TWriter; TWriter; TReader] initial = Some s ∧
        status s = Exited 1 ∧
        stderr s = [ErrPath "open" (filepath fd)] ∧
        sink s = Some (mkFile (finalLocation (filepath fd))
                         ("[" +:+ breakLine (pretty fd)) false)) ∧
  ∀ sched s, run w cl sched initial = Some s →
    status s ≠ Exited 0 ∧ ∀ f, sink s = Some f → fclosed f = false.
Proof.
  intros Hg Hv Ho Hc. split_and!.
  - eexists. split.
    + rewrite (run_cons _ _ _ _ _ _ (run_main _ _ _ Hg Hv)).
      simpl. unfold step, stepReader; simpl. by rewrite Ho.
    + done.
  - eexists. split.
    + rewrite (run_cons _ _ _ _ _ _ (run_main _ _ _ Hg Hv)).
      simpl. unfold step, stepWriter, stepReader, writeString; simpl.
      rewrite Hc. simpl. by rewrite Ho.
    + done.
  - assert (expected w cl = None) as Hexp.
    { apply (expected_not_closed _ _ fd [] (Fatal (ErrPath "open" (filepath fd))));
        [done| |done].
      unfold processCsvFile. by rewrite Ho. }
    intros sched s Hr. by apply (failed_conversion _ _ Hexp _ _ Hr).
Qed.

Lemma input_cannot_be_opened_witness :
  ∃ s, run lockedWorld (exampleCmd "comma" false) [TMain; TWriter; TWriter; TReader]
         initial = Some s ∧
       status s = Exited 1 ∧
       stderr s = [ErrPath "open" "dir/data.csv"] ∧
       sink s = Some (mkFile "dir/data.json" "[" false).
Proof.
  refine (proj1 (proj2 (input_cannot_be_opened
                   lockedWorld (exampleCmd "comma" false)
                   (mkInputFile examplePath "comma" false) _ _ _ _))).
  - reflexivity.
  - reflexivity.
  - reflexivity.
  - reflexivity.
Defined.

(** The lines of a source made of line feeds only, and what the reader
    makes of them: they are skipped, up to the end of the source. *)
Lemma cutLines_blank n : csv.cutLines "" (Str.repeat LF n) = replicate n LF.
Proof.
  induction n as [|n IH]; [done|].
  change (Str.repeat LF (S n)) with (String Byte.LF (Str.repeat LF n)).
  cbn [csv.cutLines]. rewrite byte_eqb_refl. by rewrite IH.
Qed.

Lemma parseRecord_blank c n :
  csv.parseRecord c (replicate n LF) = (csv.EOF, []).
Proof. induction n as [|n IH]; [done|]. simpl. exact IH. Qed.

(** A source file that is empty, or holds empty lines only, has no header:
    the first [Read] returns [io.EOF], which ends the process with status 1.
    No run ends with status 0 or closes the output file. *)
Theorem source_without_header w cl fd n :
  getFileData cl = inl fd →
  (checkIfValidFile w (filepath fd)).2 = None →
  contents w (filepath fd) = Some (Str.repeat LF n) →
  (∃ s, run w cl [TMain; TReader; TReader] initial = Some s ∧
        status s = Exited 1 ∧ stderr s = [ErrEOF] ∧ sink s = None) ∧
  ∀ sched s, run w cl sched initial = Some s →
    status s ≠ Exited 0 ∧ ∀ f, sink s = Some f → fclosed f = false.
Proof.
  intros Hg Hv Ho.
  assert (∃ rd, csv.Read (openReader fd (Str.repeat LF n)) = (csv.EOF, rd))
    as [rd HR].
  { rewrite openReader_eq, Read_first, cutLines_blank, parseRecord_blank.
    by eexists. }
  split.
  - eexists. split.
    + rewrite (run_cons _ _ _ _ _ _ (run_main _ _ _ Hg Hv)).
      simpl. unfold step, stepReader; simpl. rewrite Ho. simpl. by rewrite HR.
    + done.
  - assert (expected w cl = None) as Hexp.
    { apply (expected_not_closed _ _ fd [] (Fatal ErrEOF)); [done| |done].
      unfold processCsvFile. by rewrite Ho, HR. }
    intros sched s Hr. by apply (failed_conversion _ _ Hexp _ _ Hr).
Qed.

Lemma source_without_header_witness :
  ∃ s, run (exampleWorld "") (exampleCmd "comma" false) [TMain; TReader; TReader]
         initial = Some s ∧
       status s = Exited 1 ∧ stderr s = [ErrEOF] ∧ sink s = None.
Proof.
  refine (proj1 (source_without_header
                   (exampleWorld "") (exampleCmd "comma" false)
                   (mkInputFile examplePath "comma" false) 0 _ _ _)).
  - reflexivity.
  - reflexivity.
  - reflexivity.
Defined.

(** ** The command line *)

(** A command line of fewer than two words, or a separator that is neither
    [comma] nor [semicolon], ends the process at the first step of [main]
    with status 1 and the message of [getFileData]; the missing argument is
    reported first.  Nothing else happens: no goroutine is started, nothing
    is printed, no file is created. *)
Theorem bad_command_line w cl :
  (nArgs cl < 2)%nat ∨
  (flagSeparator cl ≠ "comma" ∧ flagSeparator cl ≠ "semicolon") →
  let msg := if bool_decide (nArgs cl < 2)%nat
             then "A filepath argument is required"
             else "Only comma or semicolon separators are allowed" in
  getFileData cl = inr (ErrText msg) ∧
  (∃ s, run w cl [TMain] initial = Some s ∧ status s = Exited 1 ∧
        stderr s = [ErrText msg]) ∧
  ∀ sched s, run w cl sched initial = Some s →
    (sched = [] ∨ sched = [TMain]) ∧
    sink s = None ∧ stdout s = [] ∧ readerPC s = RIdle ∧ writerPC s = WIdle.
Proof.
  intros Hbad msg.
  assert (getFileData cl = inr (ErrText msg)) as Hg.
  { unfold getFileData, msg. case_bool_decide; [done|].
    destruct Hbad as [?|[H1 H2]]; [done|].
    by rewrite (bool_decide_false _ H1), (bool_decide_false _ H2). }
  assert (step w cl TMain initial = Some (exitGracefully (ErrText msg) initial))
    as Hmain.
  { unfold step, stepMain; simpl. by rewrite Hg. }
  split_and!; [done| |].
  - eexists. split; [simpl; by rewrite Hmain|done].
  - intros [|t sched] s; simpl.
    { intros [= <-]. split_and!; [by left|done..]. }
    destruct t; [|done..]. rewrite Hmain.
    destruct sched as [|t' sched]; simpl; [|done].
    intros [= <-]. split_and!; [by right|done..].
Qed.

Lemma bad_command_line_witness :
  ∃ s, run (exampleWorld scenarioA) (exampleCmd "tab" false) [TMain] initial = Some s ∧
       status s = Exited 1 ∧
       stderr s = [ErrText "Only comma or semicolon separators are allowed"].
Proof.
  refine (proj1 (proj2 (bad_command_line
                          (exampleWorld scenarioA) (exampleCmd "tab" false) _))).
  right. split; apply (bool_decide_unpack _); vm_compute; exact I.
Defined.

(** ** The place of the output file *)

Section Places.
Import filepath.

Lemma dirPart_noSep b : noSep b → dirPart b = "".
Proof.
  induction b as [|c b IH]; [done|]. intros [Hc Hb]. cbn [dirPart].
  rewrite Hc. by apply IH.
Qed.

Lemma dirPart_stop b y :
  noSep b → dirPart (b +:+ String Byte.SLASH y) = String.rev (String Byte.SLASH y).
Proof.
  induction b as [|c b IH]; intros Hb.
  - by rewrite sapp_nil_l.
  - destruct Hb as [Hc Hb]. rewrite sapp_cons. cbn [dirPart]. rewrite Hc.
    by apply IH.
Qed.

Lemma noSep_csv stem : noSep stem → noSep (stem +:+ ".csv").
Proof. intros Hs. apply noSep_app. split; [done|]. by repeat split. Qed.

Lemma Dir_bare name : noSep name → Dir name = ".".
Proof.
  intros Hn. unfold Dir. by rewrite dirPart_noSep by (by apply noSep_rev).
Qed.

Lemma Dir_joined d name : noSep name → Dir (d +:+ "/" +:+ name) = Clean (d +:+ "/").
Proof.
  intros Hn. unfold Dir. rewrite !srev_app. change (String.rev "/") with "/".
  rewrite sapp_assoc, sapp_cons, sapp_nil_l.
  change (String "/"%char (String.rev d)) with (String Byte.SLASH (String.rev d)).
  rewrite dirPart_stop by (by apply noSep_rev).
  by rewrite srev_cons, srev_involutive.
Qed.

Lemma lastElem_all b seen : noSep b → lastElem b seen = String.rev b +:+ seen.
Proof.
  revert seen. induction b as [|c b IH]; intros seen Hb; [done|].
  destruct Hb as [Hc Hb]. cbn [lastElem]. rewrite Hc, IH by done.
  by rewrite srev_cons, sapp_assoc.
Qed.

Lemma Base_bare name : noSep name → name ≠ "" → Base name = name.
Proof.
  intros Hn Hne. unfold Base. rewrite bool_decide_false by done.
  assert (dropSeps (String.rev name) = String.rev name) as ->.
  { destruct (String.rev name) as [|c r] eqn:Hr; [done|].
    apply noSep_rev in Hn. rewrite Hr in Hn. destruct Hn as [Hc _].
    by apply dropSeps_cons. }
  rewrite lastElem_all by (by apply noSep_rev).
  rewrite srev_involutive, sapp_nil_r. by rewrite bool_decide_false.
Qed.

End Places.

(** The output file of a source [stem.csv] named without directory is
    [./stem.json]; of a source in a directory, it is [stem.json] under the
    cleaned-up name of that directory; for a source just under the root this
    gives a name that begins with two slashes. *)
Theorem finalLocation_by_directory stem :
  filepath.noSep stem →
  finalLocation (stem +:+ ".csv") = "./" +:+ stem +:+ ".json" ∧
  (∀ d, finalLocation (d +:+ "/" +:+ stem +:+ ".csv") =
        filepath.Clean (d +:+ "/") +:+ "/" +:+ stem +:+ ".json") ∧
  finalLocation ("/" +:+ stem +:+ ".csv") = "//" +:+ stem +:+ ".json".
Proof.
  intros Hs.
  pose proof (noSep_csv _ Hs) as Hn.
  assert (stem +:+ ".csv" ≠ "") as Hne by (by apply sapp_nonempty).
  assert (∀ d, finalLocation (d +:+ "/" +:+ stem +:+ ".csv") =
               filepath.Clean (d +:+ "/") +:+ "/" +:+ stem +:+ ".json") as Hd.
  { intros d. unfold finalLocation.
    by rewrite Dir_joined, Base_joined, trimSuffix_app. }
  split_and!.
  - unfold finalLocation. by rewrite Dir_bare, Base_bare, trimSuffix_app.
  - done.
  - exact (Hd "").
Qed.

Lemma finalLocation_by_directory_witness :
  finalLocation "data.csv" = "./data.json" ∧
  finalLocation "/data.csv" = "//data.json".
Proof.
  destruct (finalLocation_by_directory "data") as (H1 & _ & H3).
  - vm_compute. repeat split.
  - split; [exact H1|exact H3].
Defined.

(** [checkIfValidFile] accepts exactly the paths that end with the four
    bytes [.csv] and that [os.Stat] does not report as absent; it returns an
    error exactly when it returns [false], and when both checks fail the
    error is the one about the extension. *)
Theorem valid_file_iff w path :
  (checkIfValidFile w path = (true, None) ↔
   (∃ q, path = q +:+ ".csv") ∧ stat w path ≠ StatNotExist) ∧
  ((checkIfValidFile w path).1 = false ↔ is_Some (checkIfValidFile w path).2) ∧
  ((∀ q, path ≠ q +:+ ".csv") →
   checkIfValidFile w path =
     (false, Some (ErrText ("File " +:+ path +:+ " is not CSV")))).
Proof.
  assert (filepath.Ext path = ".csv" ↔ ∃ q, path = q +:+ ".csv") as Hext.
  { split; [apply Ext_csv|]. intros [q ->].
    unfold filepath.Ext. rewrite srev_app. change (String.rev ".csv") with "vsc.".
    rewrite !sapp_cons. rewrite !extFrom_cons by done. cbn [filepath.extFrom].
    change (filepath.isSep ".") with false.
    by change (Byte.eqb "." Byte.DOT) with true. }
  unfold checkIfValidFile. split_and!.
  - case_bool_decide as He; simpl.
    + destruct (stat w path); split; try done.
      * intros _. split; [by apply Hext|done].
      * by intros [_ ?].
      * intros _. split; [by apply Hext|done].
    + split; [done|]. intros [Hq _]. by apply Hext in Hq.
  - case_bool_decide; simpl; [destruct (stat w path)|]; simpl;
      split; try done; by intros [? [=]].
  - intros Hno. rewrite bool_decide_false; [done|].
    intros (q & ->)%Hext. by apply (Hno q).
Qed.

(** ** [processLine] on any row *)

Lemma fold_put_source (l : list (string * string)) (m : gmap string string) k v :
  foldl (λ m kv, <[kv.1 := kv.2]> m) m l !! k = Some v →
  m !! k = Some v ∨ (k, v) ∈ l.
Proof.
  revert m. induction l as [|[k' v'] l IH]; intros m; simpl; [by left|].
  intros [Hm|Hin]%IH.
  - simpl in Hm. apply lookup_insert_Some in Hm as [[-> ->]|[_ Hm]].
    + right. by left.
    + by left.
  - right. by right.
Qed.

(** [processLine] never reads past the end of the row: on every header and
    every row it returns a map or the error, the map exactly when the row
    has as many fields as the header.  The keys of the map are the names of
    the header, and each of its values is the field of the row in a column
    of that name. *)
Theorem processLine_on_any_row headers row :
  processLine headers row ≠ Panic ∧
  (length row = length headers ↔ ∃ m, processLine headers row = Mapped m) ∧
  (length row ≠ length headers ↔ ∃ err, processLine headers row = Rejected err) ∧
  ∀ m, processLine headers row = Mapped m →
    dom m = list_to_set headers ∧
    ∀ name v, m !! name = Some v →
      ∃ i, headers !! i = Some name ∧ row !! i = Some v.
Proof.
  destruct (decide (length row = length headers)) as [Hlen|Hlen].
  - rewrite processLine_Mapped by done. split_and!; [done| | |].
    + split; [by eexists|done].
    + split; [done|by intros [? ?]].
    + intros m [= <-]. split; [by apply recordOf_dom|].
      intros name v Hm. unfold recordOf in Hm.
      apply fold_put_source in Hm as [Hm|Hin]; [done|].
      apply list_elem_of_lookup in Hin as [i Hi].
      apply lookup_zip_with_Some in Hi as (x & y & [= -> ->] & Hx & Hy).
      by exists i.
  - rewrite processLine_Rejected by done. split_and!; [done| | |done].
    + split; [done|by intros [? ?]].
    + split; [by eexists|done].
Qed.

(** ** Reading back the text of a table *)

Lemma rev_cons_app {A} (x : A) l : rev (x :: l) = rev l ++ [x].
Proof. done. Qed.

Lemma hasSuffix_app s t : Str.hasSuffix (s +:+ t) t = true.
Proof. unfold Str.hasSuffix. rewrite srev_app. apply prefix_app. Qed.

Lemma commaOf_spec fd :
  commaOf fd ≠ Byte.DQUOTE ∧ commaOf fd ≠ Byte.LF ∧ commaOf fd ≠ Byte.CR.
Proof. unfold commaOf. by case_bool_decide. Qed.

Lemma noLF_app s t : noLF (s +:+ t) ↔ noLF s ∧ noLF t.
Proof.
  induction s as [|c s IH]; [by rewrite sapp_nil_l; intuition|].
  rewrite sapp_cons. cbn [noLF]. rewrite IH. tauto.
Qed.

Lemma noCR_app s t : noCR (s +:+ t) ↔ noCR s ∧ noCR t.
Proof.
  induction s as [|c s IH]; [by rewrite sapp_nil_l; intuition|].
  rewrite sapp_cons. cbn [noCR]. rewrite IH. tauto.
Qed.

Lemma doubleQuotes_lines f :
  noLF f ∧ noCR f → noLF (doubleQuotes f) ∧ noCR (doubleQuotes f).
Proof.
  induction f as [|b f IH]; [done|]. intros [[H1 H2] [H3 H4]].
  destruct (IH (conj H2 H4)) as [? ?]. cbn [doubleQuotes].
  destruct (Byte.eqb b Byte.DQUOTE); by repeat split.
Qed.

Lemma cutLines_line cur body rest :
  noLF body →
  csv.cutLines cur (body +:+ String Byte.LF rest) =
    String.rev (String Byte.LF (String.rev body +:+ cur)) :: csv.cutLines "" rest.
Proof.
  revert cur. induction body as [|c body IH]; intros cur Hb.
  - rewrite sapp_nil_l. cbn [csv.cutLines]. by rewrite byte_eqb_refl.
  - destruct Hb as [Hc Hb]. rewrite sapp_cons. cbn [csv.cutLines]. rewrite Hc.
    rewrite IH by done. by rewrite (srev_cons c body), sapp_assoc.
Qed.

Lemma cutLines_first body rest :
  noLF body →
  csv.cutLines "" (body +:+ String Byte.LF rest) =
    (body +:+ String Byte.LF "") :: csv.cutLines "" rest.
Proof.
  intros Hb. rewrite cutLines_line by done. f_equal.
  by rewrite srev_cons, sapp_nil_r, srev_involutive.
Qed.

Lemma normLine_LF body :
  noCR body →
  csv.normLine (body +:+ String Byte.LF "") = body +:+ String Byte.LF "".
Proof.
  induction body as [|c body IH]; intros Hb; [done|].
  destruct Hb as [Hc Hb]. rewrite sapp_cons.
  destruct body as [|c2 body].
  - rewrite sapp_nil_l. cbn [csv.normLine]. by rewrite Hc.
  - specialize (IH Hb). rewrite sapp_cons in IH |- *.
    cbn [csv.normLine] in IH |- *.
    destruct (body +:+ String Byte.LF "") eqn:Hbody; [|by rewrite IH].
    by destruct body.
Qed.

Lemma normLine_CRLF body :
  noCR body →
  csv.normLine (body +:+ String Byte.CR (String Byte.LF "")) =
    body +:+ String Byte.LF "".
Proof.
  induction body as [|c body IH]; intros Hb; [done|].
  destruct Hb as [Hc Hb]. rewrite sapp_cons. specialize (IH Hb).
  destruct body as [|c2 body].
  - rewrite sapp_nil_l. cbn [csv.normLine]. by rewrite byte_eqb_refl.
  - rewrite sapp_cons in IH |- *. cbn [csv.normLine] in IH |- *.
    destruct (body +:+ String Byte.CR (String Byte.LF "")) eqn:Hbody;
      [by destruct body|by rewrite IH].
Qed.

Section Tables.
Import csv.
Variable comma : ascii.
Hypothesis comma_DQUOTE : comma ≠ Byte.DQUOTE.
Hypothesis comma_LF : comma ≠ Byte.LF.
Hypothesis comma_CR : comma ≠ Byte.CR.

Lemma plainByte_spec b :
  plainByte comma b = true →
  Byte.eqb b comma = false ∧ Byte.eqb b Byte.DQUOTE = false ∧
  Byte.eqb b Byte.LF = false ∧ Byte.eqb b Byte.CR = false.
Proof.
  unfold plainByte. rewrite !andb_true_iff, !negb_true_iff. tauto.
Qed.

Lemma comma_spec :
  Byte.eqb comma Byte.DQUOTE = false ∧ Byte.eqb comma Byte.LF = false ∧
  Byte.eqb comma Byte.CR = false ∧ Byte.eqb Byte.LF comma = false.
Proof. unfold Byte.eqb. by rewrite !bool_decide_false. Qed.

Lemma csvField_lines f :
  noLF f ∧ noCR f → noLF (csvField comma f) ∧ noCR (csvField comma f).
Proof.
  intros Hf. unfold csvField. destruct (plainField comma f); [done|].
  destruct (doubleQuotes_lines f Hf) as [H1 H2]. unfold quoteField.
  cbn [noLF noCR]. rewrite noLF_app, noCR_app. by repeat split.
Qed.

Lemma join_lines row :
  Forall (λ f, noLF f ∧ noCR f) row →
  noLF (Str.join (String comma "") (csvField comma <$> row)) ∧
  noCR (Str.join (String comma "") (csvField comma <$> row)).
Proof.
  destruct comma_spec as (_ & Hlf & Hcr & _).
  induction 1 as [|f row Hf Hrow IH]; [done|].
  apply csvField_lines in Hf as [H1 H2].
  destruct row as [|g row]; [done|].
  rewrite !fmap_cons, join_cons. rewrite !fmap_cons in IH.
  rewrite !noLF_app, !noCR_app. destruct IH. by repeat split.
Qed.

(** [parseField] on a field without quotes, and on a quoted one. *)
Lemma scan_bare f : ∀ field fields rest,
  plainField comma f = true →
  scan comma Bare field fields (f +:+ rest) =
    scan comma Bare (String.rev f +:+ field) fields rest.
Proof.
  induction f as [|b f IH]; intros field fields rest; [done|].
  cbn [plainField]. intros [Hb Hf]%andb_true_iff.
  apply plainByte_spec in Hb as (H1 & H2 & H3 & H4).
  rewrite sapp_cons. cbn [scan]. rewrite H1, H2, H3. cbn [andb].
  rewrite IH by done. by rewrite srev_cons, sapp_assoc.
Qed.

Lemma scan_quoted f : ∀ field fields rest,
  scan comma Quoted field fields (doubleQuotes f +:+ rest) =
    scan comma Quoted (String.rev f +:+ field) fields rest.
Proof.
  induction f as [|b f IH]; intros field fields rest; [done|].
  cbn [doubleQuotes]. destruct (Byte.eqb b Byte.DQUOTE) eqn:Hb.
  - apply byte_eqb_true in Hb as ->. rewrite !sapp_cons. cbn [scan].
    rewrite !byte_eqb_refl. rewrite IH. by rewrite srev_cons, sapp_assoc.
  - rewrite sapp_cons. cbn [scan]. rewrite Hb, IH.
    by rewrite srev_cons, sapp_assoc.
Qed.

Lemma scan_field_comma f fields rest :
  scan comma FieldStart "" fields (csvField comma f +:+ String comma rest) =
    scan comma FieldStart "" (f :: fields) rest.
Proof.
  destruct comma_spec as (Hq & _ & _ & _).
  unfold csvField. destruct (plainField comma f) eqn:Hf.
  - destruct f as [|b f].
    + rewrite sapp_nil_l. cbn [scan]. by rewrite Hq, byte_eqb_refl.
    + cbn [plainField] in Hf. apply andb_true_iff in Hf as [Hb Hf].
      apply plainByte_spec in Hb as (H1 & H2 & H3 & H4).
      rewrite sapp_cons. cbn [scan]. rewrite H1, H2, H3. cbn [andb].
      rewrite scan_bare by done. cbn [scan]. rewrite byte_eqb_refl.
      by rewrite <-srev_cons, srev_involutive.
  - unfold quoteField. rewrite sapp_cons, sapp_assoc. cbn [scan].
    rewrite byte_eqb_refl, scan_quoted. rewrite sapp_cons, sapp_nil_l.
    cbn [scan]. rewrite !byte_eqb_refl, Hq.
    by rewrite sapp_nil_r, srev_involutive.
Qed.

Lemma scan_field_end f fields :
  scan comma FieldStart "" fields (csvField comma f +:+ String Byte.LF "") =
    Done (rev (f :: fields)).
Proof.
  destruct comma_spec as (_ & _ & _ & Hlf).
  unfold csvField. destruct (plainField comma f) eqn:Hf.
  - destruct f as [|b f].
    + rewrite sapp_nil_l. cbn [scan]. rewrite Hlf. by rewrite byte_eqb_refl.
    + cbn [plainField] in Hf. apply andb_true_iff in Hf as [Hb Hf].
      apply plainByte_spec in Hb as (H1 & H2 & H3 & H4).
      rewrite sapp_cons. cbn [scan]. rewrite H1, H2, H3. cbn [andb].
      rewrite scan_bare by done. cbn [scan]. rewrite Hlf, byte_eqb_refl.
      cbn [andb]. rewrite bool_decide_true by done.
      by rewrite <-srev_cons, srev_involutive.
  - unfold quoteField. rewrite sapp_cons, sapp_assoc. cbn [scan].
    rewrite byte_eqb_refl, scan_quoted. rewrite sapp_cons, sapp_nil_l.
    cbn [scan]. rewrite byte_eqb_refl. cbn [scan].
    change (Byte.eqb Byte.LF Byte.DQUOTE) with false. rewrite Hlf, byte_eqb_refl.
    cbn [andb]. rewrite bool_decide_true by done.
    by rewrite sapp_nil_r, srev_involutive.
Qed.

Lemma scan_row row : ∀ fields,
  row ≠ [] →
  scan comma FieldStart "" fields
    (Str.join (String comma "") (csvField comma <$> row) +:+ String Byte.LF "") =
    Done (rev fields ++ row).
Proof.
  induction row as [|f row IH]; intros fields Hne; [done|].
  destruct row as [|g row].
  - cbn [fmap list_fmap Str.join]. rewrite scan_field_end. by rewrite rev_cons_app.
  - rewrite !fmap_cons, join_cons. rewrite !fmap_cons in IH.
    rewrite !sapp_assoc. rewrite sapp_cons, sapp_nil_l.
    rewrite scan_field_comma. rewrite IH by done.
    f_equal. simpl. by rewrite <-app_assoc.
Qed.

Lemma join_tableRow row :
  tableRow row → Str.join (String comma "") (csvField comma <$> row) ≠ "".
Proof.
  intros (Hne & Hone & _). destruct row as [|f [|g row]]; [done| |].
  - cbn [fmap list_fmap Str.join]. unfold csvField.
    destruct (plainField comma f); [by intros ->|done].
  - rewrite !fmap_cons, join_cons. apply sapp_nonempty. by rewrite sapp_cons.
Qed.

Lemma csvLine_norm crlf row :
  tableRow row →
  normLine (csvLine comma crlf row) =
    Str.join (String comma "") (csvField comma <$> row) +:+ String Byte.LF "".
Proof.
  intros (_ & _ & Hrow). destruct (join_lines row Hrow) as [_ Hcr].
  unfold csvLine, endOfLine. destruct crlf.
  - by apply normLine_CRLF.
  - by apply normLine_LF.
Qed.

Lemma cutLines_csvText crlf rows :
  Forall tableRow rows →
  cutLines "" (csvText comma crlf rows) = csvLine comma crlf <$> rows.
Proof.
  induction 1 as [|row rows Hrow Hrows IH]; [done|].
  destruct Hrow as (_ & _ & Hrow). destruct (join_lines row Hrow) as [Hlf _].
  change (csvText comma crlf (row :: rows))
    with (csvLine comma crlf row +:+ csvText comma crlf rows).
  rewrite fmap_cons, <-IH. unfold csvLine, endOfLine. destruct crlf.
  - rewrite (sapp_assoc _ (String Byte.CR (String Byte.LF ""))).
    change (String Byte.CR (String Byte.LF "") +:+ csvText comma true rows)
      with (String Byte.CR "" +:+ String Byte.LF (csvText comma true rows)).
    rewrite <-sapp_assoc. rewrite cutLines_first.
    + by rewrite sapp_assoc.
    + apply noLF_app. by split.
  - rewrite sapp_assoc.
    change (String Byte.LF "" +:+ csvText comma false rows)
      with (String Byte.LF (csvText comma false rows)).
    by rewrite cutLines_first.
Qed.

Lemma parseRecord_csvLine crlf row lines :
  tableRow row →
  parseRecord comma (csvLine comma crlf row :: lines) = (Record row, lines).
Proof.
  intros Hrow. cbn [parseRecord]. rewrite csvLine_norm by done.
  pose proof (join_tableRow _ Hrow) as Hne. destruct Hrow as (Hnil & _ & Hrow).
  unfold lengthNL. rewrite hasSuffix_app, sapp_length.
  rewrite bool_decide_false.
  - by rewrite (scan_row row []).
  - destruct (Str.join (String comma "") (csvField comma <$> row)); [done|].
    simpl. lia.
Qed.

Lemma readAllFrom_csvLines crlf rows : ∀ n,
  (length rows < n)%nat → Forall tableRow rows →
  readAllFrom n (mkReader comma (-1) (csvLine comma crlf <$> rows)) =
    Some (inl rows).
Proof.
  induction rows as [|row rows IH]; intros n Hn Hrows.
  - destruct n; [lia|]. done.
  - destruct n; [simpl in Hn; lia|]. apply Forall_cons in Hrows as [Hrow Hrows].
    cbn [readAllFrom]. rewrite Read_unchecked, fmap_cons.
    rewrite parseRecord_csvLine by done.
    rewrite IH; [done|simpl in Hn; lia|done].
Qed.

End Tables.

Lemma ReadAll_csvText fd crlf rows :
  Forall tableRow rows →
  csv.ReadAll (csv.unchecked (openReader fd (csvText (commaOf fd) crlf rows))) =
    Some (inl rows).
Proof.
  intros Hrows. destruct (commaOf_spec fd) as (H1 & H2 & H3).
  rewrite openReader_eq. unfold csv.ReadAll, csv.unchecked.
  cbn [csv.Comma csv.pending csv.FieldsPerRecord].
  change (if bool_decide (separator fd = "semicolon") then ";"%char else ","%char)
    with (commaOf fd).
  rewrite (cutLines_csvText _ H1 H2 H3 crlf rows Hrows).
  apply readAllFrom_csvLines; [done..| |done]. rewrite length_fmap. lia.
Qed.

(** With a number of fields fixed, the reader returns the records that
    have it as the reader without the check does. *)
Lemma readAllFrom_checked c k : ∀ n lines rows,
  0 < k →
  csv.readAllFrom n (csv.mkReader c (-1) lines) = Some (inl rows) →
  Forall (λ row, Z.of_nat (length row) = k) rows →
  csv.readAllFrom n (csv.mkReader c k lines) = Some (inl rows).
Proof.
  induction n as [|n IH]; intros lines rows Hk; [done|]. cbn [csv.readAllFrom].
  rewrite Read_unchecked, Read_checked by done.
  destruct (csv.parseRecord c lines) as [[d| |d e] lines']; try done.
  destruct (csv.readAllFrom n (csv.mkReader c (-1) lines')) as [[ds|]|] eqn:Hds;
    try done.
  intros [= <-] [Hd Hrows]%Forall_cons.
  rewrite bool_decide_false by (intros ?; lia).
  by rewrite (IH lines' ds).
Qed.

(** The reader of the program takes the number of fields from the first
    record. *)
Lemma readAllFrom_first c n lines headers rows :
  headers ≠ [] →
  csv.readAllFrom n (csv.mkReader c (-1) lines) = Some (inl (headers :: rows)) →
  Forall (λ row, length row = length headers) rows →
  csv.readAllFrom n (csv.mkReader c 0 lines) = Some (inl (headers :: rows)).
Proof.
  intros Hne. destruct n as [|n]; [done|]. cbn [csv.readAllFrom].
  rewrite Read_unchecked, Read_first.
  destruct (csv.parseRecord c lines) as [[d| |d e] lines']; try done.
  destruct (csv.readAllFrom n (csv.mkReader c (-1) lines')) as [[ds|]|] eqn:Hds;
    try done.
  intros [= -> ->] Hrows. cbn [csv.recordOf].
  rewrite (readAllFrom_checked c (Z.of_nat (length headers)) n lines' rows); [done| |done|].
  - destruct headers; [done|]. simpl. lia.
  - eapply Forall_impl; [exact Hrows|]. simpl. intros row ->. done.
Qed.

(** Every table whose fields hold no line break and whose rows have as many
    fields as the first is read back from its text by the reader that
    [processCsvFile] builds, row by row and field by field, and then the
    reader is at the end of the source: the fields written as they are and
    those written between double quotes, with either separator of the
    program and with either end of line. *)
Theorem table_text_is_read_back fd crlf headers rows :
  Forall tableRow (headers :: rows) →
  Forall (λ row, length row = length headers) rows →
  csv.ReadAll (openReader fd (csvText (commaOf fd) crlf (headers :: rows))) =
    Some (inl (headers :: rows)) ∧
  csv.cutLines "" (csvText (commaOf fd) crlf (headers :: rows)) =
    csvLine (commaOf fd) crlf <$> headers :: rows.
Proof.
  intros Hrows Hlen. destruct (commaOf_spec fd) as (H1 & H2 & H3).
  split; [|by apply cutLines_csvText].
  pose proof (ReadAll_csvText fd crlf _ Hrows) as Hall.
  rewrite openReader_eq in *. unfold csv.ReadAll, csv.unchecked in *.
  cbn [csv.Comma csv.pending csv.FieldsPerRecord] in *.
  apply readAllFrom_first; [|done|done].
  apply Forall_cons in Hrows as [(Hne & _) _]. done.
Qed.

Lemma table_text_is_read_back_witness :
  csv.ReadAll
    (openReader (mkInputFile examplePath "comma" false)
       (Str.dq ("a,b" +:+ String Byte.CR LF +:+
                "'1,5','say ''hi'''" +:+ String Byte.CR LF))) =
    Some (inl [["a"; "b"]; ["1,5"; Str.dq "say 'hi'"]]).
Proof.
  refine (proj1 (table_text_is_read_back
                   (mkInputFile examplePath "comma" false) true
                   ["a"; "b"] [["1,5"; Str.dq "say 'hi'"]] _ _)).
  - repeat constructor; discriminate.
  - repeat constructor.
Defined.

(** The conversion of the text of a table whose fields hold no line break
    and whose rows have as many fields as the header: the process ends with
    status 0 and the output file holds the document of the records of the
    rows, in their order. *)
Theorem table_is_converted w cl fd crlf headers rows :
  getFileData cl = inl fd →
  (checkIfValidFile w (filepath fd)).2 = None →
  contents w (filepath fd) = Some (csvText (commaOf fd) crlf (headers :: rows)) →
  creatable w (finalLocation (filepath fd)) = true →
  Forall tableRow (headers :: rows) →
  Forall (λ row, length row = length headers) rows →
  (∃ sched s, run w cl sched initial = Some s ∧ status s = Exited 0) ∧
  ∀ sched s, run w cl sched initial = Some s → exited s →
    status s = Exited 0 ∧
    sink s = Some (mkFile (finalLocation (filepath fd))
                     (document (pretty fd) (recordOf headers <$> rows)) true).
Proof.
  intros Hg Hv Ho Hc Hrows Hlen.
  pose proof (ReadAll_csvText fd crlf _ Hrows) as Hall.
  pose proof (expected_valid _ _ _ _ _ _ Hg Hv Ho Hc Hall Hlen) as Hexp.
  destruct (conversion_runs _ _ _ Hexp) as [Hsome Hevery].
  split; [done|]. intros sched s Hr Hex.
  destruct (Hevery _ _ Hr Hex) as (Hz & fd' & Hg' & Hsk).
  rewrite Hg in Hg'. by injection Hg' as <-.
Qed.

Lemma table_is_converted_witness :
  ∃ sched s,
    run (exampleWorld (csvText "," false [["a"; "b"]; ["1,5"; "2"]]))
      (exampleCmd "comma" false) sched initial = Some s ∧
    status s = Exited 0.
Proof.
  refine (proj1 (table_is_converted
                   (exampleWorld (csvText "," false [["a"; "b"]; ["1,5"; "2"]]))
                   (exampleCmd "comma" false)
                   (mkInputFile examplePath "comma" false) false
                   ["a"; "b"] [["1,5"; "2"]] _ _ _ _ _ _)).
  - reflexivity.
  - reflexivity.
  - reflexivity.
  - reflexivity.
  - repeat constructor; discriminate.
  - repeat constructor.
Defined.

(** ** The bytes of the JSON text *)

Section Escapes.
Import json.

Lemma hexDigit_safe n : htmlSafe (hexDigit n) = true.
Proof.
  unfold hexDigit. generalize (N.to_nat n). intros k.
  do 17 (destruct k as [|k]; [done|]). done.
Qed.

(** The body of a string literal is made of bytes that are written as they
    are (the bytes of [htmlSafeSet], and those of the encodings of the
    characters outside ASCII) and of escapes, a backslash and a safe byte,
    a backslash or a quote. *)
Lemma escape_ind (P : string → Prop) :
  P "" →
  (∀ c t, htmlSafe c = true → P t → P (String c t)) →
  (∀ c t, (128 ≤ Byte.code c)%N → P t → P (String c t)) →
  (∀ c t, htmlSafe c = true ∨ c = Byte.BACKSLASH ∨ c = Byte.DQUOTE →
          P t → P (String Byte.BACKSLASH (String c t))) →
  ∀ s, P (escape s).
Proof.
  intros Hnil Hsafe Hraw Hesc s.
  remember (String.length s) as n eqn:Hn.
  assert (String.length s ≤ n)%nat as Hle by lia. clear Hn.
  revert s Hle. induction n as [|n IH]; intros s Hn.
  { destruct s; [done|simpl in Hn; lia]. }
  destruct s as [|b0 r0]; [done|]. simpl in Hn.
  assert (P (escape r0)) as Hr0 by (apply IH; lia).
  rewrite escape_cons. destruct (Byte.code b0 <? 128)%N eqn:Hb0.
  { destruct (htmlSafe b0) eqn:Hs.
    - rewrite sapp_cons, sapp_nil_l. by apply Hsafe.
    - unfold escapeByte.
      pose proof (hexDigit_safe (N.shiftr (Byte.code b0) 4)) as Hh1.
      pose proof (hexDigit_safe (N.land (Byte.code b0) 15)) as Hh2.
      destruct (Byte.eqb b0 Byte.BACKSLASH || Byte.eqb b0 Byte.DQUOTE) eqn:Hq.
      + rewrite !sapp_cons, sapp_nil_l. apply Hesc; [|done].
        apply orb_true_iff in Hq as [Hq|Hq]; apply byte_eqb_true in Hq; tauto.
      + repeat case_match; rewrite !sapp_cons, ?sapp_nil_l;
          (apply Hesc; [by left|]); repeat (apply Hsafe; [done|]); done. }
  apply N.ltb_ge in Hb0.
  destruct (decodeRune (String b0 r0)) as [c size] eqn:Hd.
  pose proof (decodeRune_raw _ _ _ _ Hd Hb0) as Hraw'.
  assert (∀ t, (String.length t ≤ n)%nat →
            P (String Byte.BACKSLASH ("ufffd" +:+ escape t))) as Hbad.
  { intros t Ht. rewrite !sapp_cons, sapp_nil_l. apply Hesc; [by left|].
    do 4 (apply Hsafe; [done|]). by apply IH. }
  destruct size as [|[|[|[|[|size]]]]]; try (apply Hbad; lia).
  - destruct r0 as [|b1 r1]; [apply Hbad; simpl; lia|]. simpl in Hn.
    do 2 (apply Hraw; [done|]). apply IH; lia.
  - destruct r0 as [|b1 [|b2 r2]]; try (apply Hbad; simpl in *; lia). simpl in Hn.
    destruct Hraw' as [H1 H2].
    pose proof (hexDigit_safe (N.land c 15)) as Hh.
    case_match.
    + rewrite !sapp_cons, sapp_nil_l. apply Hesc; [by left|].
      do 4 (apply Hsafe; [done|]). apply IH; lia.
    + do 3 (apply Hraw; [done|]). apply IH; lia.
  - destruct r0 as [|b1 [|b2 [|b3 r3]]]; try (apply Hbad; simpl in *; lia). simpl in Hn.
    destruct Hraw' as (H1 & H2 & H3).
    do 4 (apply Hraw; [done|]). apply IH; lia.
Qed.

End Escapes.

Lemma allBytes_app p s t : allBytes p (s +:+ t) = allBytes p s && allBytes p t.
Proof.
  induction s as [|c s IH]; [done|].
  rewrite sapp_cons. cbn [allBytes]. by rewrite IH, andb_assoc.
Qed.

Lemma jsonByte_safe c : json.htmlSafe c = true → jsonByte c = true.
Proof.
  unfold json.htmlSafe, jsonByte. rewrite !andb_true_iff.
  intros ((((((? & ?) & ?) & ?) & ?) & ?) & ?). by repeat split.
Qed.

Lemma jsonByte_raw c : (128 ≤ Byte.code c)%N → jsonByte c = true.
Proof.
  intros Hc. unfold jsonByte. rewrite !andb_true_iff, !negb_true_iff.
  split_and!; [apply N.leb_le; lia|..];
    apply byte_eqb_false; intros ->; vm_compute in Hc; by apply Hc.
Qed.

Lemma jsonByte_escape s : allBytes jsonByte (json.escape s) = true.
Proof.
  apply (escape_ind (λ t, allBytes jsonByte t = true)); [done|..].
  - intros c t Hc Ht. cbn [allBytes]. by rewrite jsonByte_safe, Ht.
  - intros c t Hc Ht. cbn [allBytes]. by rewrite jsonByte_raw, Ht.
  - intros c t Hc Ht. cbn [allBytes]. rewrite Ht.
    destruct Hc as [Hc|[->| ->]]; [rewrite (jsonByte_safe c) by done|..];
      by vm_compute.
Qed.

Lemma jsonByte_quote s : allBytes jsonByte (json.quote s) = true.
Proof.
  unfold json.quote. cbn [allBytes]. by rewrite allBytes_app, jsonByte_escape.
Qed.

Lemma jsonByte_member p : allBytes jsonByte (json.member p) = true.
Proof.
  unfold json.member. rewrite !allBytes_app, !jsonByte_quote. by vm_compute.
Qed.

Lemma jsonByte_Marshal m : allBytes jsonByte (json.Marshal m) = true.
Proof.
  unfold json.Marshal. rewrite !allBytes_app.
  assert (allBytes jsonByte
            (Str.join "," (json.member <$> json.sortedEntries m)) = true) as ->.
  { induction (json.sortedEntries m) as [|p [|q l] IH]; [done| |].
    - apply jsonByte_member.
    - change (Str.join "," (json.member <$> p :: q :: l))
        with (json.member p +:+ "," +:+ Str.join "," (json.member <$> q :: l)).
      rewrite !allBytes_app, IH, jsonByte_member. by vm_compute. }
  by vm_compute.
Qed.

(** Whatever bytes the fields of the source hold, the document written
    without the flag [pretty] holds no control character, so that it is one
    line, and none of the characters [<], [>] and [&]. *)
Theorem plain_document_bytes records :
  allBytes jsonByte (document false records) = true ∧
  allBytes (λ b, negb (Byte.eqb b Byte.LF)) (document false records) = true.
Proof.
  assert (allBytes jsonByte (document false records) = true) as Hj.
  { unfold document. rewrite allBytes_app.
    change (allBytes jsonByte ("[" +:+ breakLine false)) with true. cbn [andb].
    assert (∀ first, allBytes jsonByte (body false first records) = true) as Hb;
      [|apply Hb].
    induction records as [|r records IH]; intros first; [done|].
    cbn [body]. rewrite !allBytes_app, IH.
    change (jsonFunc false r) with (json.Marshal r). rewrite jsonByte_Marshal.
    by destruct first. }
  split; [done|].
  induction (document false records) as [|b t IH]; [done|].
  cbn [allBytes] in *. apply andb_true_iff in Hj as [Hb Ht].
  rewrite IH by done. rewrite andb_true_r, negb_true_iff.
  apply byte_eqb_false. intros ->. by vm_compute in Hb.
Qed.

(** ** The layout of the pretty text *)

Section Layout.
Import json.
Variables prefix indent : string.

Lemma indent_literal s : ∀ rest need depth,
  indentFrom prefix indent true false need depth (escape s +:+ rest) =
    escape s +:+ indentFrom prefix indent true false need depth rest.
Proof.
  apply (escape_ind (λ t, ∀ rest need depth,
    indentFrom prefix indent true false need depth (t +:+ rest) =
      t +:+ indentFrom prefix indent true false need depth rest)).
  - done.
  - intros c t [H1%byte_eqb_false H2%byte_eqb_false]%htmlSafe_plain Ht
      rest need depth.
    rewrite !sapp_cons. cbn [indentFrom]. by rewrite H1, H2, Ht.
  - intros c t [H1%byte_eqb_false H2%byte_eqb_false]%raw_byte Ht rest need depth.
    rewrite !sapp_cons. cbn [indentFrom]. by rewrite H1, H2, Ht.
  - intros c t _ Ht rest need depth.
    rewrite !sapp_cons. cbn [indentFrom]. rewrite byte_eqb_refl.
    by rewrite Ht.
Qed.

Lemma indent_quote s rest depth :
  indentFrom prefix indent false false false depth (quote s +:+ rest) =
    quote s +:+ indentFrom prefix indent false false false depth rest.
Proof.
  unfold quote. rewrite !sapp_cons, sapp_assoc. cbn [indentFrom].
  change (isSpace Byte.DQUOTE) with false. cbn [andb negb].
  change (Byte.eqb Byte.DQUOTE "{" || Byte.eqb Byte.DQUOTE "[") with false.
  change (Byte.eqb Byte.DQUOTE ",") with false.
  change (Byte.eqb Byte.DQUOTE ":") with false.
  change (isClose Byte.DQUOTE) with false. rewrite byte_eqb_refl. cbn iota.
  rewrite sapp_nil_l, indent_literal, !sapp_cons. cbn [indentFrom].
  change (Byte.eqb Byte.DQUOTE Byte.BACKSLASH) with false. rewrite byte_eqb_refl.
  cbn iota. by rewrite sapp_nil_l, sapp_assoc.
Qed.

Lemma indent_quote_first s rest depth :
  indentFrom prefix indent false false true depth (quote s +:+ rest) =
    newline prefix indent (S depth) +:+ quote s +:+
    indentFrom prefix indent false false false (S depth) rest.
Proof.
  rewrite <-indent_quote.
  unfold quote. rewrite !sapp_cons. cbn [indentFrom].
  change (isSpace Byte.DQUOTE) with false.
  change (isClose Byte.DQUOTE) with false. cbn [andb negb]. cbn iota.
  change (Byte.eqb Byte.DQUOTE "{" || Byte.eqb Byte.DQUOTE "[") with false.
  change (Byte.eqb Byte.DQUOTE ",") with false.
  change (Byte.eqb Byte.DQUOTE ":") with false. cbn iota.
  by rewrite sapp_nil_l.
Qed.

Lemma indent_value v rest depth :
  indentFrom prefix indent false false false depth (":" +:+ quote v +:+ rest) =
    ": " +:+ quote v +:+ indentFrom prefix indent false false false depth rest.
Proof.
  rewrite !sapp_cons, sapp_nil_l. cbn [indentFrom].
  change (isSpace ":") with false. cbn [andb]. cbn iota.
  change (Byte.eqb ":" "{" || Byte.eqb ":" "[") with false.
  change (Byte.eqb ":" ",") with false.
  change (Byte.eqb ":" ":") with true. cbn iota.
  by rewrite sapp_nil_l, indent_quote.
Qed.

(** The members that follow the first one, and the closing brace. *)
Lemma indent_tail depth : ∀ l,
  indentFrom prefix indent false false false (S depth)
    (Str.cat ((λ p, "," +:+ member p) <$> l) +:+ "}") =
  Str.cat ((λ p, "," +:+ newline prefix indent (S depth) +:+
                 quote p.1 +:+ ": " +:+ quote p.2) <$> l) +:+
  newline prefix indent depth +:+ "}".
Proof.
  induction l as [|p l IH].
  - rewrite sapp_nil_l. cbn [fmap list_fmap Str.cat]. rewrite sapp_nil_l.
    cbn [indentFrom]. change (isSpace "}") with false. cbn [andb]. cbn iota.
    change (Byte.eqb "}" "{" || Byte.eqb "}" "[") with false.
    change (Byte.eqb "}" ",") with false.
    change (Byte.eqb "}" ":") with false.
    change (isClose "}") with true. cbn iota. cbn [pred indentFrom].
    by rewrite sapp_nil_l.
  - rewrite !fmap_cons. cbn [Str.cat]. unfold member at 1.
    rewrite !sapp_assoc. rewrite (sapp_cons "," ""), sapp_nil_l.
    cbn [indentFrom]. change (isSpace ",") with false. cbn [andb]. cbn iota.
    change (Byte.eqb "," "{" || Byte.eqb "," "[") with false.
    change (Byte.eqb "," ",") with true. cbn iota. rewrite sapp_nil_l.
    rewrite indent_quote, indent_value.
    rewrite <-!sapp_assoc in IH |- *. rewrite IH.
    by rewrite !sapp_assoc, (sapp_cons "," ""), sapp_nil_l.
Qed.

Lemma join_cat sep x l :
  Str.join sep (x :: l) = x +:+ Str.cat ((λ y, sep +:+ y) <$> l).
Proof.
  revert x. induction l as [|y l IH]; intros x.
  - by rewrite sapp_nil_r.
  - rewrite join_cons, IH, fmap_cons. cbn [Str.cat]. by rewrite !sapp_assoc.
Qed.

Lemma Indent_Marshal m :
  Indent (Marshal m) prefix indent =
    match sortedEntries m with
    | [] => "{}"
    | entries =>
        "{" +:+ newline prefix indent 1 +:+
        Str.join ("," +:+ newline prefix indent 1)
          ((λ p, quote p.1 +:+ ": " +:+ quote p.2) <$> entries) +:+
        newline prefix indent 0 +:+ "}"
    end.
Proof.
  unfold Indent, Marshal. destruct (sortedEntries m) as [|p l].
  - done.
  - rewrite fmap_cons, (join_cat "," (member p)).
    rewrite (sapp_cons "{" ""), sapp_nil_l. cbn [indentFrom].
    change (isSpace "{") with false. cbn [andb]. cbn iota.
    change (Byte.eqb "{" "{" || Byte.eqb "{" "[") with true. cbn iota.
    rewrite sapp_nil_l. unfold member at 1.
    rewrite !sapp_assoc, indent_quote_first, indent_value.
    rewrite <-list_fmap_compose. unfold compose.
    pose proof (indent_tail 0 l) as Ht. rewrite <-!sapp_assoc in Ht |- *.
    rewrite Ht. clear Ht.
    rewrite fmap_cons, join_cat, <-list_fmap_compose. unfold compose.
    rewrite (sapp_cons "{" ""), sapp_nil_l. f_equal. rewrite !sapp_assoc.
    repeat (apply (f_equal2 String.append); [reflexivity|]). reflexivity.
Qed.

End Layout.

(** With the flag [pretty] an object is written on one line per member:
    after three spaces the opening brace, then each member on a line of its
    own after six spaces, its key and its value separated by a colon and a
    space, the members in the order of the keys and separated by commas,
    then the closing brace on a line of its own after three spaces. *)
Theorem pretty_object_layout record :
  jsonFunc true record = "   " +:+ prettyObject (json.sortedEntries record).
Proof.
  rewrite jsonFunc_true.
  change (json.indentFrom "   " "   " false false false 0 (json.Marshal record))
    with (json.Indent (json.Marshal record) "   " "   ").
  rewrite Indent_Marshal. unfold prettyObject.
  by destruct (json.sortedEntries record).
Qed.

(** ** The two channels *)

(** Once [getFileData] has returned the values of the command line, so
    that [flag.Parse] has returned: the reader never sends on a closed
    channel; the writer writes the closing bracket only once the channel
    of the records is closed; [main] returns only after the writer has
    signalled the end on [done], which it does after the channel was
    closed; and the process ends with status 0 only by the return of
    [main]. *)
Theorem channel_discipline w cl fd sched s :
  getFileData cl = inl fd →
  run w cl sched initial = Some s →
  (∀ headers reader record,
     readerPC s = RSend headers reader record → chanClosed s = false) ∧
  (phaseOf (writerPC s) = ClosedPhase → chanClosed s = true) ∧
  (mainPC s = MReturn → writerPC s = WDone ∧ chanClosed s = true) ∧
  (status s = Exited 0 → mainPC s = MReturn).
Proof.
  intros _ Hr.
  destruct (reachable_Inv _ _ _ _ Hr) as [[Hmain Hcl Hsig _ _ Hst _ _ _ _] _].
  unfold mainOK in Hmain. unfold signalOK in Hsig. unfold statusOK in Hst.
  split_and!.
  - intros h rd r Hpc. by rewrite Hcl, Hpc.
  - intros Hp. rewrite Hp in Hsig. by rewrite Hcl, Hsig.
  - intros Hm. rewrite Hm in Hmain. destruct Hmain as (Hd & ? & _).
    by rewrite Hcl, Hd.
  - intros Hz. by rewrite Hz in Hst.
Qed.

Lemma channel_discipline_witness :
  ∃ s, run (exampleWorld scenarioA) (exampleCmd "comma" false) twoRows initial
         = Some s ∧
       writerPC s = WDone ∧ chanClosed s = true.
Proof.
  assert (∃ s, run (exampleWorld scenarioA) (exampleCmd "comma" false) twoRows
                 initial = Some s ∧ mainPC s = MReturn) as (s & Hr & Hm).
  { eexists. split; vm_compute; reflexivity. }
  exists s. split; [exact Hr|].
  exact (proj1 (proj2 (proj2 (channel_discipline _ (exampleCmd "comma" false)
                                (mkInputFile examplePath "comma" false) _ _
                                eq_refl Hr))) Hm).
Defined.

(** ** The output file of a conversion that fails *)

Lemma loop_sent headers r :
  sent (loop headers r).1 =
    match csv.Read r with
    | (csv.Record line, r') =>
        match processLine headers line with
        | Rejected _ => sent (loop headers r').1
        | Mapped record => record :: sent (loop headers r').1
        | Panic => []
        end
    | _ => []
    end.
Proof.
  rewrite loop_unfold. destruct (csv.Read r) as [[line| |line e] r']; try done.
  destruct (processLine headers line); try done;
    by destruct (loop headers r') as [evs []].
Qed.

Lemma upcoming_open w fd src :
  contents w (filepath fd) = Some src →
  upcoming w fd (RHeader (openReader fd src)) = upcoming w fd ROpen.
Proof.
  intros Hc. unfold upcoming, processCsvFile. rewrite Hc.
  by destruct (csv.Read (openReader fd src)) as [[line| |line e] rd'].
Qed.

Lemma step_written w cl t s s' :
  Inv w cl s → written w s → step w cl t s = Some s' → written w s'.
Proof.
  intros [Hmain Hcl Hsig Hsink Hrd Hst Hout Hdat Hval Hnm] Hw.
  destruct s as [st fdat mpc rpc wpc cc sk out err]; simpl in *.
  unfold written, content in *; simpl in *.
  unfold step; simpl. destruct st; [|done].
  destruct t.
  - unfold stepMain; simpl. destruct mpc; [| done |]; inv_unfold; destruct_and?; subst.
    + destruct (getFileData cl) as [fd|e];
        [destruct (checkIfValidFile w (filepath fd)) as [b [e|]]|];
        intros [= <-]; simpl; intros; simplify_eq; done.
    + intros [= <-]; simpl. apply Hw.
  - destruct fdat as [fd|]; [|done]. unfold stepReader; simpl.
    specialize (Hw fd eq_refl).
    destruct rpc as [ | |rd|h rd|h rd r| ]; try done.
    + destruct (contents w (filepath fd)) as [src|] eqn:Hc; intros [= <-]; simpl;
        intros fd' [= <-]; [|done].
      rewrite <-(upcoming_open w fd src Hc) in Hw. exact Hw.
    + destruct (csv.Read rd) as [[line| |line e] rd'] eqn:HR; intros [= <-]; simpl;
        intros fd' [= <-]; unfold upcoming in Hw; rewrite ?HR in Hw;
        rewrite ?HR; exact Hw.
    + destruct (csv.Read rd) as [[line| |line e] rd'] eqn:HR;
        [destruct (processLine h line) eqn:HP|..]; intros [= <-]; simpl;
        intros fd' [= <-]; unfold upcoming in Hw;
        rewrite ?(loop_sent h rd), ?HR, ?HP in Hw;
        rewrite ?(loop_sent h rd), ?HR, ?HP; exact Hw.
    + destruct wpc as [ | | |first| | | | ]; try done; intros [= <-]; simpl.
      intros fd' [= <-]. rewrite <-Hw. simpl.
      destruct first; simpl; [done|]. by rewrite !sapp_assoc.
  - destruct fdat as [fd|]; [|done]. unfold stepWriter; simpl.
    specialize (Hw fd eq_refl). unfold sinkOK in Hsink.
    destruct wpc as [ | | |first|r|r| | ]; try done.
    + simpl in Hsink. subst sk.
      destruct (creatable w _) eqn:Hc; intros [= <-]; simpl;
        intros fd' [= <-]; done.
    + destruct Hsink as (f & -> & Hf). unfold writeString; simpl. rewrite Hf.
      intros [= <-]; simpl. intros fd' [= <-]. rewrite <-Hw. simpl.
      unfold document. by rewrite !sapp_assoc.
    + destruct cc; [|done].
      destruct Hsink as (f & -> & Hf). unfold writeString; simpl. rewrite Hf.
      intros [= <-]; simpl. intros fd' [= <-]. rewrite <-Hw. simpl.
      destruct rpc; try done. simpl. by rewrite sapp_nil_r.
    + destruct Hsink as (f & -> & Hf). unfold writeString; simpl. rewrite Hf.
      intros [= <-]; simpl. intros fd' [= <-]. rewrite <-Hw. simpl.
      by rewrite !sapp_assoc.
    + destruct Hsink as (f & -> & Hf). unfold writeString; simpl. rewrite Hf.
      intros [= <-]; simpl. intros fd' [= <-]. rewrite <-Hw. simpl.
      by rewrite !sapp_assoc.
    + destruct mpc; try done. intros [= <-]. simpl. intros fd' [= <-]. done.
Qed.

Lemma reachable_written w cl sched s :
  run w cl sched initial = Some s → written w s.
Proof.
  revert s. induction sched as [|t sched IH] using rev_ind; intros s.
  { intros [= <-]. by intros fd. }
  rewrite run_app. destruct (run w cl sched initial) as [s0|] eqn:Hr0; [|done].
  simpl. destruct (step w cl t s0) as [s1|] eqn:Hs; [|done]. intros [= <-].
  eapply step_written; [|by apply IH|done]. by apply (reachable_Inv _ _ sched).
Qed.

(** At every moment of every run, also of one that fails, the output file
    holds the beginning of the document of the records that
    [processCsvFile] sends before its loop ends; it holds all of it once the
    file is closed, and it is never closed when the loop ends on an
    error. *)
Theorem output_file_is_a_prefix w cl sched s f :
  run w cl sched initial = Some s → sink s = Some f →
  ∃ fd rest,
    getFileData cl = inl fd ∧
    document (pretty fd) (sent (processCsvFile w fd).1) = fdata f +:+ rest ∧
    (fclosed f = true → rest = "" ∧ (processCsvFile w fd).2 = Closed).
Proof.
  intros Hr Hsk.
  destruct (reachable_Inv _ _ _ _ Hr)
    as [[Hmain _ Hsig Hsink _ _ _ Hdat _ _] Hfin].
  pose proof (reachable_written _ _ _ _ Hr) as Hw.
  assert (∃ fd, fileData s = Some fd) as [fd Hfd].
  { unfold mainOK in Hmain. destruct (mainPC s).
    - destruct Hmain as (_ & Hwi & _). rewrite Hwi in Hsink. simpl in Hsink.
      congruence.
    - done.
    - by destruct Hmain as (_ & _ & ?). }
  specialize (Hw fd Hfd). unfold content in Hw. rewrite Hsk in Hw.
  exists fd. eexists. split_and!; [by apply Hdat|by rewrite <-Hw|].
  intros Hc. unfold sinkOK in Hsink. unfold signalOK in Hsig.
  rewrite Hsk in Hsink.
  assert (phaseOf (writerPC s) = ClosedPhase) as Hp.
  { destruct (writerPC s) as [ | | |[]| | | | ]; try done;
      destruct Hsink as (x & [= <-] & Hx); congruence. }
  split; [by destruct (writerPC s) as [ | | |[]| | | | ]|].
  rewrite Hp in Hsig.
  destruct (expected w cl) as [out|] eqn:Hexp.
  - apply expected_Some in Hexp as (fd' & evs & Hg' & _ & _ & Hpf & _).
    rewrite (Hdat _ Hfd) in Hg'. injection Hg' as <-. by rewrite Hpf.
  - destruct (failed_conversion _ _ Hexp _ _ Hr) as [_ Hopen].
    specialize (Hopen _ Hsk). congruence.
Qed.

Lemma output_file_is_a_prefix_witness :
  ∃ s f rest,
    run (exampleWorld scenarioC) (exampleCmd "comma" false) writerFirst initial
      = Some s ∧
    sink s = Some f ∧
    Str.dq "[{'a':'1','b':'2'}]" = fdata f +:+ rest.
Proof.
  assert (∃ s f, run (exampleWorld scenarioC) (exampleCmd "comma" false)
                   writerFirst initial = Some s ∧ sink s = Some f)
    as (s & f & Hr & Hsk).
  { eexists _, _. split; vm_compute; reflexivity. }
  destruct (output_file_is_a_prefix _ _ _ _ _ Hr Hsk) as (fd & rest & Hg & Heq & _).
  exists s, f, rest. split; [exact Hr|]. split; [exact Hsk|].
  injection Hg as <-. exact Heq.
Defined.

(** ** The error that ends a run *)

Lemma loop_ending headers r :
  (loop headers r).2 =
    match csv.Read r with
    | (csv.Record line, r') =>
        match processLine headers line with
        | Rejected _ | Mapped _ => (loop headers r').2
        | Panic => Panicked
        end
    | (csv.EOF, _) => Closed
    | (csv.Failed _ e, _) => Fatal (ErrParse e)
    end.
Proof.
  rewrite loop_unfold. destruct (csv.Read r) as [[line| |line e] r']; try done.
  destruct (processLine headers line); try done;
    by destruct (loop headers r') as [evs []].
Qed.

Lemma ending_open w fd src :
  contents w (filepath fd) = Some src →
  ending w fd (RHeader (openReader fd src)) = (processCsvFile w fd).2.
Proof.
  intros Hc. unfold ending, processCsvFile. rewrite Hc.
  by destruct (csv.Read (openReader fd src)) as [[line| |line e] rd'].
Qed.

Lemma step_Reported w cl t s s' :
  Inv w cl s → Observed s → Reported w cl s → step w cl t s = Some s' →
  Reported w cl s'.
Proof.
  intros [Hmain Hcl Hsig Hsink Hrd Hst Hout Hdat Hval Hnm] [_ _ He] [Hend _].
  destruct s as [st fdat mpc rpc wpc cc sk out err]; simpl in *.
  unfold step; simpl. destruct st; [|done].
  unfold stderrOK in He; simpl in He. subst err.
  destruct t.
  - unfold stepMain; simpl. destruct mpc; [| done |]; inv_unfold; destruct_and?; subst.
    + destruct (getFileData cl) as [fd|e] eqn:Hg.
      * destruct (checkIfValidFile w (filepath fd)) as [b [e|]] eqn:Hv;
          intros [= <-]; constructor; simpl; try done.
        intros e' [= <-]. right. exists fd. by rewrite Hv.
      * intros [= <-]; constructor; simpl; [done|]. intros e' [= <-]. by left.
    + intros [= <-]; constructor; simpl; done.
  - destruct fdat as [fd|]; [|done]. unfold stepReader; simpl.
    specialize (Hend fd eq_refl).
    destruct rpc as [ | |rd|h rd|h rd r| ]; try done.
    + destruct (contents w (filepath fd)) as [src|] eqn:Hc; intros [= <-];
        constructor; simpl; try done.
      * intros fd' [= <-]. by apply ending_open.
      * intros e' [= <-]. right. unfold processCsvFile. by rewrite Hc.
    + unfold ending in Hend.
      destruct (csv.Read rd) as [[line| |line e] rd'] eqn:HR; intros [= <-];
        constructor; simpl; try done.
      * by intros fd' [= <-].
      * intros fd' [= <-]. by rewrite HR.
      * intros e' [= <-]. by right.
      * intros fd' [= <-]. by rewrite HR.
      * intros e' [= <-]. by right.
    + unfold ending in Hend. rewrite loop_ending in Hend.
      destruct (csv.Read rd) as [[line| |line e] rd'] eqn:HR;
        [destruct (processLine h line) eqn:HP|..]; intros [= <-];
        constructor; simpl; try done.
      all: try (by intros fd' [= <-]).
      * intros fd' [= <-]. by rewrite loop_ending, HR, HP.
      * intros fd' [= <-]. by rewrite loop_ending, HR.
      * intros e' [= <-]. by right.
    + destruct wpc as [ | | |first| | | | ]; try done; intros [= <-];
        constructor; simpl; [|done]. by intros fd' [= <-].
  - destruct fdat as [fd|]; [|done]. unfold stepWriter; simpl.
    specialize (Hend fd eq_refl). unfold sinkOK in Hsink.
    assert (∀ s1, (∀ fd', fileData s1 = Some fd' → fd' = fd) →
              readerPC s1 = rpc → stderr s1 = [] → Reported w cl s1) as Hkeep.
    { intros s1 Hfd Hpc Herr. constructor.
      - intros fd' ->%Hfd. by rewrite Hpc.
      - intros e. by rewrite Herr. }
    destruct wpc as [ | | |first|r|r| | ]; try done.
    + destruct (creatable w _) eqn:Hc; intros [= <-].
      * apply Hkeep; simpl; [by intros fd' [= <-]|done..].
      * constructor; simpl; [by intros fd' [= <-]|].
        intros e' [= <-]. by left.
    + destruct Hsink as (f & -> & Hf). unfold writeString; simpl. rewrite Hf.
      intros [= <-]. apply Hkeep; simpl; [by intros fd' [= <-]|done..].
    + destruct cc; [|done].
      destruct Hsink as (f & -> & Hf). unfold writeString; simpl. rewrite Hf.
      intros [= <-]. apply Hkeep; simpl; [by intros fd' [= <-]|done..].
    + destruct Hsink as (f & -> & Hf). unfold writeString; simpl. rewrite Hf.
      intros [= <-]. apply Hkeep; simpl; [by intros fd' [= <-]|done..].
    + destruct Hsink as (f & -> & Hf). unfold writeString; simpl. rewrite Hf.
      intros [= <-]. apply Hkeep; simpl; [by intros fd' [= <-]|done..].
    + destruct mpc; try done. intros [= <-].
      apply Hkeep; simpl; [by intros fd' [= <-]|done..].
Qed.

Lemma reachable_Reported w cl sched s :
  run w cl sched initial = Some s → Reported w cl s.
Proof.
  revert s. induction sched as [|t sched IH] using rev_ind; intros s.
  { intros [= <-]. by constructor. }
  rewrite run_app. destruct (run w cl sched initial) as [s0|] eqn:Hr0; [|done].
  simpl. destruct (step w cl t s0) as [s1|] eqn:Hs; [|done]. intros [= <-].
  eapply step_Reported; [| |by apply IH|done].
  - by apply (reachable_Inv _ _ sched).
  - by apply (reachable_Observed w cl sched).
Qed.

(** When the command line and the path are accepted and the output file
    can be created, a conversion whose reader stops on an error (the source
    cannot be opened, it has no header, a row cannot be parsed or has not
    the number of fields of the header) ends, under every schedule, with
    status 1 and that error on the standard error stream, and the output
    file is left unclosed. *)
Theorem reader_error_ends_the_run w cl fd evs err :
  getFileData cl = inl fd →
  (checkIfValidFile w (filepath fd)).2 = None →
  creatable w (finalLocation (filepath fd)) = true →
  processCsvFile w fd = (evs, Fatal err) →
  (∃ sched s, run w cl sched initial = Some s ∧ status s = Exited 1) ∧
  ∀ sched s, run w cl sched initial = Some s → exited s →
    status s = Exited 1 ∧ stderr s = [err] ∧
    ∀ f, sink s = Some f → fclosed f = false.
Proof.
  intros Hg Hv Hc Hp.
  assert (expected w cl = None) as Hexp
    by (by apply (expected_not_closed _ _ fd evs (Fatal err))).
  assert (∀ sched s, run w cl sched initial = Some s → exited s →
            status s = Exited 1 ∧ stderr s = [err]) as Hone.
  { intros sched s Hr [code Hst].
    destruct (failed_conversion _ _ Hexp _ _ Hr) as [Hz _].
    destruct (reachable_Inv _ _ _ _ Hr) as [[_ _ _ _ _ _ _ Hdat Hval _] _].
    destruct (reachable_Observed _ _ _ _ Hr) as [_ _ He].
    destruct (reachable_Reported _ _ _ _ Hr) as [_ Hcause].
    unfold stderrOK in He. rewrite Hst in He, Hz |- *.
    case_bool_decide; [congruence|]. destruct He as (-> & e & Herr & _).
    split; [done|]. rewrite Herr. specialize (Hcause e Herr). unfold cause in Hcause.
    destruct (fileData s) as [fd'|].
    - pose proof (Hdat fd' eq_refl) as Hg'. rewrite Hg in Hg'. injection Hg' as <-.
      destruct Hcause as [[Hc' _]|He']; [congruence|].
      rewrite Hp in He'. simpl in He'. by injection He' as <-.
    - destruct Hcause as [Hg'|(fd' & Hg' & Hv')]; [congruence|].
      rewrite Hg in Hg'. injection Hg' as <-. congruence. }
  split.
  - destruct (run_completes w cl) as (sched & s & Hr & Hex).
    exists sched, s. split; [done|]. by apply (Hone sched).
  - intros sched s Hr Hex. destruct (Hone _ _ Hr Hex) as [H1 H2].
    split_and!; [done..|]. by apply (failed_conversion _ _ Hexp _ _ Hr).
Qed.

Lemma reader_error_ends_the_run_witness :
  ∃ sched s,
    run (exampleWorld bareQuote) (exampleCmd "comma" false) sched initial = Some s ∧
    status s = Exited 1.
Proof.
  refine (proj1 (reader_error_ends_the_run
                   (exampleWorld bareQuote) (exampleCmd "comma" false)
                   (mkInputFile examplePath "comma" false)
                   [Send (recordOf ["a"; "b"] ["1"; "2"])]
                   (ErrParse csv.ErrBareQuote) _ _ _ _)).
  - reflexivity.
  - reflexivity.
  - reflexivity.
  - vm_compute. reflexivity.
Defined.

(** ** The directory of an ordinary path *)

Section Clean.
Import filepath.

Lemma cleanFrom_copy e : ∀ rooted out dotdot rest,
  noSep e →
  cleanFrom rooted true out dotdot (e +:+ String Byte.SLASH rest) =
    cleanFrom rooted false (out +:+ e) dotdot rest.
Proof.
  induction e as [|c e IH]; intros rooted out dotdot rest He.
  - rewrite sapp_nil_l, sapp_nil_r. cbn [cleanFrom].
    by change (isSep Byte.SLASH) with true.
  - destruct He as [Hc He]. rewrite sapp_cons. cbn [cleanFrom]. rewrite Hc.
    rewrite IH by done. by rewrite sapp_assoc.
Qed.

Lemma endsElem_elem e rest :
  e ≠ "" → noSep e → endsElem (e +:+ rest) = false.
Proof. destruct e as [|c e]; [done|]. by intros _ [Hc _]. Qed.

Lemma cleanFrom_elem e out rest :
  plainElem e →
  cleanFrom false false out 0 (e +:+ String Byte.SLASH rest) =
    cleanFrom false false
      (out +:+ (if bool_decide (String.length out = 0%nat) then "" else "/") +:+ e)
      0 rest.
Proof.
  intros (Hne & Hsep & Hdot & Hdots).
  destruct e as [|c e]; [done|]. destruct Hsep as [Hc Hsep].
  rewrite sapp_cons. cbn [cleanFrom]. rewrite Hc.
  assert (Byte.eqb c Byte.DOT && endsElem (e +:+ String Byte.SLASH rest) = false)
    as ->.
  { destruct (Byte.eqb c Byte.DOT) eqn:Hd; [|done]. apply byte_eqb_true in Hd as ->.
    destruct e as [|c2 e]; [done|]. destruct Hsep as [Hc2 _].
    rewrite sapp_cons. simpl. exact Hc2. }
  assert (cleanFrom false true
            (out +:+ (if bool_decide (String.length out = 0%nat) then "" else "/")
                 +:+ String c "") 0 (e +:+ String Byte.SLASH rest) =
          cleanFrom false false
            (out +:+ (if bool_decide (String.length out = 0%nat) then "" else "/")
                 +:+ String c e) 0 rest) as Hcopy.
  { rewrite cleanFrom_copy by done. by rewrite !sapp_assoc. }
  destruct e as [|c2 e].
  - rewrite sapp_nil_l in Hcopy |- *.
    change (Byte.eqb Byte.SLASH Byte.DOT) with false. rewrite andb_false_r.
    exact Hcopy.
  - rewrite sapp_cons in Hcopy |- *.
    assert (Byte.eqb c Byte.DOT && Byte.eqb c2 Byte.DOT &&
            endsElem (e +:+ String Byte.SLASH rest) = false) as ->; [|exact Hcopy].
    destruct (Byte.eqb c Byte.DOT) eqn:Hd; [|done]. apply byte_eqb_true in Hd as ->.
    destruct (Byte.eqb c2 Byte.DOT) eqn:Hd2; [|done].
    apply byte_eqb_true in Hd2 as ->.
    destruct e as [|c3 e]; [done|]. destruct Hsep as (_ & Hc3 & _).
    rewrite sapp_cons. simpl. exact Hc3.
Qed.

Lemma cleanFrom_elems es : ∀ e out,
  Forall plainElem (e :: es) →
  cleanFrom false false out 0 (Str.join "/" (e :: es) +:+ "/") =
    out +:+ (if bool_decide (String.length out = 0%nat) then "" else "/") +:+
    Str.join "/" (e :: es).
Proof.
  induction es as [|e' es IH]; intros e out [He Hes]%Forall_cons.
  - cbn [Str.join]. change (e +:+ "/") with (e +:+ String Byte.SLASH "").
    by rewrite cleanFrom_elem.
  - rewrite join_cons, !sapp_assoc.
    change ("/" +:+ Str.join "/" (e' :: es) +:+ "/")
      with (String Byte.SLASH (Str.join "/" (e' :: es) +:+ "/")).
    rewrite cleanFrom_elem by done. rewrite IH by done.
    destruct He as (Hne & _).
    destruct (bool_decide (String.length out = 0%nat));
      (rewrite bool_decide_false
         by (rewrite !sapp_length; destruct e; [done|simpl; lia]));
      by rewrite !sapp_assoc.
Qed.

Lemma Clean_elems e es :
  Forall plainElem (e :: es) →
  Clean (Str.join "/" (e :: es) +:+ "/") = Str.join "/" (e :: es).
Proof.
  intros Hes. pose proof (cleanFrom_elems es e "" Hes) as Hc.
  rewrite sapp_nil_l in Hc. change (bool_decide (String.length "" = 0%nat)) with true in Hc.
  cbn iota in Hc. rewrite sapp_nil_l in Hc.
  apply Forall_cons in Hes as [(Hne & Hsep & _) _].
  assert (∃ c t, Str.join "/" (e :: es) +:+ "/" = String c t ∧ isSep c = false)
    as (c & t & Heq & Hc0).
  { destruct e as [|c e]; [done|]. destruct Hsep as [Hc0 _].
    destruct es; [by exists c, (e +:+ "/")|].
    rewrite join_cons, sapp_cons. by eexists _, _. }
  unfold Clean. rewrite Heq, Hc0, <-Heq, Hc.
  rewrite bool_decide_false; [done|].
  destruct e as [|c' e]; [done|]. by destruct es.
Qed.

End Clean.

(** For a source in a directory named by ordinary elements (names that are
    neither [.] nor [..], joined by single slashes, the path relative), the
    name of the output file is the name of the source with [.json] in the
    place of [.csv]. *)
Theorem finalLocation_ordinary_path e es stem :
  Forall plainElem (e :: es) → filepath.noSep stem →
  filepath.Dir (Str.join "/" (e :: es) +:+ "/" +:+ stem +:+ ".csv") =
    Str.join "/" (e :: es) ∧
  finalLocation (Str.join "/" (e :: es) +:+ "/" +:+ stem +:+ ".csv") =
    Str.join "/" (e :: es) +:+ "/" +:+ stem +:+ ".json".
Proof.
  intros Hes Hs.
  pose proof (noSep_csv _ Hs) as Hn.
  assert (stem +:+ ".csv" ≠ "") as Hne by (by apply sapp_nonempty).
  assert (filepath.Dir (Str.join "/" (e :: es) +:+ "/" +:+ stem +:+ ".csv") =
          Str.join "/" (e :: es)) as Hd.
  { rewrite Dir_joined by done. by apply Clean_elems. }
  split; [done|]. unfold finalLocation.
  by rewrite Hd, Base_joined, trimSuffix_app.
Qed.

Lemma finalLocation_ordinary_path_witness :
  finalLocation "home/user/data.csv" = "home/user/data.json".
Proof.
  refine (proj2 (finalLocation_ordinary_path "home" ["user"] "data" _ _)).
  - repeat constructor; discriminate.
  - vm_compute. repeat split.
Defined.

(** * The place of the output file *)

Section Elements.
Import filepath.

Lemma get_app_r x y : ∀ i,
  String.get (String.length x + i) (x +:+ y) = String.get i y.
Proof. induction x as [|c x IH]; intros i; [done|]. rewrite sapp_cons. apply IH. Qed.

Lemma noSep_get e : ∀ i, noSep e → String.get i e ≠ Some Byte.SLASH.
Proof.
  induction e as [|c e IH]; intros i He; [by destruct i|].
  destruct He as [Hc He]. destruct i as [|i]; simpl.
  - intros [= ->]. done.
  - by apply IH.
Qed.

Lemma backtrack_down out dotdot m : ∀ k,
  (dotdot ≤ m)%nat →
  (∀ i, (m < i ≤ m + k)%nat → String.get i out ≠ Some Byte.SLASH) →
  m = dotdot ∨ String.get m out = Some Byte.SLASH →
  backtrack out dotdot (m + k) = m.
Proof.
  induction k as [|k IH]; intros Hle Hin Hm.
  - rewrite Nat.add_0_r. destruct m as [|m]; [done|]. cbn [backtrack].
    destruct Hm as [<- | Hg].
    + rewrite bool_decide_false by lia. done.
    + rewrite Hg, (bool_decide_true (Some Byte.SLASH = Some Byte.SLASH)) by done.
      by rewrite andb_false_r.
  - rewrite Nat.add_succ_r. cbn [backtrack].
    rewrite bool_decide_true by lia.
    rewrite bool_decide_false by (apply Hin; lia). cbn [negb andb].
    apply IH; [done| |done]. intros i Hi. apply Hin. lia.
Qed.

(** [..] after a name: the buffer is cut back to what it held before the
    name and its separator. *)
Lemma backtrack_elem x sep n dotdot :
  noSep n → n ≠ "" → (dotdot ≤ String.length x)%nat →
  sep = "/" ∨ (sep = "" ∧ String.length x = dotdot) →
  Str.take (backtrack (x +:+ sep +:+ n) dotdot
              (String.length (x +:+ sep +:+ n) - 1)) (x +:+ sep +:+ n) = x.
Proof.
  intros Hn Hne Hle Hsep.
  assert (∃ k, String.length n = S k) as [k Hk]
    by (destruct n; [done|by eexists]).
  destruct Hsep as [->|[-> Hx]].
  - rewrite !sapp_length, Hk.
    change (String.length "/") with 1%nat.
    replace (String.length x + (1 + S k) - 1)%nat
      with (String.length x + S k)%nat by lia.
    rewrite backtrack_down; [apply take_app_length|done| |].
    + intros i Hi. replace i with (String.length x + S (i - String.length x - 1))%nat by lia.
      rewrite get_app_r. change ("/" +:+ n) with (String Byte.SLASH n).
      cbn [String.get]. by apply noSep_get.
    + right. rewrite <-(Nat.add_0_r (String.length x)) at 1. by rewrite get_app_r.
  - rewrite sapp_nil_l, !sapp_length, Hk.
    replace (String.length x + S k - 1)%nat with (String.length x + k)%nat by lia.
    rewrite backtrack_down; [apply take_app_length|lia| |by left].
    intros i Hi. replace i with (String.length x + (i - String.length x))%nat by lia.
    rewrite get_app_r. by apply noSep_get.
Qed.

Lemma join_snoc l n :
  Str.join "/" (l ++ [n]) =
    match l with [] => n | _ => Str.join "/" l +:+ "/" +:+ n end.
Proof.
  induction l as [|x l IH]; [done|]. destruct l as [|y l]; [done|].
  change ((x :: y :: l) ++ [n]) with (x :: y :: (l ++ [n])).
  rewrite !join_cons. change (y :: l ++ [n]) with ((y :: l) ++ [n]).
  rewrite IH. by rewrite !sapp_assoc.
Qed.

Lemma join_length_app l l' :
  (String.length (Str.join "/" l) ≤ String.length (Str.join "/" (l ++ l')))%nat.
Proof.
  induction l' as [|y l' IH] using rev_ind; [by rewrite app_nil_r|].
  rewrite app_assoc, join_snoc. destruct (l ++ l') eqn:Hd.
  - apply app_eq_nil in Hd as [Hd _]. rewrite Hd. simpl. lia.
  - rewrite !sapp_length. lia.
Qed.

Lemma join_nonempty l :
  l ≠ [] → Forall (λ e, e ≠ "") l → Str.join "/" l ≠ "".
Proof.
  destruct l as [|x l]; [done|]. intros _ [Hx _]%Forall_cons.
  destruct l; [done|]. rewrite join_cons. destruct x; done.
Qed.

Lemma dots_nonempty k : Forall (λ e : string, e ≠ "") (replicate k "..").
Proof. induction k; constructor; done. Qed.

Lemma elems_nonempty rooted p :
  goodPlace rooted p → Forall (λ e, e ≠ "") (replicate (above p) ".." ++ below p).
Proof.
  intros [_ Hb]. apply Forall_app. split; [apply dots_nonempty|].
  eapply Forall_impl; [exact Hb|]. by intros e (? & _).
Qed.

Lemma elems_noSep rooted p :
  goodPlace rooted p → Forall noSep (replicate (above p) ".." ++ below p).
Proof.
  intros [_ Hb]. apply Forall_app. split.
  - generalize (above p). intros k. induction k; constructor; done.
  - eapply Forall_impl; [exact Hb|]. by intros e (_ & ? & _).
Qed.

(** The length of the text tells whether the place is the start. *)
Lemma placeText_start rooted p :
  goodPlace rooted p →
  String.length (placeText rooted p) = (if rooted then 1 else 0)%nat ↔
  replicate (above p) ".." ++ below p = [].
Proof.
  intros Hp. unfold placeText. rewrite sapp_length.
  split.
  - intros Hl. destruct (replicate (above p) ".." ++ below p) as [|x l] eqn:Hl'; [done|].
    assert (Str.join "/" (x :: l) ≠ "") as Hne.
    { apply join_nonempty; [done|]. rewrite <-Hl'. by apply (elems_nonempty rooted). }
    destruct (Str.join "/" (x :: l)); [done|]. destruct rooted; simpl in Hl; lia.
  - intros ->. by destruct rooted.
Qed.

Lemma placeText_snoc rooted p n :
  goodPlace rooted p →
  placeText rooted (mkPlace (above p) (below p ++ [n])) =
    placeText rooted p +:+
    (if bool_decide (String.length (placeText rooted p) = if rooted then 1 else 0)%nat
     then "" else "/") +:+ n.
Proof.
  intros Hp. pose proof (placeText_start rooted p Hp) as Hs.
  unfold placeText in *. cbn [above below]. rewrite app_assoc, join_snoc.
  destruct (replicate (above p) ".." ++ below p) as [|x l].
  - rewrite bool_decide_true by (by apply Hs). by rewrite !sapp_nil_r.
  - rewrite bool_decide_false by (intros H%Hs; done). by rewrite !sapp_assoc.
Qed.

Lemma placeText_dots k :
  placeText false (mkPlace (S k) []) =
    placeText false (mkPlace k []) +:+
    (if bool_decide (0 < String.length (placeText false (mkPlace k [])))%nat
     then "/" else "") +:+ "..".
Proof.
  unfold placeText. cbn [above below]. rewrite !app_nil_r, !sapp_nil_l.
  replace (replicate (S k) "..") with (replicate k ".." ++ [".."])
    by (induction k; [done|]; simpl; by f_equal).
  rewrite join_snoc. destruct k as [|k]; [done|].
  rewrite bool_decide_true; [done|].
  pose proof (join_nonempty (replicate (S k) "..") ltac:(done) (dots_nonempty _)).
  destruct (Str.join "/" (replicate (S k) "..")); [done|]. simpl. lia.
Qed.

Lemma removelast_snoc {A} (l : list A) x : removelast (l ++ [x]) = l.
Proof. by rewrite removelast_app, app_nil_r. Qed.

Lemma snoc_cases {A} (l : list A) : l = [] ∨ ∃ l' x, l = l' ++ [x].
Proof. destruct l as [|x l] using rev_ind; [by left|right; by eexists _, _]. Qed.

(** [walk] on [..], by the last name of the place. *)
Lemma walk_dotdot rooted p :
  walk rooted p ".." =
    match below p with
    | [] => if rooted then p else mkPlace (S (above p)) []
    | _ => mkPlace (above p) (removelast (below p))
    end.
Proof. done. Qed.

Lemma walk_up_start rooted p :
  below p = [] →
  walk rooted p ".." = if rooted then p else mkPlace (S (above p)) [].
Proof. intros Hl. by rewrite walk_dotdot, Hl. Qed.

Lemma walk_up_name rooted p l n :
  below p = l ++ [n] → walk rooted p ".." = mkPlace (above p) l.
Proof.
  intros Hl. rewrite walk_dotdot, Hl, removelast_snoc. by destruct l.
Qed.

Lemma walk_name rooted p e :
  plainElem e → walk rooted p e = mkPlace (above p) (below p ++ [e]).
Proof.
  intros (H1 & _ & H2 & H3). unfold walk.
  rewrite bool_decide_false by (by intros [|]).
  by rewrite bool_decide_false.
Qed.

Lemma walk_stay rooted p e : e = "" ∨ e = "." → walk rooted p e = p.
Proof. intros He. unfold walk. by rewrite bool_decide_true. Qed.

(** The four kinds of elements. *)
Lemma elem_cases e : noSep e → e = "" ∨ e = "." ∨ e = ".." ∨ plainElem e.
Proof.
  intros He. destruct (decide (e = "")); [by left|].
  destruct (decide (e = ".")); [by right; left|].
  destruct (decide (e = "..")); [by right; right; left|].
  right; right; right. done.
Qed.

Lemma walk_good rooted p e :
  noSep e → goodPlace rooted p → goodPlace rooted (walk rooted p e).
Proof.
  intros He [Ha Hb].
  destruct (elem_cases e He) as [->|[->|[->|Hpl]]].
  - by rewrite walk_stay by auto.
  - by rewrite walk_stay by auto.
  - destruct (snoc_cases (below p)) as [Hl|(l & n & Hl)].
    + rewrite walk_up_start by done. destruct rooted; [done|].
      split; [done|by constructor].
    + rewrite (walk_up_name _ _ _ _ Hl). split; [done|]. cbn [below].
      rewrite Hl in Hb. by apply Forall_app in Hb as [? _].
  - rewrite walk_name by done. split; [done|]. cbn [below].
    apply Forall_app. split; [done|]. by constructor.
Qed.

(** One element of the path and the slash after it, in the loop of
    [Clean]. *)
Lemma cleanFrom_walk rooted p e rest :
  noSep e → goodPlace rooted p →
  cleanFrom rooted false (placeText rooted p) (mark rooted p)
    (e +:+ String Byte.SLASH rest) =
  cleanFrom rooted false (placeText rooted (walk rooted p e))
    (mark rooted (walk rooted p e)) rest.
Proof.
  intros He Hp.
  destruct (elem_cases e He) as [->|[->|[->|Hpl]]].
  - by rewrite walk_stay by auto.
  - by rewrite walk_stay by auto.
  - change (".." +:+ String Byte.SLASH rest)
      with (String Byte.DOT (String Byte.DOT (String Byte.SLASH rest))).
    cbn [cleanFrom].
    change (isSep Byte.DOT) with false. change (isSep Byte.SLASH) with true.
    change (Byte.eqb Byte.DOT Byte.DOT) with true.
    cbn [andb endsElem]. change (isSep Byte.DOT) with false. cbn iota.
    change (isSep Byte.SLASH) with true. cbn iota.
    destruct (snoc_cases (below p)) as [Hl|(l & n & Hl)].
    + rewrite walk_up_start by done.
      assert (p = mkPlace (above p) []) as Hp' by (destruct p; simpl in *; by subst).
      assert (mark rooted p = String.length (placeText rooted p)) as Hm
        by (unfold mark; by rewrite <-Hp').
      rewrite bool_decide_false by lia.
      destruct rooted; [done|].
      unfold mark. cbn [above]. by rewrite placeText_dots, <-Hp'.
    + rewrite (walk_up_name _ _ _ _ Hl).
      destruct Hp as [Ha Hb]. rewrite Hl in Hb.
      apply Forall_app in Hb as [Hb [(Hne & Hsep & _) _]%Forall_cons].
      assert (goodPlace rooted (mkPlace (above p) l)) as Hq by done.
      assert (placeText rooted p =
              placeText rooted (mkPlace (above p) (l ++ [n]))) as ->
        by (destruct p; simpl in *; by subst).
      pose proof (placeText_snoc rooted (mkPlace (above p) l) n Hq) as Hs.
      cbn [above below] in Hs. rewrite Hs. clear Hs.
      unfold mark at 2. cbn [above below].
      set (x := placeText rooted (mkPlace (above p) l)).
      assert (mark rooted p ≤ String.length x)%nat as Hle.
      { unfold mark, x, placeText. cbn [above below]. rewrite !sapp_length.
        apply Nat.add_le_mono_l. rewrite app_nil_r. apply join_length_app. }
      assert (mark rooted p < String.length
                (x +:+ (if bool_decide (String.length x = if rooted then 1 else 0)%nat
                        then "" else "/") +:+ n))%nat as Hlt.
      { rewrite !sapp_length. destruct n; [done|]. simpl. lia. }
      rewrite bool_decide_true by done.
      rewrite backtrack_elem; [done..|].
      case_bool_decide as Hx; [|by left]. right. split; [done|].
      apply (placeText_start rooted _ Hq) in Hx. cbn [above below] in Hx.
      apply app_eq_nil in Hx as [Hx ->]. unfold mark, x. done.
  - rewrite walk_name by done.
    rewrite placeText_snoc by done.
    unfold mark. cbn [above].
    destruct Hpl as (Hne & Hsep & Hdot & Hdots).
    destruct e as [|c e]; [done|]. destruct Hsep as [Hc Hsep].
    rewrite sapp_cons. cbn [cleanFrom]. rewrite Hc.
    assert (Byte.eqb c Byte.DOT && endsElem (e +:+ String Byte.SLASH rest) = false)
      as ->.
    { destruct (Byte.eqb c Byte.DOT) eqn:Hd; [|done]. apply byte_eqb_true in Hd as ->.
      destruct e as [|c2 e]; [done|]. destruct Hsep as [Hc2 _].
      rewrite sapp_cons. simpl. exact Hc2. }
    set (sep := if bool_decide _ then "" else "/").
    assert (cleanFrom rooted true (placeText rooted p +:+ sep +:+ String c "")
              (String.length (placeText rooted (mkPlace (above p) [])))
              (e +:+ String Byte.SLASH rest) =
            cleanFrom rooted false (placeText rooted p +:+ sep +:+ String c e)
              (String.length (placeText rooted (mkPlace (above p) []))) rest)
      as Hcopy.
    { rewrite cleanFrom_copy by done. by rewrite !sapp_assoc. }
    destruct e as [|c2 e].
    + rewrite sapp_nil_l in Hcopy |- *.
      change (Byte.eqb Byte.SLASH Byte.DOT) with false. rewrite andb_false_r.
      exact Hcopy.
    + rewrite sapp_cons in Hcopy |- *.
      assert (Byte.eqb c Byte.DOT && Byte.eqb c2 Byte.DOT &&
              endsElem (e +:+ String Byte.SLASH rest) = false) as ->; [|exact Hcopy].
      destruct (Byte.eqb c Byte.DOT) eqn:Hd; [|done]. apply byte_eqb_true in Hd as ->.
      destruct (Byte.eqb c2 Byte.DOT) eqn:Hd2; [|done].
      apply byte_eqb_true in Hd2 as ->.
      destruct e as [|c3 e]; [done|]. destruct Hsep as (_ & Hc3 & _).
      rewrite sapp_cons. simpl. exact Hc3.
Qed.

Lemma cat_cons_slash e es :
  Str.cat ((λ e, e +:+ "/") <$> e :: es) =
    e +:+ String Byte.SLASH (Str.cat ((λ e, e +:+ "/") <$> es)).
Proof. rewrite fmap_cons. cbn [Str.cat]. by rewrite sapp_assoc. Qed.

Lemma cleanFrom_walks rooted es : ∀ p,
  Forall noSep es → goodPlace rooted p →
  cleanFrom rooted false (placeText rooted p) (mark rooted p)
    (Str.cat ((λ e, e +:+ "/") <$> es)) =
  placeText rooted (foldl (walk rooted) p es).
Proof.
  induction es as [|e es IH]; intros p Hes Hp; [done|].
  apply Forall_cons in Hes as [He Hes].
  rewrite cat_cons_slash, cleanFrom_walk by done.
  rewrite IH; [done|done|]. by apply walk_good.
Qed.

Lemma goodPlace_start rooted : goodPlace rooted (mkPlace 0 []).
Proof. split; [done|constructor]. Qed.

(** [Clean] on a directory written element by element. *)
Lemma Clean_elements es :
  Forall noSep es →
  Clean (Str.cat ((λ e, e +:+ "/") <$> es)) =
    directory (isRooted (Str.cat ((λ e, e +:+ "/") <$> es))) es.
Proof.
  intros Hes. destruct es as [|e es]; [done|].
  pose proof Hes as [He Hes']%Forall_cons.
  rewrite cat_cons_slash. destruct e as [|c e].
  - rewrite sapp_nil_l. cbn [Clean isRooted].
    change (isSep Byte.SLASH) with true. cbn iota.
    pose proof (cleanFrom_walks true es _ Hes' (goodPlace_start true)) as Hc.
    change (placeText true (mkPlace 0 [])) with "/" in Hc.
    change (mark true (mkPlace 0 [])) with 1%nat in Hc.
    rewrite Hc. done.
  - destruct He as [Hc He]. rewrite sapp_cons. cbn [Clean isRooted].
    rewrite Hc. rewrite <-sapp_cons, <-cat_cons_slash.
    pose proof (cleanFrom_walks false (String c e :: es) _ Hes (goodPlace_start false))
      as Hw.
    change (placeText false (mkPlace 0 [])) with "" in Hw.
    change (mark false (mkPlace 0 [])) with 0%nat in Hw.
    rewrite Hw. done.
Qed.

Lemma cat_slash_last es :
  es ≠ [] → ∃ d, Str.cat ((λ e, e +:+ "/") <$> es) = d +:+ "/".
Proof.
  induction es as [|e es IH]; [done|]. intros _. destruct es as [|e' es].
  - exists e. rewrite fmap_cons. cbn [fmap list_fmap Str.cat]. by rewrite sapp_nil_r.
  - destruct IH as [d Hd]; [done|]. exists (e +:+ "/" +:+ d).
    rewrite fmap_cons. cbn [Str.cat]. rewrite Hd. by rewrite !sapp_assoc.
Qed.

Lemma isRooted_app s t : s ≠ "" → isRooted (s +:+ t) = isRooted s.
Proof. by destruct s. Qed.

Lemma isRooted_noSep s : noSep s → isRooted s = false.
Proof. destruct s; [done|]. by intros [? _]. Qed.

(** [Dir] on a path written element by element. *)
Lemma Dir_elements es name :
  Forall noSep es → noSep name →
  Dir (pathOf es name) = directory (isRooted (pathOf es name)) es.
Proof.
  intros Hes Hn. unfold pathOf. destruct (decide (es = [])) as [->|Hne].
  - cbn [fmap list_fmap Str.cat]. rewrite sapp_nil_l, Dir_bare by done.
    by rewrite isRooted_noSep.
  - destruct (cat_slash_last es Hne) as [d Hd].
    rewrite isRooted_app by (rewrite Hd; by apply sapp_nonempty).
    rewrite <-Clean_elements by done. rewrite Hd, sapp_assoc.
    by apply Dir_joined.
Qed.

Lemma Base_elements es name :
  noSep name → name ≠ "" → Base (pathOf es name) = name.
Proof.
  intros Hn Hne. unfold pathOf. destruct (decide (es = [])) as [->|Hes].
  - cbn [fmap list_fmap Str.cat]. rewrite sapp_nil_l. by apply Base_bare.
  - destruct (cat_slash_last es Hes) as [d ->]. rewrite sapp_assoc.
    by apply Base_joined.
Qed.

(** Every path is made of elements. *)
Lemma path_elements path :
  ∃ es name, Forall noSep es ∧ noSep name ∧ path = pathOf es name.
Proof.
  induction path as [|c path (es & name & Hes & Hn & ->)].
  - by exists [], "".
  - destruct (isSep c) eqn:Hc.
    + apply byte_eqb_true in Hc as ->. exists ("" :: es), name.
      split; [by constructor|]. split; [done|]. unfold pathOf.
      by rewrite cat_cons_slash, sapp_nil_l.
    + destruct es as [|e es].
      * exists [], (String c name). split; [done|]. split; [done|]. done.
      * apply Forall_cons in Hes as [He Hes]. exists (String c e :: es), name.
        split; [by constructor|]. split; [done|]. unfold pathOf.
        by rewrite !cat_cons_slash, !sapp_cons.
Qed.

Lemma cat_join l :
  l ≠ [] → Str.cat ((λ e, e +:+ "/") <$> l) = Str.join "/" l +:+ "/".
Proof.
  induction l as [|x l IH]; [done|]. intros _. destruct l as [|y l].
  - rewrite fmap_cons. cbn [fmap list_fmap Str.cat Str.join]. by rewrite sapp_nil_r.
  - rewrite fmap_cons. cbn [Str.cat]. rewrite IH by done.
    by rewrite join_cons, !sapp_assoc.
Qed.

Lemma cat_app l l' : Str.cat (l ++ l') = Str.cat l +:+ Str.cat l'.
Proof.
  induction l as [|x l IH]; [done|]. cbn [app Str.cat]. by rewrite IH, sapp_assoc.
Qed.

Lemma placeElems_text rooted p name :
  goodPlace rooted p →
  pathOf (placeElems rooted p) name =
    (if bool_decide (placeText rooted p = "") then "." else placeText rooted p)
    +:+ "/" +:+ name.
Proof.
  intros Hp. pose proof (elems_nonempty rooted p Hp) as Hne.
  unfold pathOf, placeElems, placeText.
  destruct (replicate (above p) ".." ++ below p) as [|x l] eqn:Hl.
  - by destruct rooted.
  - rewrite fmap_app, cat_app, (cat_join (x :: l)) by done.
    pose proof (join_nonempty (x :: l) ltac:(done) Hne) as Hj.
    destruct rooted.
    + change (Str.cat ((λ e, e +:+ "/") <$> [""])) with "/".
      rewrite bool_decide_false by done. by rewrite !sapp_assoc.
    + change (Str.cat ((λ e, e +:+ "/") <$> [])) with "".
      rewrite !sapp_nil_l, bool_decide_false by done. by rewrite !sapp_assoc.
Qed.

Lemma placeElems_noSep rooted p :
  goodPlace rooted p → Forall noSep (placeElems rooted p).
Proof.
  intros [Ha Hb]. unfold placeElems. apply Forall_app. split.
  - destruct rooted; by repeat constructor.
  - pose proof (elems_noSep rooted p (conj Ha Hb)) as Hl.
    destruct (replicate (above p) ".." ++ below p); [|done].
    destruct rooted; by repeat constructor.
Qed.

Lemma walk_dots k : ∀ a,
  foldl (walk false) (mkPlace a []) (replicate k "..") = mkPlace (k + a) [].
Proof.
  induction k as [|k IH]; intros a; [done|]. cbn [replicate foldl].
  rewrite walk_up_start by done. cbn [above]. rewrite IH. f_equal. lia.
Qed.

Lemma walk_names rooted l : ∀ p,
  Forall plainElem l →
  foldl (walk rooted) p l = mkPlace (above p) (below p ++ l).
Proof.
  induction l as [|n l IH]; intros p Hl.
  - rewrite app_nil_r. by destruct p.
  - apply Forall_cons in Hl as [Hn Hl]. cbn [foldl].
    rewrite walk_name, IH by done. cbn [above below]. by rewrite <-app_assoc.
Qed.

(** The elements of the shortest path to a place lead to it. *)
Lemma place_placeElems rooted p :
  goodPlace rooted p → place rooted (placeElems rooted p) = p.
Proof.
  intros [Ha Hb]. unfold place, placeElems.
  destruct p as [a b]. cbn [above below] in *.
  destruct rooted.
  - rewrite Ha by done. change (replicate 0 ".." ++ b) with b.
    rewrite foldl_app. change (foldl (walk true) (mkPlace 0 []) [""])
      with (mkPlace 0 []).
    destruct b as [|n b]; [done|]. by rewrite walk_names.
  - cbn [app]. destruct (replicate a ".." ++ b) as [|x l] eqn:Hl.
    + apply app_eq_nil in Hl as [Hr ->]. by destruct a.
    + rewrite <-Hl, foldl_app, walk_dots, walk_names by done.
      cbn [above below app]. f_equal. lia.
Qed.

Lemma place_good rooted es :
  Forall noSep es → goodPlace rooted (place rooted es).
Proof.
  unfold place. generalize (goodPlace_start rooted). generalize (mkPlace 0 []).
  induction es as [|e es IH]; intros p Hp Hes; [done|].
  apply Forall_cons in Hes as [He Hes]. cbn [foldl].
  apply IH; [by apply walk_good|done].
Qed.

Lemma isRooted_placeElems rooted p name :
  goodPlace rooted p → isRooted (pathOf (placeElems rooted p) name) = rooted.
Proof.
  intros Hp. pose proof (elems_nonempty rooted p Hp) as Hne.
  pose proof (elems_noSep rooted p Hp) as Hns.
  unfold pathOf, placeElems. destruct rooted; [done|]. cbn [app].
  destruct (replicate (above p) ".." ++ below p) as [|x l]; [done|].
  apply Forall_cons in Hne as [Hx _]. apply Forall_cons in Hns as [Hx' _].
  rewrite cat_cons_slash. destruct x as [|c x]; [done|]. by destruct Hx'.
Qed.

(** The place of the output file for a source path written element by
    element. *)
Lemma finalLocation_elements es stem :
  Forall noSep es → noSep stem →
  let path := pathOf es (stem +:+ ".csv") in
  let rooted := isRooted path in
  Dir path = directory rooted es ∧
  Base path = stem +:+ ".csv" ∧
  finalLocation path = directory rooted es +:+ "/" +:+ stem +:+ ".json" ∧
  isRooted (finalLocation path) = rooted ∧
  Dir (finalLocation path) = Dir path ∧
  ∃ es', Forall noSep es' ∧
         finalLocation path = pathOf es' (stem +:+ ".json") ∧
         place rooted es' = place rooted es.
Proof.
  intros Hes Hs path rooted.
  pose proof (noSep_csv _ Hs) as Hn.
  assert (stem +:+ ".csv" ≠ "") as Hne by (by apply sapp_nonempty).
  assert (noSep (stem +:+ ".json")) as Hj
    by (apply noSep_app; split; [done|by repeat split]).
  pose proof (Dir_elements es _ Hes Hn) as Hd.
  pose proof (Base_elements es _ Hn Hne) as Hb.
  pose proof (place_good rooted es Hes) as Hp.
  assert (finalLocation path = directory rooted es +:+ "/" +:+ stem +:+ ".json") as Hf.
  { unfold finalLocation. fold path in Hd, Hb. by rewrite Hd, Hb, trimSuffix_app. }
  assert (finalLocation path =
          pathOf (placeElems rooted (place rooted es)) (stem +:+ ".json")) as He.
  { rewrite Hf, placeElems_text by done. done. }
  assert (isRooted (finalLocation path) = rooted) as Hr
    by (rewrite He; by apply isRooted_placeElems).
  split_and!; [done..| |].
  - rewrite He at 1. rewrite Dir_elements; [|by apply placeElems_noSep|done].
    rewrite <-He, Hr. fold path in Hd. rewrite Hd. unfold directory.
    by rewrite place_placeElems.
  - exists (placeElems rooted (place rooted es)).
    split_and!; [by apply placeElems_noSep|done|by apply place_placeElems].
Qed.

End Elements.

(** C5. Whenever the output file exists, the input path has passed the
    check of its extension.  Written element by element, it is made of the
    elements [es] of its directory, each followed by a slash, and of a last
    element [stem.csv].  The name of the output file is made of the
    directory of the input path, a slash, and the last element of the input
    path with [.json] in the place of [.csv].  That directory is the one
    the elements [es] lead to, from the root for a path that starts with a
    slash and from the current directory otherwise, written in the shortest
    way: the empty element and [.] stay in place, [..] leaves the directory
    entered last.  The output path starts from the root exactly when the
    input path does, the elements of its directory lead to the same place
    as those of the input path, and [filepath.Dir] gives the same directory
    for both.  [dir/data.csv] gives [dir/data.json]. *)
Theorem C5_output_path w cl sched s f :
  run w cl sched initial = Some s → sink s = Some f →
  ∃ fd stem es,
    getFileData cl = inl fd ∧
    filepath.Ext (filepath fd) = ".csv" ∧
    filepath.noSep stem ∧
    Forall filepath.noSep es ∧
    filepath fd = pathOf es (stem +:+ ".csv") ∧
    filepath.Base (filepath fd) = stem +:+ ".csv" ∧
    filepath.Dir (filepath fd) = directory (isRooted (filepath fd)) es ∧
    fname f = filepath.Dir (filepath fd) +:+ "/" +:+ stem +:+ ".json" ∧
    fname f = directory (isRooted (filepath fd)) es +:+ "/" +:+ stem +:+ ".json" ∧
    filepath.Base (fname f) = stem +:+ ".json" ∧
    filepath.Ext (fname f) = ".json" ∧
    filepath.Dir (fname f) = filepath.Dir (filepath fd) ∧
    isRooted (fname f) = isRooted (filepath fd) ∧
    (∃ es', Forall filepath.noSep es' ∧
            fname f = pathOf es' (stem +:+ ".json") ∧
            place (isRooted (fname f)) es' = place (isRooted (filepath fd)) es) ∧
    finalLocation "dir/data.csv" = "dir/data.json" ∧
    finalLocation "work/../data.csv" = "./data.json" ∧
    finalLocation "../in/data.csv" = "../in/data.json" ∧
    finalLocation "/srv/./in//old/../data.csv" = "/srv/in/data.json".
Proof.
  intros Hr Hsk.
  destruct (reachable_Inv _ _ _ _ Hr)
    as [[Hmain _ _ Hsink _ _ _ Hdat Hval Hnm] _].
  assert (∃ fd, fileData s = Some fd) as [fd Hfd].
  { unfold mainOK in Hmain. destruct (mainPC s).
    - destruct Hmain as (_ & Hw & _). rewrite Hw in Hsink. simpl in Hsink.
      congruence.
    - done.
    - by destruct Hmain as (_ & _ & ?). }
  pose proof (valid_Ext _ _ (Hval _ Hfd)) as Hext.
  destruct (Ext_csv _ Hext) as [q Hq].
  destruct (path_elements q) as (es & stem & Hes & Hstem & Hqe).
  assert (filepath fd = pathOf es (stem +:+ ".csv")) as Hpath
    by (rewrite Hq, Hqe; unfold pathOf; by rewrite sapp_assoc).
  destruct (finalLocation_elements es stem Hes Hstem)
    as (Hdir & Hbase & Hfinal & Hroot & Hsame & es' & Hes' & Hout & Hplace).
  rewrite <-Hpath in Hdir, Hbase, Hfinal, Hroot, Hsame, Hout, Hplace.
  rewrite <-(Hnm _ _ Hfd Hsk) in Hfinal, Hroot, Hsame, Hout.
  assert (filepath.noSep (stem +:+ ".json")) as Hj
    by (apply noSep_app; split; [done|by repeat split]).
  exists fd, stem, es. split_and!; try done.
  - by apply Hdat.
  - by rewrite Hdir.
  - rewrite Hout. apply Base_elements; [done|by apply sapp_nonempty].
  - rewrite Hfinal. apply Ext_json.
  - exists es'. by rewrite Hroot.
Qed.

Lemma C5_output_path_witness :
  ∃ s f,
    run (exampleWorld scenarioA) (exampleCmd "comma" false) [TMain; TWriter] initial
      = Some s ∧
    sink s = Some f ∧ fname f = "dir/data.json" ∧
    filepath.Ext (fname f) = ".json" ∧
    filepath.Dir (fname f) = "dir".
Proof.
  assert (∃ s f, run (exampleWorld scenarioA) (exampleCmd "comma" false)
                   [TMain; TWriter] initial = Some s ∧ sink s = Some f ∧
                 fname f = "dir/data.json" ∧
                 getFileData (exampleCmd "comma" false) =
                   inl (mkInputFile "dir/data.csv" "comma" false))
    as (s & f & Hr & Hsk & Hn & Hg).
  { eexists _, _. split; [|split; [|split]]; vm_compute; reflexivity. }
  destruct (C5_output_path _ _ _ _ _ Hr Hsk)
    as (fd & stem & es & Hg' & _ & _ & _ & _ & _ & _ & _ & _ & _ & Hext & Hdir & _).
  rewrite Hg in Hg'. injection Hg' as <-.
  exists s, f. split; [exact Hr|]. split; [exact Hsk|].
  split; [exact Hn|]. split; [exact Hext|exact Hdir].
Defined.

(** * The output file read back as JSON *)

Section ReadBack.
Import json JSON.

(** ** Strings *)

Lemma land_shiftl_low x k w : (w < 2 ^ k)%N → N.land (N.shiftl x k) w = 0%N.
Proof.
  intros Hw. apply N.bits_inj_0. intros n. rewrite N.land_spec.
  destruct (N.lt_ge_cases n k) as [Hn|Hn].
  - by rewrite N.shiftl_spec_low.
  - assert (N.testbit w n = false) as ->; [|by rewrite andb_false_r].
    destruct (N.eq_dec w 0%N) as [->|Hw0]; [apply N.bits_0|].
    apply N.bits_above_log2. apply N.log2_lt_pow2; [lia|].
    eapply N.lt_le_trans; [exact Hw|]. by apply N.pow_le_mono_r.
Qed.

Lemma lor_shiftl_low x k w :
  (w < 2 ^ k)%N → N.lor (N.shiftl x k) w = (x * 2 ^ k + w)%N.
Proof.
  intros Hw. rewrite <-N.lxor_lor, <-N.add_nocarry_lxor
    by (by apply land_shiftl_low).
  by rewrite N.shiftl_mul_pow2.
Qed.

Lemma land_low c k : N.land c (N.ones k) = (c mod 2 ^ k)%N.
Proof. apply N.land_ones. Qed.

Lemma code_lt b : (Byte.code b < 256)%N.
Proof. apply N_ascii_bounded. Qed.

Lemma code_inj b n : Byte.code b = n → b = ascii_of_N n.
Proof. intros <-. symmetry. apply ascii_N_embedding. Qed.

Lemma first_range c0 sz lo hi :
  first c0 = Some (sz, lo, hi) →
  (128 ≤ lo)%N ∧ (hi ≤ 0xBF)%N ∧ (sz = 3%nat → 0xE0 ≤ c0 ≤ 0xEF)%N.
Proof.
  unfold first. repeat case_match; intros [= <- <- <-];
    repeat match goal with
           | H : _ && _ = true |- _ => apply andb_true_iff in H as [? ?]
           | H : (_ <=? _)%N = true |- _ => apply N.leb_le in H
           | H : (_ =? _)%N = true |- _ => apply N.eqb_eq in H
           end; split_and!; try done; try lia.
Qed.

Lemma separator_bytes (c0 c1 c2 k : N) :
  (224 ≤ c0 ≤ 239)%N → (128 ≤ c1 ≤ 191)%N → (128 ≤ c2 ≤ 191)%N → (k < 64)%N →
  (c0 `mod` 16 * 4096 + (c1 `mod` 64 * 64 + c2 `mod` 64))%N = (8192 + k)%N →
  c0 = 226%N ∧ c1 = 128%N ∧ c2 = (128 + k)%N.
Proof.
  intros H0 H1 H2 Hk Hd.
  pose proof (N.Div0.div_mod c0 16) as E0.
  pose proof (N.mod_lt c0 16 ltac:(lia)) as L0.
  pose proof (N.Div0.div_mod c1 64) as E1.
  pose proof (N.mod_lt c1 64 ltac:(lia)) as L1.
  pose proof (N.Div0.div_mod c2 64) as E2.
  pose proof (N.mod_lt c2 64 ltac:(lia)) as L2.
  generalize dependent (c0 `mod` 16)%N. intros x0.
  generalize dependent (c1 `mod` 64)%N. intros y.
  generalize dependent (c2 `mod` 64)%N. intros z.
  generalize dependent (c0 `div` 16)%N. intros q0.
  generalize dependent (c1 `div` 64)%N. intros q1.
  generalize dependent (c2 `div` 64)%N. intros q2. intros.
  assert (x0 = 2%N) by lia. assert (y = 0%N) by lia. assert (z = k) by lia.
  split_and!; lia.
Qed.

(** The encodings of the line and paragraph separators. *)
Lemma decodeRune_separator b0 b1 b2 r c :
  decodeRune (String b0 (String b1 (String b2 r))) = (c, 3%nat) →
  (c = 0x2028 ∨ c = 0x2029)%N →
  String b0 (String b1 (String b2 "")) = utf8 c.
Proof.
  intros Hd Hc. unfold decodeRune in Hd.
  destruct (Byte.code b0 <? 128)%N; [by simplify_eq|].
  destruct (first (Byte.code b0)) as [[[sz lo] hi]|] eqn:Hf; [|by simplify_eq].
  apply first_range in Hf as (Hlo & Hhi & Hc0).
  destruct (_ || _) eqn:Hr1 in Hd; [by simplify_eq|].
  apply orb_false_iff in Hr1 as [H1%N.ltb_ge H1'%N.ltb_ge].
  case_bool_decide; [by simplify_eq|].
  destruct (isCont (Byte.code b2)) eqn:H2; [|by simplify_eq].
  unfold isCont in H2. apply andb_true_iff in H2 as [H2%N.leb_le H2'%N.leb_le].
  change (negb true) with false in Hd. cbn iota in Hd.
  case_bool_decide as Hsz;
    [|by destruct r; [|destruct (negb _)]; simplify_eq].
  specialize (Hc0 Hsz). injection Hd as Hd.
  change 0x0F%N with (N.ones 4) in Hd. change 0x3F%N with (N.ones 6) in Hd.
  rewrite !land_low in Hd.
  rewrite (lor_shiftl_low _ 6) in Hd by (apply N.mod_lt; lia).
  rewrite (lor_shiftl_low _ 12) in Hd.
  2:{ pose proof (N.mod_lt (Byte.code b1) (2 ^ 6) ltac:(lia)).
      pose proof (N.mod_lt (Byte.code b2) (2 ^ 6) ltac:(lia)).
      change (2 ^ 6)%N with 64%N in *. change (2 ^ 12)%N with 4096%N. lia. }
  change (2 ^ 6)%N with 64%N in *. change (2 ^ 12)%N with 4096%N in *.
  change (2 ^ 4)%N with 16%N in *.
  assert (∃ k, (k < 64)%N ∧ c = (8192 + k)%N ∧ utf8 c =
            String (ascii_of_N 226) (String (ascii_of_N 128)
              (String (ascii_of_N (128 + k)) ""))) as (k & Hk & -> & ->).
  { destruct Hc as [-> | ->]; [by exists 40%N|by exists 41%N]. }
  destruct (separator_bytes (Byte.code b0) (Byte.code b1) (Byte.code b2) k
              Hc0 ltac:(lia) ltac:(lia) Hk Hd)
    as (E0 & E1 & E2).
  apply code_inj in E0, E1, E2. by subst b0 b1 b2.
Qed.

Lemma coerce_cons b0 r0 :
  coerce (String b0 r0) =
    if (Byte.code b0 <? 128)%N then String b0 (coerce r0)
    else
      match (decodeRune (String b0 r0)).2, r0 with
      | 2%nat, String b1 r1 => String b0 (String b1 (coerce r1))
      | 3%nat, String b1 (String b2 r2) =>
          String b0 (String b1 (String b2 (coerce r2)))
      | 4%nat, String b1 (String b2 (String b3 r3)) =>
          String b0 (String b1 (String b2 (String b3 (coerce r3))))
      | _, _ => utf8 0xFFFD +:+ coerce r0
      end.
Proof. reflexivity. Qed.

Lemma prepend_prepend t u r : prepend t (prepend u r) = prepend (t +:+ u) r.
Proof. destruct r as [[v rest]|]; [|done]. simpl. by rewrite sapp_assoc. Qed.

(** An ASCII byte, written as it is or escaped, is read back. *)
Lemma readChars_low b t :
  (Byte.code b <? 128)%N = true →
  readChars ((if htmlSafe b then String b "" else escapeByte b) +:+ t) =
    prepend (String b "") (readChars t).
Proof.
  destruct b as [[] [] [] [] [] [] [] []]; intros Hb;
    first [ discriminate Hb | reflexivity ].
Qed.

(** A byte of the encoding of a character outside ASCII is read as it
    is. *)
Lemma readChars_raw b t :
  (128 ≤ Byte.code b)%N →
  readChars (String b t) = prepend (String b "") (readChars t).
Proof.
  intros Hb. destruct (raw_byte b Hb) as [H1%byte_eqb_false H2%byte_eqb_false].
  cbn [readChars]. rewrite H1, H2.
  by rewrite (proj2 (N.ltb_ge _ _)) by lia.
Qed.

Lemma readChars_replacement t :
  readChars (String Byte.BACKSLASH ("ufffd" +:+ t)) =
    prepend (utf8 0xFFFD) (readChars t).
Proof. reflexivity. Qed.

Lemma readChars_separator c t u :
  (c =? 0x2028)%N || (c =? 0x2029)%N = true →
  readChars (String Byte.BACKSLASH
               ("u202" +:+ String (hexDigit (N.land c 15)) t) +:+ u) =
    prepend (utf8 c) (readChars (t +:+ u)).
Proof.
  intros [->%N.eqb_eq| ->%N.eqb_eq]%orb_true_iff; reflexivity.
Qed.

(** The body of a string literal, with the closing quote, is read back as
    the string coerced to valid UTF-8. *)
Lemma readChars_escape_bounded n : ∀ s rest,
  (String.length s ≤ n)%nat →
  readChars (escape s +:+ String Byte.DQUOTE rest) = Some (coerce s, rest).
Proof.
  induction n as [|n IH]; intros s rest Hn.
  { destruct s; [done|simpl in Hn; lia]. }
  destruct s as [|b0 r0]; [done|]. simpl in Hn.
  rewrite escape_cons, coerce_cons.
  destruct (Byte.code b0 <? 128)%N eqn:Hb0.
  { rewrite sapp_assoc, readChars_low, IH by (done || lia). done. }
  apply N.ltb_ge in Hb0.
  destruct (decodeRune (String b0 r0)) as [c size] eqn:Hd.
  pose proof (decodeRune_raw _ _ _ _ Hd Hb0) as Hraw. cbn [snd].
  assert (∀ t, (String.length t ≤ n)%nat →
            readChars (String Byte.BACKSLASH ("ufffd" +:+ escape t) +:+
                       String Byte.DQUOTE rest) =
              Some (utf8 0xFFFD +:+ coerce t, rest)) as Hbad.
  { intros t Ht. rewrite sapp_cons, sapp_assoc, readChars_replacement.
    by rewrite IH. }
  destruct size as [|[|[|[|[|size]]]]]; try (apply Hbad; lia).
  - destruct r0 as [|b1 r1]; [apply Hbad; simpl; lia|]. simpl in Hn.
    rewrite !sapp_cons, !readChars_raw, IH by (done || lia). done.
  - destruct r0 as [|b1 [|b2 r2]]; try (apply Hbad; simpl in *; lia). simpl in Hn.
    destruct Hraw as [H1 H2].
    destruct ((c =? 0x2028)%N || (c =? 0x2029)%N) eqn:Hc.
    + rewrite readChars_separator, IH by (done || lia). cbn [prepend].
      rewrite <-(decodeRune_separator b0 b1 b2 r2 c); [done|done|].
      apply orb_true_iff in Hc as [Hc%N.eqb_eq|Hc%N.eqb_eq]; auto.
    + rewrite !sapp_cons, !readChars_raw, IH by (done || lia). done.
  - destruct r0 as [|b1 [|b2 [|b3 r3]]]; try (apply Hbad; simpl in *; lia).
    simpl in Hn. destruct Hraw as (H1 & H2 & H3).
    rewrite !sapp_cons, !readChars_raw, IH by (done || lia). done.
Qed.

Lemma readChars_escape s rest :
  readChars (escape s +:+ String Byte.DQUOTE rest) = Some (coerce s, rest).
Proof. by apply (readChars_escape_bounded (String.length s)). Qed.

(** ** White space and structural characters *)

Lemma skipSpace_blank w rest :
  allBytes whiteSpace w = true → skipSpace (w +:+ rest) = skipSpace rest.
Proof.
  induction w as [|c w IH]; [done|]. cbn [allBytes].
  intros [Hc Hw]%andb_true_iff. rewrite sapp_cons. cbn [skipSpace].
  rewrite Hc. by apply IH.
Qed.

Lemma skipSpace_token w c rest :
  allBytes whiteSpace w = true → whiteSpace c = false →
  skipSpace (w +:+ String c rest) = String c rest.
Proof.
  intros Hw Hc. rewrite skipSpace_blank by done. cbn [skipSpace]. by rewrite Hc.
Qed.

Lemma whiteSpace_app w w' :
  allBytes whiteSpace w = true → allBytes whiteSpace w' = true →
  allBytes whiteSpace (w +:+ w') = true.
Proof. intros Hw Hw'. by rewrite allBytes_app, Hw, Hw'. Qed.

Lemma expect_found c w rest :
  allBytes whiteSpace w = true → whiteSpace c = false →
  expect c (w +:+ String c rest) = Some rest.
Proof.
  intros Hw Hc. unfold expect. rewrite skipSpace_token by done.
  by rewrite byte_eqb_refl.
Qed.

Lemma expect_other c c' w rest :
  allBytes whiteSpace w = true → whiteSpace c' = false → c' ≠ c →
  expect c (w +:+ String c' rest) = None.
Proof.
  intros Hw Hc Hne. unfold expect. rewrite skipSpace_token by done.
  by rewrite (proj2 (byte_eqb_false _ _) Hne).
Qed.

Lemma quote_cons s rest :
  quote s +:+ rest = String Byte.DQUOTE (escape s +:+ String Byte.DQUOTE rest).
Proof. unfold quote. by rewrite sapp_cons, sapp_assoc. Qed.

Lemma readString_quote w s rest :
  allBytes whiteSpace w = true →
  readString (w +:+ quote s +:+ rest) = Some (coerce s, rest).
Proof.
  intros Hw. unfold readString. rewrite quote_cons, skipSpace_token by done.
  rewrite byte_eqb_refl. apply readChars_escape.
Qed.

(** ** Objects and arrays, whatever the white space between their parts *)

Section Layout.
Variables wa wb wc wp bl : string.
Hypothesis blank_wa : allBytes whiteSpace wa = true.
Hypothesis blank_wb : allBytes whiteSpace wb = true.
Hypothesis blank_wc : allBytes whiteSpace wc = true.
Hypothesis blank_wp : allBytes whiteSpace wp = true.
Hypothesis blank_bl : allBytes whiteSpace bl = true.

Let memberText (p : string * string) : string :=
  quote p.1 +:+ ":" +:+ wb +:+ quote p.2.

Let objectText (entries : list (string * string)) : string :=
  match entries with
  | [] => "{}"
  | _ => "{" +:+ wa +:+ Str.join ("," +:+ wa) (memberText <$> entries) +:+
         wc +:+ "}"
  end.

Let read (p : string * string) : string * string := (coerce p.1, coerce p.2).

Lemma join_fmap_cons {A} sep (f : A → string) x y l :
  Str.join sep (f <$> x :: y :: l) = f x +:+ sep +:+ Str.join sep (f <$> y :: l).
Proof. reflexivity. Qed.

Lemma readMember_text w p rest :
  allBytes whiteSpace w = true →
  readMember (w +:+ memberText p +:+ rest) = Some (read p, rest).
Proof.
  intros Hw. unfold readMember, memberText. rewrite !sapp_assoc.
  rewrite readString_quote by done.
  change (":" +:+ wb +:+ quote p.2 +:+ rest)
    with ("" +:+ String ":"%char (wb +:+ quote p.2 +:+ rest)).
  rewrite expect_found by done. by rewrite readString_quote.
Qed.

Lemma readMembers_text rest l : ∀ p fuel w,
  (length l < fuel)%nat → allBytes whiteSpace w = true →
  readMembers fuel
    (w +:+ Str.join ("," +:+ wa) (memberText <$> p :: l) +:+ wc +:+ "}" +:+ rest) =
    Some (read <$> p :: l, rest).
Proof.
  induction l as [|q l IH]; intros p fuel w Hf Hw;
    (destruct fuel as [|fuel]; [simpl in Hf; lia|]); cbn [readMembers].
  - cbn [fmap list_fmap Str.join]. rewrite readMember_text by done.
    change (wc +:+ "}" +:+ rest) with (wc +:+ String "}"%char rest).
    by rewrite expect_found.
  - rewrite (join_fmap_cons _ memberText), !sapp_assoc.
    rewrite readMember_text by done.
    change ("," +:+ wa +:+ Str.join ("," +:+ wa) (memberText <$> q :: l) +:+
            wc +:+ "}" +:+ rest)
      with ("" +:+ String ","%char
              (wa +:+ Str.join ("," +:+ wa) (memberText <$> q :: l) +:+
               wc +:+ "}" +:+ rest)).
    rewrite expect_other, expect_found by done.
    rewrite IH by (done || simpl in Hf; lia). done.
Qed.

Lemma join_length {A} sep (f : A → string) (l : list A) :
  (∀ p, f p ≠ "") →
  (length l ≤ String.length (Str.join sep (f <$> l)))%nat.
Proof.
  intros Hf. induction l as [|p l IH]; [done|]. destruct l as [|q l].
  - cbn. specialize (Hf p). destruct (f p); [done|]. simpl. lia.
  - rewrite (join_fmap_cons _ f), !sapp_length.
    specialize (Hf p). destruct (f p); [done|]. simpl in *. lia.
Qed.

Lemma readObject_text w entries rest :
  allBytes whiteSpace w = true →
  readObject (w +:+ objectText entries +:+ rest) = Some (read <$> entries, rest).
Proof.
  intros Hw. unfold readObject, objectText. destruct entries as [|p l].
  - change ("{}" +:+ rest) with (String "{"%char ("" +:+ String "}"%char rest)).
    rewrite expect_found by done. by rewrite expect_found.
  - rewrite !sapp_assoc.
    change ("{" +:+ wa +:+ Str.join ("," +:+ wa) (memberText <$> p :: l) +:+
            wc +:+ "}" +:+ rest)
      with (String "{"%char
              (wa +:+ Str.join ("," +:+ wa) (memberText <$> p :: l) +:+
               wc +:+ "}" +:+ rest)).
    rewrite expect_found by done.
    assert (∃ t, Str.join ("," +:+ wa) (memberText <$> p :: l) +:+
                 wc +:+ "}" +:+ rest = String Byte.DQUOTE t) as [t Ht].
    { destruct l; rewrite ?fmap_cons, ?join_cons; cbn [fmap list_fmap Str.join];
        unfold memberText; rewrite !sapp_assoc, quote_cons; by eexists. }
    rewrite Ht, expect_other by done. rewrite <-Ht.
    apply readMembers_text; [|done]. rewrite !sapp_length.
    pose proof (join_length ("," +:+ wa) memberText (p :: l)) as Hl.
    simpl in Hl |- *. 
    assert (∀ p, memberText p ≠ "") as Hne.
    { intros q. unfold memberText. by rewrite quote_cons. }
    specialize (Hl Hne). lia.
Qed.

Lemma readObjects_text rest l : ∀ o fuel w,
  (length l < fuel)%nat → allBytes whiteSpace w = true →
  readObjects fuel
    (w +:+ Str.join ("," +:+ bl) ((λ e, wp +:+ objectText e) <$> o :: l) +:+
     bl +:+ "]" +:+ rest) =
    Some ((λ e : list (string * string), read <$> e) <$> o :: l, rest).
Proof.
  induction l as [|q l IH]; intros o fuel w Hf Hw;
    (destruct fuel as [|fuel]; [simpl in Hf; lia|]); cbn [readObjects].
  - cbn [fmap list_fmap Str.join]. rewrite <-!sapp_assoc, (sapp_assoc w wp).
    rewrite <-(sapp_assoc w wp), !sapp_assoc, <-(sapp_assoc w wp).
    rewrite readObject_text by (by apply whiteSpace_app).
    change (bl +:+ "]" +:+ rest) with (bl +:+ String "]"%char rest).
    by rewrite expect_found.
  - rewrite (join_fmap_cons _ (λ e, wp +:+ objectText e)), !sapp_assoc.
    rewrite <-(sapp_assoc w wp).
    rewrite readObject_text by (by apply whiteSpace_app).
    change ("," +:+ bl +:+
            Str.join ("," +:+ bl) ((λ e, wp +:+ objectText e) <$> q :: l) +:+
            bl +:+ "]" +:+ rest)
      with ("" +:+ String ","%char
              (bl +:+
               Str.join ("," +:+ bl) ((λ e, wp +:+ objectText e) <$> q :: l) +:+
               bl +:+ "]" +:+ rest)).
    rewrite expect_other, expect_found by done.
    rewrite IH by (done || simpl in Hf; lia). done.
Qed.

Lemma readDocument_text objects :
  readDocument
    (("[" +:+ bl) +:+
     Str.join ("," +:+ bl) ((λ e, wp +:+ objectText e) <$> objects) +:+
     bl +:+ "]") =
    Some ((λ e : list (string * string), read <$> e) <$> objects).
Proof.
  unfold readDocument. rewrite sapp_assoc.
  change ("[" +:+ bl +:+
          Str.join ("," +:+ bl) ((λ e, wp +:+ objectText e) <$> objects) +:+
          bl +:+ "]")
    with ("" +:+ String "["%char
            (bl +:+
             Str.join ("," +:+ bl) ((λ e, wp +:+ objectText e) <$> objects) +:+
             bl +:+ "]")).
  rewrite expect_found by done. destruct objects as [|o l].
  - cbn [fmap list_fmap Str.join]. rewrite sapp_nil_l, <-sapp_assoc.
    change ((bl +:+ bl) +:+ "]") with ((bl +:+ bl) +:+ String "]"%char "").
    rewrite expect_found by (done || by apply whiteSpace_app). done.
  - assert (∃ t, wp +:+ objectText o = wp +:+ String "{"%char t) as [t Ht].
    { unfold objectText. destruct o; by eexists. }
    assert (∃ u, Str.join ("," +:+ bl) ((λ e, wp +:+ objectText e) <$> o :: l) +:+
                 bl +:+ "]" = wp +:+ String "{"%char u) as [u Hu].
    { destruct l; rewrite ?fmap_cons, ?join_cons; cbn [fmap list_fmap Str.join];
        rewrite Ht, !sapp_assoc, sapp_cons; by eexists. }
    rewrite Hu, <-sapp_assoc, expect_other by (done || by apply whiteSpace_app).
    rewrite sapp_assoc, <-Hu.
    pose proof (readObjects_text "" l o
                  (String.length
                     (bl +:+
                      Str.join ("," +:+ bl)
                        ((λ e, wp +:+ objectText e) <$> o :: l) +:+ bl +:+ "]"))
                  bl) as Hr.
    rewrite !sapp_nil_r in Hr. 
    change (bl +:+ "]" +:+ "") with (bl +:+ "]") in Hr.
    rewrite Hr; [done| |done]. rewrite !sapp_length.
    pose proof (join_length ("," +:+ bl) (λ e, wp +:+ objectText e) (o :: l)) as Hl.
    assert (∀ e, wp +:+ objectText e ≠ "") as Hne.
    { intros e. apply sapp_nonempty. unfold objectText. by destruct e. }
    specialize (Hl Hne). simpl in Hl |- *. lia.
Qed.

End Layout.

(** The text of an object as the program writes it, with and without the
    flag [pretty]. *)
Lemma jsonFunc_text pretty record :
  jsonFunc pretty record =
    (if pretty then "   " else "") +:+
    match sortedEntries record with
    | [] => "{}"
    | entries =>
        "{" +:+ (if pretty then newline "   " "   " 1 else "") +:+
        Str.join ("," +:+ (if pretty then newline "   " "   " 1 else ""))
          ((λ p, quote p.1 +:+ ":" +:+ (if pretty then " " else "") +:+ quote p.2)
             <$> entries) +:+
        (if pretty then newline "   " "   " 0 else "") +:+ "}"
    end.
Proof.
  destruct pretty.
  - rewrite jsonFunc_true.
    change (indentFrom "   " "   " false false false 0 (Marshal record))
      with (Indent (Marshal record) "   " "   ").
    rewrite Indent_Marshal. by destruct (sortedEntries record).
  - rewrite jsonFunc_false. unfold Marshal. by destruct (sortedEntries record).
Qed.

(** The document of a list of records is read back as the list of their
    members. *)
Lemma readDocument_document pretty records :
  readDocument (document pretty records) = Some (membersOf <$> records).
Proof.
  unfold document. rewrite body_join.
  pose proof (readDocument_text
                (if pretty then newline "   " "   " 1 else "")
                (if pretty then " " else "")
                (if pretty then newline "   " "   " 0 else "")
                (if pretty then "   " else "")
                (breakLine pretty)
                ltac:(by destruct pretty) ltac:(by destruct pretty)
                ltac:(by destruct pretty) ltac:(by destruct pretty)
                ltac:(by destruct pretty)
                (sortedEntries <$> records)) as Hr.
  cbv zeta in Hr. rewrite <-!list_fmap_compose in Hr.
  etrans; [|exact Hr]. do 3 f_equal. f_equal.
  apply list_fmap_ext. intros i record _. cbn [compose].
  rewrite jsonFunc_text. by destruct (sortedEntries record).
Qed.

Lemma coerce_ascii s :
  allBytes (λ b, (Byte.code b <? 128)%N) s = true → coerce s = s.
Proof.
  induction s as [|b s IH]; [done|]. cbn [allBytes].
  intros [Hb Hs]%andb_true_iff. by rewrite coerce_cons, Hb, IH.
Qed.

End ReadBack.

Lemma membersOf_column headers row j name v :
  NoDup headers → length row = length headers →
  headers !! j = Some name → row !! j = Some v →
  (coerce name, coerce v) ∈ membersOf (recordOf headers row).
Proof.
  intros Hnd Hlen Hj Hv. unfold membersOf.
  apply (list_elem_of_fmap_2 (λ p, (coerce p.1, coerce p.2)) _ (name, v)).
  apply sortedEntries_lookup. apply (recordOf_lookup _ _ j); [done..|].
  intros k Hjk Hk. apply (NoDup_lookup _ _ _ _ Hnd Hj) in Hk. lia.
Qed.

Lemma membersOf_length headers row :
  NoDup headers → length row = length headers →
  length (membersOf (recordOf headers row)) = length headers.
Proof.
  intros Hnd Hlen. unfold membersOf.
  rewrite length_fmap, <-(length_fmap fst), recordOf_keys; done.
Qed.


